(** * Threaded_File_System: the storage-and-namespace engine of fileSystem.py

    A shallow embedding of the classes [FileObject] and [FileSystem]
    (src/fileSystem.py, lines 14-603): the best-fit allocator over the
    free list, the metadata dictionaries, the positional operations of an
    open file, and the namespace operations.  The windows, the thread
    manager and the command scripts, which only call these methods, are
    left out, and the methods are run one at a time.

    - Python integers are [Z]; the data file is a list of bytes; a [str]
      that is written to or read from the data file is the list of its
      code points; names and paths are byte strings; dictionaries are
      [gmap]s.
    - A method is a function from the state to an outcome and a state.
      The state after a [raise] is the state at the [raise]: what the
      method changed before it stays changed.
    - The dictionaries that Python shares by reference live in a store and
      are named by their index: the record of a file is held both by
      [fs_metadata['files']] and by every [FileObject] made for it, and a
      caller may keep a [FileObject] after [close].
    - [time.time()] is an argument [now] of the method, one reading for
      each call.
    - The file layer under the data file takes offsets and sizes up to a
      limit of the platform, which the state carries: [df.seek] raises
      above [seek_limit], the largest file the platform keeps, and
      [df.read] above [read_limit], the most it reads at once, and neither
      takes a number of more than 63 bits.  The limits may be different
      at every call.  [df.write] is modelled on a medium with room for
      the bytes, where it does not fail; what is proved of a call that
      writes and returns is proved for bytes that end within the largest
      file the platform keeps.
    - [_save_metadata] writes the snapshot file and leaves the state in
      memory alone; [FileSystem.__init__] is modelled for a volume with no
      snapshot and no data file on disk. *)

From Stdlib Require Import ZArith NArith Lia Ascii String.
From Stdlib.Strings Require Import Byte.
From stdpp Require Import gmap strings list fin_maps sorting.

Local Open Scope Z_scope.

(** ** Free blocks *)

(** A free block is the tuple [(start, size)] of [fs_metadata['free_space']]. *)
Abbreviation block := (Z * Z)%type (only parsing).

Definition total_free (fs : list block) : Z := foldr (λ b acc, b.2 + acc) 0 fs.

(** Python orders tuples lexicographically; [list.sort()] uses that order. *)
Definition tuple_le (a b : block) : Prop :=
  a.1 < b.1 ∨ (a.1 = b.1 ∧ a.2 ≤ b.2).

#[global] Instance tuple_le_dec a b : Decision (tuple_le a b).
Proof. unfold tuple_le. apply _. Defined.

#[global] Instance tuple_le_total : Total tuple_le.
Proof. intros [a1 a2] [b1 b2]. unfold tuple_le. simpl. lia. Qed.

#[global] Instance tuple_le_trans : Transitive tuple_le.
Proof. intros [a1 a2] [b1 b2] [c1 c2]. unfold tuple_le. simpl. lia. Qed.

#[global] Instance tuple_le_antisymm : AntiSymm (=) tuple_le.
Proof.
  intros [a1 a2] [b1 b2]. unfold tuple_le. simpl. intros H1 H2.
  f_equal; lia.
Qed.

(** [self.fs_metadata['free_space'].sort()].  The order is total and
    antisymmetric, so the sorted list does not depend on the algorithm
    (see [sort_unique]). *)
Definition sort (fs : list block) : list block := merge_sort tuple_le fs.

(** The scan of [_allocate_space]: [best] is the pair
    [(best_fit_index, best_fit_size)], [None] standing for the initial
    [(-1, float('inf'))]. *)
Fixpoint best_fit_scan (size : Z) (fs : list block) (i : nat)
    (best : option (nat * Z)) : option (nat * Z) :=
  match fs with
  | [] => best
  | (_, free_size) :: rest =>
      let fits := bool_decide (size ≤ free_size) in
      let smaller :=
        match best with
        | None => true
        | Some (_, best_fit_size) => bool_decide (free_size < best_fit_size)
        end in
      best_fit_scan size rest (S i)
        (if fits && smaller then Some (i, free_size) else best)
  end.

(** The [while i < len(free_space) - 1] loop of [_release_space].  Every
    iteration either removes a block or advances [i], so [length fs]
    iterations always suffice (see [merge_loop_fuel]). *)
Fixpoint merge_loop (fuel : nat) (i : nat) (fs : list block) : list block :=
  match fuel with
  | O => fs
  | S fuel' =>
      if bool_decide (i < length fs - 1)%nat then
        let '(curr_start, curr_size) := fs !!! i in
        let '(next_start, next_size) := fs !!! S i in
        if bool_decide (curr_start + curr_size = next_start) then
          merge_loop fuel' i
            (delete (S i) (<[i := (curr_start, curr_size + next_size)]> fs))
        else merge_loop fuel' (S i) fs
      else fs
  end.

(** ** UTF-8 *)

(** A [str] whose bytes matter is the list of its code points. *)
Definition str : Type := list N.

Definition byte_of_N (n : N) : byte := default "000"%byte (Byte.of_N n).

Local Open Scope N_scope.

Definition is_surrogate (c : N) : bool :=
  bool_decide (0xD800 ≤ c) && bool_decide (c ≤ 0xDFFF).

(** [chr(c).encode('utf-8')]; a lone surrogate raises [UnicodeEncodeError]. *)
Definition encode_char (c : N) : option (list byte) :=
  if bool_decide (c < 0x80) then Some [byte_of_N c]
  else if bool_decide (c < 0x800) then
    Some [byte_of_N (0xC0 + c / 64); byte_of_N (0x80 + c mod 64)]
  else if bool_decide (c < 0x10000) then
    if is_surrogate c then None
    else Some [byte_of_N (0xE0 + c / 4096);
               byte_of_N (0x80 + (c / 64) mod 64);
               byte_of_N (0x80 + c mod 64)]
  else if bool_decide (c < 0x110000) then
    Some [byte_of_N (0xF0 + c / 262144);
          byte_of_N (0x80 + (c / 4096) mod 64);
          byte_of_N (0x80 + (c / 64) mod 64);
          byte_of_N (0x80 + c mod 64)]
  else None.

(** [s.encode('utf-8')] *)
Fixpoint encode (s : str) : option (list byte) :=
  match s with
  | [] => Some []
  | c :: s' =>
      match encode_char c, encode s' with
      | Some bs, Some bs' => Some (bs ++ bs')
      | _, _ => None
      end
  end.

Definition is_cont (b : byte) : bool :=
  bool_decide (0x80 ≤ Byte.to_N b) && bool_decide (Byte.to_N b < 0xC0).

Definition cont_bits (b : byte) : N := Byte.to_N b - 0x80.

(** [bs.decode('utf-8')], strict: a truncated or overlong sequence, a
    surrogate or a value above U+10FFFF raises [UnicodeDecodeError]. *)
Fixpoint decode (bs : list byte) : option str :=
  match bs with
  | [] => Some []
  | b0 :: r1 =>
      let n0 := Byte.to_N b0 in
      if bool_decide (n0 < 0x80) then cons n0 <$> decode r1
      else
        match r1 with
        | [] => None
        | b1 :: r2 =>
            if negb (is_cont b1) then None
            else if bool_decide (0xC0 ≤ n0) && bool_decide (n0 < 0xE0) then
              let c := (n0 - 0xC0) * 64 + cont_bits b1 in
              if bool_decide (c < 0x80) then None else cons c <$> decode r2
            else
              match r2 with
              | [] => None
              | b2 :: r3 =>
                  if negb (is_cont b2) then None
                  else if bool_decide (0xE0 ≤ n0) && bool_decide (n0 < 0xF0) then
                    let c := (n0 - 0xE0) * 4096 + cont_bits b1 * 64
                             + cont_bits b2 in
                    if bool_decide (c < 0x800) || is_surrogate c then None
                    else cons c <$> decode r3
                  else
                    match r3 with
                    | [] => None
                    | b3 :: r4 =>
                        if negb (is_cont b3) then None
                        else if bool_decide (0xF0 ≤ n0) && bool_decide (n0 < 0xF8) then
                          let c := (n0 - 0xF0) * 262144 + cont_bits b1 * 4096
                                   + cont_bits b2 * 64 + cont_bits b3 in
                          if bool_decide (c < 0x10000) || bool_decide (0x10FFFF < c)
                          then None
                          else cons c <$> decode r4
                        else None
                    end
              end
        end
  end.

(** [s.rstrip('\0')] *)
Fixpoint rstrip_nul (s : str) : str :=
  match s with
  | [] => []
  | c :: s' =>
      match rstrip_nul s' with
      | [] => if bool_decide (c = 0) then [] else [c]
      | t => c :: t
      end
  end.

Local Close Scope N_scope.

(** The code points of an ASCII literal. *)
Fixpoint str_of (s : string) : str :=
  match s with
  | EmptyString => []
  | String a s' => N_of_ascii a :: str_of s'
  end.


(** ** Paths *)

Local Open Scope string_scope.
Local Open Scope list_scope.
Local Open Scope Z_scope.

(** [s.split('/')] *)
Fixpoint split (s : string) : list string :=
  match s with
  | EmptyString => [""]
  | String c rest =>
      if bool_decide (c = "/"%char) then "" :: split rest
      else
        match split rest with
        | [] => [String c ""]
        | p :: ps => String c p :: ps
        end
  end.

(** ['/'.join(parts)] *)
Fixpoint join (parts : list string) : string :=
  match parts with
  | [] => ""
  | [p] => p
  | p :: ps => p +:+ "/" +:+ join ps
  end.

(** [[p for p in s.split('/') if p]] *)
Definition path_parts (s : string) : list string :=
  filter (λ p, p ≠ "") (split s).

(** [s.rstrip('/')] *)
Fixpoint rstrip_slash (s : string) : string :=
  match s with
  | EmptyString => ""
  | String c rest =>
      match rstrip_slash rest with
      | EmptyString => if bool_decide (c = "/"%char) then "" else String c ""
      | t => String c t
      end
  end.

(** [s.startswith('/')] *)
Definition startswith_slash (s : string) : bool :=
  match s with
  | String c _ => bool_decide (c = "/"%char)
  | EmptyString => false
  end.

(** [s.rsplit('/', 1)[0]] *)
Definition rsplit_head (s : string) : string :=
  match split s with
  | [] | [_] => s
  | ps => join (take (length ps - 1) ps)
  end.

(** [s.split('/')[-1]] *)
Definition split_last (s : string) : string := default "" (last (split s)).

(** ** The state of the engine *)

(** A value of [fs_metadata['files']]. *)
Record file_meta := FileMeta {
  f_name : string;
  f_size : Z;
  f_creation_time : Z;
  f_modified_time : Z;
  f_start_pos : Z;
  f_is_directory : bool
}.

(** A value of [fs_metadata['directories']]. *)
Record dir_meta := DirMeta {
  d_name : string;
  d_creation_time : Z;
  d_files : list string;
  d_subdirectories : list string
}.

(** An instance of class [FileObject].  [file_meta] is a reference: the
    index of the record in the store [records] of the file system. *)
Record FileObject := MkFileObject {
  file_name : string;
  mode : string;
  file_meta_ref : nat;
  content : str
}.

(** An instance of class [FileSystem] together with the two object stores,
    the contents of the data file and the limits of the file layer.
    [files] maps a name to the index of its record in [records];
    [open_files] maps a name to the index of its [FileObject] in [objects];
    [seek_limit] is the largest offset the platform seeks to (the largest
    file it keeps), [read_limit] the largest size it finds the memory to
    read. *)
Record FileSystem := MkFileSystem {
  max_size : Z;
  used_size : Z;
  files : gmap string nat;
  directories : gmap string dir_meta;
  free_space : list block;
  current_path : string;
  open_files : gmap string nat;
  records : list file_meta;
  objects : list FileObject;
  data_file : list byte;
  seek_limit : N;
  read_limit : N
}.

#[global] Instance file_meta_inhabited : Inhabited file_meta :=
  populate (FileMeta "" 0 0 0 0 false).

Definition set_used_size (f : Z → Z) (w : FileSystem) : FileSystem :=
  MkFileSystem (max_size w) (f (used_size w)) (files w) (directories w)
    (free_space w) (current_path w) (open_files w) (records w) (objects w)
    (data_file w) (seek_limit w) (read_limit w).
Definition set_files (f : gmap string nat → gmap string nat) (w : FileSystem) :=
  MkFileSystem (max_size w) (used_size w) (f (files w)) (directories w)
    (free_space w) (current_path w) (open_files w) (records w) (objects w)
    (data_file w) (seek_limit w) (read_limit w).
Definition set_directories
    (f : gmap string dir_meta → gmap string dir_meta) (w : FileSystem) :=
  MkFileSystem (max_size w) (used_size w) (files w) (f (directories w))
    (free_space w) (current_path w) (open_files w) (records w) (objects w)
    (data_file w) (seek_limit w) (read_limit w).
Definition set_free_space (f : list block → list block) (w : FileSystem) :=
  MkFileSystem (max_size w) (used_size w) (files w) (directories w)
    (f (free_space w)) (current_path w) (open_files w) (records w) (objects w)
    (data_file w) (seek_limit w) (read_limit w).
Definition set_current_path (p : string) (w : FileSystem) :=
  MkFileSystem (max_size w) (used_size w) (files w) (directories w)
    (free_space w) p (open_files w) (records w) (objects w) (data_file w)
    (seek_limit w) (read_limit w).
Definition set_open_files (f : gmap string nat → gmap string nat) (w : FileSystem) :=
  MkFileSystem (max_size w) (used_size w) (files w) (directories w)
    (free_space w) (current_path w) (f (open_files w)) (records w) (objects w)
    (data_file w) (seek_limit w) (read_limit w).
Definition set_records (f : list file_meta → list file_meta) (w : FileSystem) :=
  MkFileSystem (max_size w) (used_size w) (files w) (directories w)
    (free_space w) (current_path w) (open_files w) (f (records w)) (objects w)
    (data_file w) (seek_limit w) (read_limit w).
Definition set_objects (f : list FileObject → list FileObject) (w : FileSystem) :=
  MkFileSystem (max_size w) (used_size w) (files w) (directories w)
    (free_space w) (current_path w) (open_files w) (records w) (f (objects w))
    (data_file w) (seek_limit w) (read_limit w).
Definition set_data_file (f : list byte → list byte) (w : FileSystem) :=
  MkFileSystem (max_size w) (used_size w) (files w) (directories w)
    (free_space w) (current_path w) (open_files w) (records w) (objects w)
    (f (data_file w)) (seek_limit w) (read_limit w).

(** The same state on a platform with other limits. *)
Definition set_platform (s r : N) (w : FileSystem) :=
  MkFileSystem (max_size w) (used_size w) (files w) (directories w)
    (free_space w) (current_path w) (open_files w) (records w) (objects w)
    (data_file w) s r.

(** What the metadata dictionary holds, with the record references
    followed: the files map, the directories map, the free list and
    [used_size]. *)
Definition metadata (w : FileSystem)
    : gmap string file_meta * gmap string dir_meta * list block * Z :=
  ((λ r, records w !!! r) <$> files w, directories w, free_space w, used_size w).

(** ** Exceptions and the monad of the methods *)

(** The exceptions, by the kind the specification gives them. *)
Inductive exn :=
  | AlreadyExists    (* ValueError: the file or directory already exists *)
  | NotFound         (* ValueError / FileNotFoundError: no such file or directory *)
  | InUse            (* ValueError: the file is open *)
  | NotOpen          (* ValueError: the file is not open *)
  | WrongMode        (* IOError: the file is not opened in write mode *)
  | InvalidArgument  (* ValueError: a negative argument, an unknown mode *)
  | OutOfSpace       (* IOError: no free block is large enough *)
  | KeyError         (* subscript of a dictionary with a missing key *)
  | UnicodeError     (* encode or decode failed *)
  | OSError          (* seek to a negative position *)
  | OutOfRange       (* ValueError, OverflowError, MemoryError or OSError of
                        the file layer: an offset or a size that the
                        platform does not take *)
  | NoSuchObject.    (* the caller names a FileObject that was never built *)

Inductive outcome (A : Type) :=
  | Ok (a : A)
  | Raise (e : exn).
Arguments Ok {A} a.
Arguments Raise {A} e.

(** A method runs on the state and leaves a state behind, also when it
    raises: what it changed before the [raise] stays changed. *)
Definition M (A : Type) : Type := FileSystem → outcome A * FileSystem.

#[global] Instance M_ret : MRet M := λ A a w, (Ok a, w).
#[global] Instance M_bind : MBind M := λ A B f m w,
  match m w with
  | (Ok a, w') => f a w'
  | (Raise e, w') => (Raise e, w')
  end.

Definition raise {A} (e : exn) : M A := λ w, (Raise e, w).
Definition gets {A} (f : FileSystem → A) : M A := λ w, (Ok (f w), w).
Definition modify (f : FileSystem → FileSystem) : M unit := λ w, (Ok tt, f w).

(** [_save_metadata] writes the snapshot file; the state in memory is not
    touched. *)
Definition _save_metadata : M unit := mret tt.

(** Builds a dictionary for a file record and returns the reference. *)
Definition new_record (m : file_meta) : M nat :=
  r ← gets (λ w, length (records w));
  modify (set_records (λ rs, rs ++ [m]));;
  mret r.

Definition get_record (r : nat) : M file_meta := gets (λ w, records w !!! r).

Definition update_record (r : nat) (f : file_meta → file_meta) : M unit :=
  modify (set_records (λ rs, alter f r rs)).

Definition with_size (n : Z) (m : file_meta) : file_meta :=
  FileMeta (f_name m) n (f_creation_time m) (f_modified_time m)
    (f_start_pos m) (f_is_directory m).
Definition with_modified_time (t : Z) (m : file_meta) : file_meta :=
  FileMeta (f_name m) (f_size m) (f_creation_time m) t
    (f_start_pos m) (f_is_directory m).

(** [fs_metadata['files'][name]] *)
Definition files_item (name : string) : M nat :=
  fs ← gets files;
  match fs !! name with
  | Some r => mret r
  | None => raise KeyError
  end.

(** ** The data file *)

(** The largest offset [df.seek] takes and the largest size [df.read]
    takes: the limit of the platform, and [2 ** 63 - 1] at most (an offset
    is converted to an [off_t], a size to a [Py_ssize_t]). *)
Definition seek_bound (w : FileSystem) : Z :=
  Z.min (2 ^ 63 - 1) (Z.of_N (seek_limit w)).
Definition read_bound (w : FileSystem) : Z :=
  Z.min (2 ^ 63 - 1) (Z.of_N (read_limit w)).

(** [df.seek(pos)]: an offset that is no [off_t], or that the platform does
    not take, is refused, and so is a negative one. *)
Definition seek (pos : Z) : M unit :=
  top ← gets seek_bound;
  if bool_decide (pos < - 2 ^ 63) || bool_decide (top < pos)
  then raise OutOfRange
  else if bool_decide (pos < 0) then raise OSError
  else mret tt.

(** The bytes [df.read(size)] returns after [df.seek(pos)]: at most [size]
    bytes, fewer at the end of the file; everything when [size] is
    negative, which for a read that returns is [-1]. *)
Definition file_read (data : list byte) (pos size : Z) : list byte :=
  let rest := drop (Z.to_nat pos) data in
  if bool_decide (size < 0) then rest else take (Z.to_nat size) rest.

(** [df.read(size)] after [df.seek(pos)]: a size below [-1], or one that
    the platform does not take, is refused. *)
Definition read (pos size : Z) : M (list byte) :=
  top ← gets read_bound;
  if bool_decide (size < -1) || bool_decide (top < size)
  then raise OutOfRange
  else
    data ← gets data_file;
    mret (file_read data pos size).

(** [df.write(bs)] after [df.seek(pos)] on a file opened ['r+b'], on a
    medium with room for the bytes: a write past the end fills the gap
    with zero bytes; writing nothing changes nothing. *)
Definition file_write (data : list byte) (pos : Z) (bs : list byte) : list byte :=
  match bs with
  | [] => data
  | _ =>
      let p := Z.to_nat pos in
      take p data ++ replicate (p - length data) "000"%byte ++ bs
        ++ drop (p + length bs) data
  end.

(** ** The allocator: [_allocate_space] and [_release_space] *)

Definition _allocate_space (size : Z) : M Z :=
  fs ← gets free_space;
  match fs with
  | [] => raise OutOfSpace
  | _ =>
      match best_fit_scan size fs 0 None with
      | None => raise OutOfSpace
      | Some (best_fit_index, _) =>
          let '(start, free_size) := fs !!! best_fit_index in
          modify (set_free_space (λ fs,
            if bool_decide (free_size = size) then delete best_fit_index fs
            else <[best_fit_index := (start + size, free_size - size)]> fs));;
          modify (set_used_size (λ u, u + size));;
          mret start
      end
  end.

Definition _release_space (start size : Z) : M unit :=
  if bool_decide (size ≤ 0) then mret tt
  else
    modify (set_free_space (λ fs, fs ++ [(start, size)]));;
    modify (set_used_size (λ u, u - size));;
    modify (set_free_space sort);;
    modify (set_free_space (λ fs, merge_loop (length fs) 0 fs)).

(** ** class FileSystem: directories *)

(** [get_current_directory_meta]: the dictionary returned is the one
    stored under [current_path], which is created when it is missing; the
    model returns its key. *)
Definition get_current_directory_meta (now : Z) : M string :=
  cp ← gets current_path;
  ds ← gets directories;
  match ds !! cp with
  | Some _ => mret cp
  | None =>
      modify (set_directories
        <[cp := DirMeta (if bool_decide (cp = "/") then "/" else split_last cp)
                  now [] []]>);;
      _save_metadata;;
      mret cp
  end.

(** [if x not in l: l.append(x)] *)
Definition append_new (x : string) (l : list string) : list string :=
  if bool_decide (x ∈ l) then l else l ++ [x].

(** [if x in l: l.remove(x)]: the first occurrence goes. *)
Fixpoint remove_first (x : string) (l : list string) : list string :=
  match l with
  | [] => []
  | y :: l' => if bool_decide (y = x) then l' else y :: remove_first x l'
  end.

Definition add_file (name : string) (d : dir_meta) : dir_meta :=
  DirMeta (d_name d) (d_creation_time d) (append_new name (d_files d))
    (d_subdirectories d).
Definition push_file (name : string) (d : dir_meta) : dir_meta :=
  DirMeta (d_name d) (d_creation_time d) (d_files d ++ [name])
    (d_subdirectories d).
Definition drop_file (name : string) (d : dir_meta) : dir_meta :=
  DirMeta (d_name d) (d_creation_time d) (remove_first name (d_files d))
    (d_subdirectories d).
Definition add_subdirectory (name : string) (d : dir_meta) : dir_meta :=
  DirMeta (d_name d) (d_creation_time d) (d_files d)
    (append_new name (d_subdirectories d)).

(** ** class FileObject *)

(** [FileObject.__init__]; the object is entered in the store, and its
    reference returned, only when the constructor returns. *)
Definition FileObject_init (now : Z) (name md : string) : M nat :=
  fs ← gets files;
  match fs !! name with
  | None =>
      if bool_decide (md ≠ "w") then raise NotFound
      else
        start_pos ← _allocate_space 0;
        r ← new_record (FileMeta name 0 now now start_pos false);
        current_dir ← get_current_directory_meta now;
        modify (set_directories (alter (add_file name) current_dir));;
        cp ← gets current_path;
        let parts := path_parts cp in
        let dir_path := match parts with [] => "" | _ => "/" +:+ join parts end in
        ds ← gets directories;
        match ds !! dir_path with
        | None => raise KeyError
        | Some _ =>
            modify (set_directories (alter (push_file name) dir_path));;
            modify (set_files <[name := r]>);;
            _save_metadata;;
            h ← gets (λ w, length (objects w));
            modify (set_objects (λ os, os ++ [MkFileObject name md r []]));;
            mret h
        end
  | Some r =>
      m ← get_record r;
      seek (f_start_pos m);;
      stored ← read (f_start_pos m) (f_size m);
      match decode stored with
      | None => raise UnicodeError
      | Some s =>
          h ← gets (λ w, length (objects w));
          modify (set_objects (λ os, os ++ [MkFileObject name md r (rstrip_nul s)]));;
          mret h
      end
  end.

Definition get_object (h : nat) : M FileObject :=
  os ← gets objects;
  match os !! h with
  | Some o => mret o
  | None => raise NoSuchObject
  end.

Definition with_content (s : str) (o : FileObject) : FileObject :=
  MkFileObject (file_name o) (mode o) (file_meta_ref o) s.

(** [write_to_file]: append *)
Definition write_to_file (now : Z) (h : nat) (text : str) : M unit :=
  o ← get_object h;
  if bool_decide (mode o ≠ "w") then raise WrongMode
  else
    let content' := content o ++ text in
    modify (set_objects (alter (with_content content') h));;
    m ← get_record (file_meta_ref o);
    seek (f_start_pos m);;
    match encode content' with
    | None => raise UnicodeError
    | Some bs =>
        modify (set_data_file (λ d, file_write d (f_start_pos m) bs));;
        update_record (file_meta_ref o) (with_size (Z.of_nat (length bs)));;
        update_record (file_meta_ref o) (with_modified_time now);;
        r ← files_item (file_name o);
        m' ← get_record (file_meta_ref o);
        update_record r (with_size (f_size m'));;
        r ← files_item (file_name o);
        update_record r (with_modified_time (f_modified_time m'));;
        _save_metadata
    end.

(** [write_to_file_at] *)
Definition write_to_file_at (now : Z) (h : nat) (write_at : Z) (text : str)
    : M unit :=
  o ← get_object h;
  if bool_decide (mode o ≠ "w") then raise WrongMode
  else if bool_decide (write_at < 0) then raise InvalidArgument
  else
    match encode text with
    | None => raise UnicodeError
    | Some text_bytes =>
        let end_pos := write_at + Z.of_nat (length text_bytes) in
        m ← get_record (file_meta_ref o);
        (if bool_decide (end_pos > f_size m) then
           update_record (file_meta_ref o) (with_size end_pos);;
           r ← files_item (file_name o);
           update_record r (with_size end_pos)
         else mret tt);;
        m ← get_record (file_meta_ref o);
        seek (f_start_pos m + write_at);;
        modify (set_data_file (λ d, file_write d (f_start_pos m + write_at) text_bytes));;
        update_record (file_meta_ref o) (with_modified_time now);;
        r ← files_item (file_name o);
        update_record r (with_modified_time now);;
        _save_metadata
    end.

(** [read_from_file] *)
Definition read_from_file (h : nat) : M str :=
  o ← get_object h;
  mret (content o).

(** [read_from_file_at] *)
Definition read_from_file_at (h : nat) (start size : Z) : M str :=
  o ← get_object h;
  if bool_decide (start < 0) || bool_decide (size < 0) then raise InvalidArgument
  else
    m ← get_record (file_meta_ref o);
    if bool_decide (f_size m ≤ start) then mret []
    else
      let size := if bool_decide (start + size > f_size m)
                  then f_size m - start else size in
      seek (f_start_pos m + start);;
      content ← read (f_start_pos m + start) size;
      match decode content with
      | None => raise UnicodeError
      | Some s => mret s
      end.

(** [move_within_file] *)
Definition move_within_file (now : Z) (h : nat) (start size target : Z)
    : M unit :=
  o ← get_object h;
  if bool_decide (mode o ≠ "w") then raise WrongMode
  else if bool_decide (start < 0) || bool_decide (size < 0)
          || bool_decide (target < 0) then raise InvalidArgument
  else
    m ← get_record (file_meta_ref o);
    if bool_decide (f_size m ≤ start) then mret tt
    else
      let size := if bool_decide (start + size > f_size m)
                  then f_size m - start else size in
      seek (f_start_pos m + start);;
      moved ← read (f_start_pos m + start) size;
      let new_size := Z.max (f_size m) (target + size) in
      (if bool_decide (new_size > f_size m) then
         update_record (file_meta_ref o) (with_size new_size);;
         r ← files_item (file_name o);
         update_record r (with_size new_size)
       else mret tt);;
      m ← get_record (file_meta_ref o);
      seek (f_start_pos m + target);;
      modify (set_data_file (λ d, file_write d (f_start_pos m + target) moved));;
      update_record (file_meta_ref o) (with_modified_time now);;
      r ← files_item (file_name o);
      update_record r (with_modified_time now);;
      _save_metadata.

(** [truncate_file] *)
Definition truncate_file (now : Z) (h : nat) (max_size : Z) : M unit :=
  o ← get_object h;
  if bool_decide (mode o ≠ "w") then raise WrongMode
  else if bool_decide (max_size < 0) then raise InvalidArgument
  else
    m ← get_record (file_meta_ref o);
    if bool_decide (f_size m ≤ max_size) then mret tt
    else
      update_record (file_meta_ref o) (with_size max_size);;
      r ← files_item (file_name o);
      update_record r (with_size max_size);;
      update_record (file_meta_ref o) (with_modified_time now);;
      r ← files_item (file_name o);
      update_record r (with_modified_time now);;
      _save_metadata.

(** ** class FileSystem: the operations *)

(** [FileSystem.__init__] with no snapshot and no data file on disk, on a
    platform with the widest limits. *)
Definition FileSystem_init (now : Z) (max_size : Z) : FileSystem :=
  MkFileSystem max_size 0 ∅ {["/" := DirMeta "/" now [] []]} [(0, max_size)]
    "/" ∅ [] [] (replicate (Z.to_nat max_size) "000"%byte)
    (Z.to_N (2 ^ 63 - 1)) (Z.to_N (2 ^ 63 - 1)).

(** [create] *)
Definition create (now : Z) (name : string) : M bool :=
  fs ← gets files;
  match fs !! name with
  | Some _ => raise AlreadyExists
  | None =>
      current_dir ← get_current_directory_meta now;
      start_pos ← _allocate_space 0;
      r ← new_record (FileMeta name 0 now now start_pos false);
      modify (set_directories (alter (add_file name) current_dir));;
      modify (set_files <[name := r]>);;
      _save_metadata;;
      mret true
  end.

(** [delete] *)
Definition delete (name : string) : M bool :=
  fs ← gets files;
  match fs !! name with
  | None => raise NotFound
  | Some r =>
      opened ← gets open_files;
      match opened !! name with
      | Some _ => raise InUse
      | None =>
          m ← get_record r;
          _release_space (f_start_pos m) (f_size m);;
          modify (set_directories (fmap (drop_file name)));;
          modify (set_files (base.delete name));;
          _save_metadata;;
          mret true
      end
  end.

(** [f"/{dir_name}"] at the root, [f"{current_path}/{dir_name}"] below it. *)
Definition child_path (cp name : string) : string :=
  if bool_decide (cp = "/") then "/" +:+ name else cp +:+ "/" +:+ name.

(** [mkdir] *)
Definition mkdir (now : Z) (dir_name : string) : M bool :=
  cp ← gets current_path;
  let new_dir_path := child_path cp dir_name in
  ds ← gets directories;
  match ds !! new_dir_path with
  | Some _ => raise AlreadyExists
  | None =>
      modify (set_directories <[new_dir_path := DirMeta dir_name now [] []]>);;
      parent_dir ← get_current_directory_meta now;
      modify (set_directories (alter (add_subdirectory dir_name) parent_dir));;
      _save_metadata;;
      mret true
  end.

(** [chdir] *)
Definition chdir (dir_name : string) : M bool :=
  if bool_decide (dir_name = ".") then mret true
  else if bool_decide (dir_name = "..") then
    cp ← gets current_path;
    if bool_decide (cp = "/") then mret true
    else
      let parts := path_parts cp in
      let parts := take (length parts - 1) parts in
      let p := "/" +:+ join parts in
      modify (set_current_path (if bool_decide (p = "") then "/" else p));;
      mret true
  else if bool_decide (dir_name = "/") then
    modify (set_current_path "/");;
    mret true
  else
    cp ← gets current_path;
    let target_path := child_path cp dir_name in
    ds ← gets directories;
    match ds !! target_path with
    | None => raise NotFound
    | Some _ =>
        modify (set_current_path target_path);;
        mret true
    end.

(** The [for part in parts] loop of [move]: every missing directory on
    the way to the target is created and linked under its parent. *)
Fixpoint make_dirs (now : Z) (parts : list string) (curr : string)
    (ds : gmap string dir_meta) : gmap string dir_meta :=
  match parts with
  | [] => ds
  | part :: rest =>
      let curr := if bool_decide (curr = "") then "/" +:+ part
                  else curr +:+ "/" +:+ part in
      make_dirs now rest curr
        (match ds !! curr with
         | Some _ => ds
         | None =>
             let ds := <[curr := DirMeta part now [] []]> ds in
             let parent := if bool_decide (curr = "/" +:+ part) then "/"
                           else rsplit_head curr in
             match ds !! parent with
             | Some _ => alter (add_subdirectory part) parent ds
             | None => ds
             end
         end)
  end.

(** [move] *)
Definition move (now : Z) (source_fname target_dir : string) : M bool :=
  fs ← gets files;
  match fs !! source_fname with
  | None => raise NotFound
  | Some _ =>
      opened ← gets open_files;
      match opened !! source_fname with
      | Some _ => raise InUse
      | None =>
          cp ← gets current_path;
          let target_dir_path :=
            if negb (startswith_slash target_dir) then child_path cp target_dir
            else target_dir in
          let target_dir_path := rstrip_slash target_dir_path in
          ds ← gets directories;
          (match ds !! target_dir_path with
           | Some _ => mret tt
           | None =>
               modify (set_directories
                 (make_dirs now (path_parts target_dir_path) ""))
           end);;
          modify (set_directories (fmap (drop_file source_fname)));;
          ds ← gets directories;
          match ds !! target_dir_path with
          | None => raise KeyError
          | Some _ =>
              modify (set_directories
                (alter (add_file source_fname) target_dir_path));;
              _save_metadata;;
              mret true
          end
      end
  end.

(** [open] *)
Definition open (now : Z) (name md : string) : M nat :=
  if bool_decide (md ≠ "r" ∧ md ≠ "w") then raise InvalidArgument
  else
    file_obj ← FileObject_init now name md;
    modify (set_open_files <[name := file_obj]>);;
    mret file_obj.

(** [close] *)
Definition close (name : string) : M bool :=
  opened ← gets open_files;
  match opened !! name with
  | None => raise NotOpen
  | Some _ =>
      modify (set_open_files (base.delete name));;
      _save_metadata;;
      mret true
  end.

(** ** Sequences of calls *)

(** One call on the engine; a [FileObject] is named by its reference. *)
Inductive call :=
  | Create (name : string)
  | Delete (name : string)
  | Mkdir (dir_name : string)
  | Chdir (dir_name : string)
  | Move (source_fname target_dir : string)
  | Open (name md : string)
  | Close (name : string)
  | Append (h : nat) (text : str)
  | WriteAt (h : nat) (write_at : Z) (text : str)
  | ReadAll (h : nat)
  | ReadRange (h : nat) (start size : Z)
  | MoveWithin (h : nat) (start size target : Z)
  | Truncate (h : nat) (max_size : Z).

Definition void {A} (m : M A) : M unit := m;; mret tt.

(** Runs a call at clock reading [now]; the value returned is dropped. *)
Definition run (now : Z) (c : call) : M unit :=
  match c with
  | Create name => void (create now name)
  | Delete name => void (delete name)
  | Mkdir dir_name => void (mkdir now dir_name)
  | Chdir dir_name => void (chdir dir_name)
  | Move s t => void (move now s t)
  | Open name md => void (open now name md)
  | Close name => void (close name)
  | Append h text => write_to_file now h text
  | WriteAt h write_at text => write_to_file_at now h write_at text
  | ReadAll h => void (read_from_file h)
  | ReadRange h start size => void (read_from_file_at h start size)
  | MoveWithin h start size target => move_within_file now h start size target
  | Truncate h max_size => truncate_file now h max_size
  end.

(** The states the engine can be in: the fresh volume, and every state a
    call leaves behind, whether it returned or raised; the limits of the
    platform are any at all, and may change between two calls. *)
Inductive reachable (capacity : Z) : FileSystem → Prop :=
  | reachable_init now : reachable capacity (FileSystem_init now capacity)
  | reachable_step w now c :
      reachable capacity w → reachable capacity (run now c w).2
  | reachable_platform w s r :
      reachable capacity w → reachable capacity (set_platform s r w).

(** Runs a script of calls, each with its clock reading, and keeps going
    after a call that raised, as a caller that catches the exception does. *)
Definition run_all (script : list (Z * call)) (w : FileSystem) : FileSystem :=
  foldl (λ w '(now, c), (run now c w).2) w script.

(** ** Vocabulary of the properties *)

(** The merge loop, told by recursion on the list: [cur] is the block at
    index [i], [rest] what follows it ([merge_loop_coalesce] proves the two
    tellings equal). *)
Fixpoint coalesce_from (cur : block) (rest : list block) : list block :=
  match rest with
  | [] => [cur]
  | nxt :: rest' =>
      if bool_decide (cur.1 + cur.2 = nxt.1)
      then coalesce_from (cur.1, cur.2 + nxt.2) rest'
      else cur :: coalesce_from nxt rest'
  end.

Definition coalesce (fs : list block) : list block :=
  match fs with
  | [] => []
  | cur :: rest => coalesce_from cur rest
  end.

(** [a] ends before [b] starts, with room between them / touching allowed. *)
Definition gap_lt (a b : block) : Prop := a.1 + a.2 < b.1.
Definition gap_le (a b : block) : Prop := a.1 + a.2 ≤ b.1.

(** The two byte ranges share no byte. *)
Definition disjoint (a b : block) : Prop :=
  a.1 + a.2 ≤ b.1 ∨ b.1 + b.2 ≤ a.1.

#[global] Instance disjoint_dec a b : Decision (disjoint a b).
Proof. unfold disjoint. apply _. Defined.

(** The properties of a free list: starts in ascending order, and in
    strictly ascending order; no two blocks that share a byte; no block
    that ends where another starts. *)
Definition sorted_by_start (fs : list block) : Prop :=
  ∀ i j a b, (i < j)%nat → fs !! i = Some a → fs !! j = Some b → a.1 ≤ b.1.
Definition ascending_starts (fs : list block) : Prop :=
  ∀ i j a b, (i < j)%nat → fs !! i = Some a → fs !! j = Some b → a.1 < b.1.
Definition non_overlapping (fs : list block) : Prop :=
  ∀ i j a b, i ≠ j → fs !! i = Some a → fs !! j = Some b → disjoint a b.
Definition coalesced (fs : list block) : Prop :=
  ∀ i j a b, i ≠ j → fs !! i = Some a → fs !! j = Some b → a.1 + a.2 ≠ b.1.

(** The representation invariant that gives all three: no block has a
    negative length and each block ends strictly before any later one
    starts. *)
Definition well_formed (fs : list block) : Prop :=
  Forall (λ b, 0 ≤ b.2) fs ∧ StronglySorted gap_lt fs.

(** Calls on the allocator alone. *)
Inductive alloc_call :=
  | Allocate (size : Z)
  | Release (start size : Z).

Definition alloc_run (c : alloc_call) (w : FileSystem) : FileSystem :=
  match c with
  | Allocate size => (_allocate_space size w).2
  | Release start size => (_release_space start size w).2
  end.

Definition alloc_run_all (cs : list alloc_call) (w : FileSystem) : FileSystem :=
  foldl (λ w c, alloc_run c w) w cs.

(** A call that respects the allocator's contract: a size allocated is
    not negative, and a range released (of one byte or more: a release of
    nothing is ignored) meets no block that is free. *)
Definition call_ok (c : alloc_call) (w : FileSystem) : Prop :=
  match c with
  | Allocate size => 0 ≤ size
  | Release start size =>
      size ≤ 0 ∨ Forall (disjoint (start, size)) (free_space w)
  end.

Fixpoint calls_ok (cs : list alloc_call) (w : FileSystem) : Prop :=
  match cs with
  | [] => True
  | c :: cs' => call_ok c w ∧ calls_ok cs' (alloc_run c w)
  end.

(** The block [_allocate_space] settles on: the first one, in list order,
    among the blocks of least length that hold [size] bytes. *)
Definition best_fit (size : Z) (fs : list block) (i : nat) (b : block) : Prop :=
  fs !! i = Some b ∧ size ≤ b.2 ∧
  ∀ k c, fs !! k = Some c → size ≤ c.2 → b.2 ≤ c.2 ∧ ((k < i)%nat → b.2 < c.2).

(** The state [_allocate_space] leaves when it takes [size] bytes from the
    front of block [i]. *)
Definition taken (size : Z) (i : nat) (b : block) (w : FileSystem) : FileSystem :=
  set_used_size (λ u, u + size)
    (set_free_space (λ fs,
       if bool_decide (b.2 = size) then base.delete i fs
       else <[i := (b.1 + size, b.2 - size)]> fs) w).

(** [preserves f m]: whatever [m] does, and whether it returns or raises,
    the observation [f] of the state is the same afterwards. *)
Definition preserves {A T} (f : FileSystem → T) (m : M A) : Prop :=
  ∀ w, f (m w).2 = f w.

(** The observation of C1: the capacity, and [used_size] plus the lengths
    of the free blocks. *)
Definition accounted (w : FileSystem) : Z * Z :=
  (max_size w, used_size w + total_free (free_space w)).

(** [o] is the [FileObject] with reference [h], and [m] is its record,
    the one that the files map holds under the name of [o]: the situation
    of every handle in [open_files]. *)
Definition bound (w : FileSystem) (h : nat) (o : FileObject) (m : file_meta) : Prop :=
  objects w !! h = Some o
  ∧ records w !! file_meta_ref o = Some m
  ∧ files w !! file_name o = Some (file_meta_ref o).

(** The logical size of the file called [name], when there is one. *)
Definition size_of (w : FileSystem) (name : string) : option Z :=
  (λ r, f_size (records w !!! r)) <$> files w !! name.

(** The fresh volume after a script of calls. *)
Definition after (capacity : Z) (script : list (Z * call)) : FileSystem :=
  run_all script (FileSystem_init 0 capacity).

(** [m] runs the same whatever [open_files] holds, and leaves the table
    as it found it. *)
Definition oblivious {A} (m : M A) : Prop :=
  ∀ g w, m (set_open_files g w) = ((m w).1, set_open_files g (m w).2).

(** A record whose [start_pos] and [size] are not negative. *)
Definition sound_record (m : file_meta) : Prop :=
  0 ≤ f_start_pos m ∧ 0 ≤ f_size m.

(** The invariant of the tables, on the fields it reads: every name in
    [open_files] leads to a [FileObject] of that name whose record is the
    one the files map holds for the name; every reference in the files map
    is in the store; every record in the store is sound; no free block
    starts below 0. *)
Definition tables_ok (opened : gmap string nat) (os : list FileObject)
    (fs : gmap string nat) (rs : list file_meta) (free : list block) : Prop :=
  (∀ name h, opened !! name = Some h →
     ∃ o, os !! h = Some o ∧ file_name o = name
          ∧ fs !! name = Some (file_meta_ref o))
  ∧ (∀ name r, fs !! name = Some r → (r < length rs)%nat)
  ∧ Forall sound_record rs
  ∧ Forall (λ b, 0 ≤ b.1) free.

Definition consistent (w : FileSystem) : Prop :=
  tables_ok (open_files w) (objects w) (files w) (records w) (free_space w).

(** The fields the invariant of the tables reads. *)
Definition core (w : FileSystem) :=
  (open_files w, objects w, files w, records w, free_space w).

(** [c] keeps the tables consistent, whether it returns or raises, and
    what it returns satisfies [Q]. *)
Definition yields {A} (c : M A) (Q : A → Prop) : Prop :=
  ∀ w, consistent w → consistent (c w).2 ∧ ∀ a, (c w).1 = Ok a → Q a.

(** The start of the segment of the file called [name]. *)
Definition start_pos_of (w : FileSystem) (name : string) : option Z :=
  (λ r, f_start_pos (records w !!! r)) <$> files w !! name.

(** ** Vocabulary of the properties of the operations *)

(** [c] keeps the invariant [I], whether it returns or raises, and what
    it returns satisfies [Q]. *)
Definition ensures {A} (I : FileSystem → Prop) (c : M A) (Q : A → Prop) : Prop :=
  ∀ w, I w → I (c w).2 ∧ ∀ a, (c w).1 = Ok a → Q a.

(** What the engine's use of the allocator comes to: every free block and
    every file starts at offset 0, [used_size] is not positive, and on a
    volume of one byte or more the free list holds a block and no empty
    one. *)
Definition at_origin (w : FileSystem) : Prop :=
  Forall (λ b, b.1 = 0) (free_space w)
  ∧ Forall (λ m, f_start_pos m = 0) (records w)
  ∧ used_size w ≤ 0
  ∧ (0 < max_size w → free_space w ≠ [] ∧ Forall (λ b, 0 < b.2) (free_space w)).

(** The state [get_current_directory_meta] leaves: the directory of
    [current_path] is entered when it is missing. *)
Definition with_current_directory (now : Z) (w : FileSystem) : FileSystem :=
  match directories w !! current_path w with
  | Some _ => w
  | None =>
      set_directories
        <[current_path w :=
            DirMeta (if bool_decide (current_path w = "/") then "/"
                     else split_last (current_path w)) now [] []]> w
  end.

(** [s] has no ['/'] in it. *)
Fixpoint no_slash (s : string) : bool :=
  match s with
  | EmptyString => true
  | String c rest => negb (bool_decide (c = "/"%char)) && no_slash rest
  end.

(** What a component of a path is: a name that is not empty and has no
    ['/'] in it. *)
Definition plain (s : string) : Prop := s ≠ "" ∧ no_slash s = true.

(** A path in the form [chdir] leaves it in when it is given plain names:
    ["/"], or ["/a/b"] with no empty component and no trailing slash. *)
Definition normal_path (p : string) : Prop :=
  ∃ parts, Forall plain parts ∧ p = "/" +:+ join parts.

(** The path the loop of [move] has built after [parts], from [curr]. *)
Definition path_after (curr : string) (parts : list string) : string :=
  foldl (λ c part, if bool_decide (c = "") then "/" +:+ part
                   else c +:+ "/" +:+ part) curr parts.

(** [ds'] has every directory of [ds], with the same list of files, and
    its other directories list no file. *)
Definition extends (ds ds' : gmap string dir_meta) : Prop :=
  ∀ q, match ds !! q with
       | Some d => ∃ d', ds' !! q = Some d' ∧ d_files d' = d_files d
       | None => ∀ d', ds' !! q = Some d' → d_files d' = []
       end.

(** Every field of the state but the directories map. *)
Definition but_directories (w : FileSystem) :=
  (max_size w, used_size w, files w, free_space w, current_path w,
   open_files w, records w, objects w, data_file w, seek_limit w,
   read_limit w).

(** The path [move] looks the target directory up under. *)
Definition target_path (w : FileSystem) (target_dir : string) : string :=
  rstrip_slash (if negb (startswith_slash target_dir)
                then child_path (current_path w) target_dir
                else target_dir).

(** The fields that no method of an open file writes: the capacity, the
    allocator, the files map, the directories and the table of open
    files. *)
Definition namespace_and_allocator (w : FileSystem) :=
  (max_size w, used_size w, files w, directories w, free_space w,
   current_path w, open_files w).

(** No directory is entered under the empty path, and [current_path] is
    not empty. *)
Definition rooted (w : FileSystem) : Prop :=
  directories w !! "" = None ∧ current_path w ≠ "".

(** [ds'] has every directory of [ds], under the same name and made at
    the same time, with at least the subdirectories it had. *)
Definition grows (ds ds' : gmap string dir_meta) : Prop :=
  ∀ q d, ds !! q = Some d →
    ∃ d', ds' !! q = Some d' ∧ d_name d' = d_name d
          ∧ d_creation_time d' = d_creation_time d
          ∧ d_subdirectories d ⊆ d_subdirectories d'.

(** * Properties *)

(** ** The merge loop *)

Section merge.

Implicit Types (fs rest l : list block) (cur a b : block).

Lemma total_free_app l1 l2 : total_free (l1 ++ l2) = total_free l1 + total_free l2.
Proof. induction l1 as [|x l1 IH]; simpl; lia. Qed.

Lemma total_free_perm l1 l2 : l1 ≡ₚ l2 → total_free l1 = total_free l2.
Proof. induction 1; simpl; lia. Qed.

(** Any sorted rearrangement of a list of tuples is the list that [sort]
    returns. *)
Lemma sort_unique fs l :
  l ≡ₚ fs → StronglySorted tuple_le l → l = sort fs.
Proof.
  intros Hperm Hsorted. apply (StronglySorted_unique tuple_le); [done| |].
  - apply StronglySorted_merge_sort; apply _.
  - unfold sort. by rewrite merge_sort_Permutation.
Qed.

Lemma merge_loop_S fuel i fs :
  merge_loop (S fuel) i fs =
    if bool_decide (i < length fs - 1)%nat then
      let '(curr_start, curr_size) := fs !!! i in
      let '(next_start, next_size) := fs !!! S i in
      if bool_decide (curr_start + curr_size = next_start) then
        merge_loop fuel i
          (base.delete (S i) (<[i := (curr_start, curr_size + next_size)]> fs))
      else merge_loop fuel (S i) fs
    else fs.
Proof. reflexivity. Qed.

Lemma merge_loop_done fuel i fs :
  (length fs - 1 ≤ i)%nat → merge_loop fuel i fs = fs.
Proof.
  intros Hi. destruct fuel as [|fuel]; [done|]. rewrite merge_loop_S.
  rewrite bool_decide_eq_false_2; [done|lia].
Qed.

Lemma merge_loop_step fuel l1 a b l2 :
  merge_loop (S fuel) (length l1) (l1 ++ a :: b :: l2) =
    if bool_decide (a.1 + a.2 = b.1)
    then merge_loop fuel (length l1) (l1 ++ (a.1, a.2 + b.2) :: l2)
    else merge_loop fuel (S (length l1)) (l1 ++ a :: b :: l2).
Proof.
  assert ((l1 ++ a :: b :: l2) !!! length l1 = a) as Ha
    by apply list_lookup_total_middle, eq_refl.
  assert ((l1 ++ a :: b :: l2) !!! S (length l1) = b) as Hb.
  { apply list_lookup_total_correct. rewrite lookup_app_r by lia.
    by replace (S (length l1) - length l1)%nat with 1%nat by lia. }
  assert (∀ x, base.delete (S (length l1)) (<[length l1 := x]> (l1 ++ a :: b :: l2))
               = l1 ++ x :: l2) as Hmerge.
  { intros x. rewrite insert_app_r_alt, Nat.sub_diag by lia. simpl.
    rewrite (cons_middle x), (assoc_L (++)).
    replace (S (length l1)) with (length (l1 ++ [x]))
      by (rewrite length_app; simpl; lia).
    by rewrite delete_middle, <- (assoc_L (++)). }
  rewrite merge_loop_S.
  rewrite (bool_decide_eq_true_2 (length l1 < length (l1 ++ a :: b :: l2) - 1)%nat)
    by (rewrite length_app; simpl; lia).
  rewrite Ha, Hb. destruct a, b. simpl. by rewrite Hmerge.
Qed.

(** The loop computes [coalesce_from] on the part of the list from index
    [i] on, as soon as the fuel exceeds the number of blocks after [i]. *)
Lemma merge_loop_coalesce_from rest : ∀ fuel l1 cur,
  (length rest < fuel)%nat →
  merge_loop fuel (length l1) (l1 ++ cur :: rest) = l1 ++ coalesce_from cur rest.
Proof.
  induction rest as [|nxt rest IH]; intros fuel l1 cur Hfuel.
  - apply merge_loop_done. rewrite length_app. simpl. lia.
  - destruct fuel as [|fuel]; [simpl in Hfuel; lia|].
    rewrite merge_loop_step. simpl in *.
    case_bool_decide.
    + apply IH. lia.
    + replace (l1 ++ cur :: nxt :: rest) with ((l1 ++ [cur]) ++ nxt :: rest)
        by (by rewrite <- app_assoc).
      replace (S (length l1)) with (length (l1 ++ [cur]))
        by (rewrite length_app; simpl; lia).
      rewrite IH by lia. by rewrite <- app_assoc.
Qed.

Lemma merge_loop_coalesce fuel fs :
  (length fs ≤ fuel)%nat → merge_loop fuel 0 fs = coalesce fs.
Proof.
  intros Hfuel. destruct fs as [|cur rest].
  - by apply merge_loop_done.
  - apply (merge_loop_coalesce_from rest fuel [] cur). simpl in Hfuel. lia.
Qed.

(** The loop of [_release_space] has finished within [length fs] rounds:
    more fuel changes nothing. *)
Lemma merge_loop_fuel fuel fs :
  (length fs ≤ fuel)%nat → merge_loop fuel 0 fs = merge_loop (length fs) 0 fs.
Proof. intros. by rewrite !merge_loop_coalesce. Qed.

Lemma total_free_coalesce_from rest : ∀ cur,
  total_free (coalesce_from cur rest) = cur.2 + total_free rest.
Proof.
  induction rest as [|nxt rest IH]; intros cur; simpl; [done|].
  case_bool_decide; simpl; rewrite IH; simpl; lia.
Qed.

Lemma total_free_coalesce fs : total_free (coalesce fs) = total_free fs.
Proof. destruct fs; [done|]. apply total_free_coalesce_from. Qed.

End merge.

(** ** The best-fit scan *)

Section scan.

Implicit Types (fs : list block) (best : option (nat * Z)).

(** What the scan returns, for any starting index and any best so far:
    either the best so far stands, or a block of the list beats it. *)
Lemma best_fit_scan_inv size fs : ∀ i best,
  match best_fit_scan size fs i best with
  | None => best = None ∧ Forall (λ b, b.2 < size) fs
  | Some (j, sz) =>
      (best = Some (j, sz) ∧ Forall (λ b, size ≤ b.2 → sz ≤ b.2) fs)
      ∨ (∃ st, (i ≤ j)%nat ∧ fs !! (j - i)%nat = Some (st, sz) ∧ size ≤ sz ∧
           (∀ bi bs, best = Some (bi, bs) → sz < bs) ∧
           ∀ k c, fs !! k = Some c → size ≤ c.2 →
                  sz ≤ c.2 ∧ ((k < j - i)%nat → sz < c.2))
  end.
Proof.
  induction fs as [|[st0 f0] fs IH]; intros i best.
  - simpl. destruct best as [[j sz]|]; [left|]; by split.
  - simpl.
    match goal with
    | |- context [best_fit_scan size fs (S i) ?b] => set (best' := b)
    end.
    specialize (IH (S i) best').
    destruct (best_fit_scan size fs (S i) best') as [[j sz]|].
    + destruct IH as [[Hb Hall]|(st & Hij & Hlk & Hsz & Hbest & Hmin)].
      * (* the answer is [best'] *)
        subst best'.
        destruct (bool_decide (size ≤ f0)) eqn:Hfit; simpl in Hb.
        -- destruct best as [[bi bs]|].
           ++ destruct (bool_decide (f0 < bs)) eqn:Hlt.
              ** simplify_eq. right. exists st0.
                 apply bool_decide_eq_true in Hfit, Hlt.
                 rewrite Nat.sub_diag. split_and!; [lia|done|done| |].
                 { intros ?? [= -> ->]. done. }
                 intros [|k] c Hk Hc; simpl in Hk.
                 { simplify_eq. simpl. split; lia. }
                 rewrite Forall_forall in Hall.
                 split; [|lia]. apply Hall; [|done].
                 by eapply list_elem_of_lookup_2.
              ** simplify_eq. left. split; [done|].
                 apply bool_decide_eq_true in Hfit.
                 apply bool_decide_eq_false in Hlt.
                 constructor; [simpl; lia|done].
           ++ simplify_eq. right. exists st0.
              apply bool_decide_eq_true in Hfit.
              rewrite Nat.sub_diag. split_and!; [lia|done|done|done|].
              intros [|k] c Hk Hc; simpl in Hk.
              { simplify_eq. simpl. split; lia. }
              rewrite Forall_forall in Hall.
              split; [|lia]. apply Hall; [|done].
              by eapply list_elem_of_lookup_2.
        -- subst best. left. split; [done|].
           apply bool_decide_eq_false in Hfit.
           constructor; [simpl; lia|done].
      * (* the answer is a later block *)
        right. exists st.
        assert (j - i = S (j - S i))%nat as -> by lia.
        simpl. split_and!; [lia|done|done| |].
        -- intros bi bs ->. subst best'.
           destruct (bool_decide (size ≤ f0)) eqn:Hfit; simpl in Hbest.
           ++ destruct (bool_decide (f0 < bs)) eqn:Hlt.
              ** apply bool_decide_eq_true in Hlt.
                 specialize (Hbest _ _ eq_refl). lia.
              ** by eapply Hbest.
           ++ by eapply Hbest.
        -- intros [|k] c Hk Hc; simpl in Hk.
           ++ simplify_eq. simpl in *. subst best'.
              rewrite (bool_decide_eq_true_2 _ Hc) in Hbest. simpl in Hbest.
              destruct best as [[bi bs]|].
              ** destruct (bool_decide (f0 < bs)) eqn:Hlt.
                 --- specialize (Hbest _ _ eq_refl). lia.
                 --- apply bool_decide_eq_false in Hlt.
                     specialize (Hbest _ _ eq_refl). lia.
              ** specialize (Hbest _ _ eq_refl). lia.
           ++ destruct (Hmin k c Hk Hc) as [? ?]. split; [done|]. intros. lia.
    + destruct IH as [Hb Hall]. subst best'.
      destruct (bool_decide (size ≤ f0)) eqn:Hfit; simpl in Hb.
      * destruct best as [[bi bs]|]; [destruct (bool_decide (f0 < bs))|]; done.
      * apply bool_decide_eq_false in Hfit. split; [done|].
        constructor; [simpl; lia|done].
Qed.

Lemma best_fit_scan_None size fs :
  best_fit_scan size fs 0 None = None ↔ Forall (λ b, b.2 < size) fs.
Proof.
  pose proof (best_fit_scan_inv size fs 0%nat None) as H.
  destruct (best_fit_scan size fs 0 None) as [[j sz]|].
  - split; [done|]. intros Hall.
    destruct H as [[? _]|(st & _ & Hlk & Hsz & _)]; [done|].
    rewrite Forall_forall in Hall.
    apply list_elem_of_lookup_2, Hall in Hlk. simpl in Hlk. lia.
  - by destruct H.
Qed.

Lemma best_fit_scan_Some size fs j sz :
  best_fit_scan size fs 0 None = Some (j, sz) →
  ∃ st, best_fit size fs j (st, sz).
Proof.
  intros Hscan. pose proof (best_fit_scan_inv size fs 0%nat None) as H.
  rewrite Hscan in H. destruct H as [[? _]|(st & _ & Hlk & Hsz & _ & Hmin)]; [done|].
  rewrite Nat.sub_0_r in *. exists st. split_and!; [done|done|].
  intros k c Hk Hc. simpl. destruct (Hmin k c Hk Hc) as [? Hlt].
  split; [done|]. intros. apply Hlt. lia.
Qed.

(** The best fit is unique: it is a function of the list and the size. *)
Lemma best_fit_unique size fs i b j c :
  best_fit size fs i b → best_fit size fs j c → i = j ∧ b = c.
Proof.
  intros (Hi & Hbs & Hb) (Hj & Hcs & Hc).
  destruct (Hb j c Hj Hcs) as [? ?], (Hc i b Hi Hbs) as [? ?].
  assert (i = j) as -> by lia. split; [done|congruence].
Qed.

End scan.

(** ** [_allocate_space] *)

Section allocate.

Implicit Types (w : FileSystem) (fs : list block).

Lemma allocate_fails size w :
  Forall (λ b, b.2 < size) (free_space w) →
  _allocate_space size w = (Raise OutOfSpace, w).
Proof.
  intros Hall. apply best_fit_scan_None in Hall.
  unfold _allocate_space, mbind, M_bind, gets. simpl.
  destruct (free_space w); [done|]. by rewrite Hall.
Qed.

Lemma allocate_takes size w i b :
  best_fit size (free_space w) i b →
  _allocate_space size w = (Ok b.1, taken size i b w).
Proof.
  intros Hbest.
  destruct (best_fit_scan size (free_space w) 0 None) as [[j sz]|] eqn:Hscan.
  - destruct (best_fit_scan_Some _ _ _ _ Hscan) as [st Hj].
    destruct (best_fit_unique _ _ _ _ _ _ Hbest Hj) as [-> ->].
    unfold _allocate_space, mbind, M_bind, gets. simpl.
    destruct Hj as (Hj & _ & _).
    destruct (free_space w) as [|b0 fs] eqn:Hfs; [done|].
    rewrite Hscan. rewrite (list_lookup_total_correct _ _ _ Hj).
    reflexivity.
  - apply best_fit_scan_None in Hscan. destruct Hbest as (Hi & Hsz & _).
    rewrite Forall_forall in Hscan.
    apply list_elem_of_lookup_2, Hscan in Hi. lia.
Qed.

Lemma allocate_cases size fs :
  Forall (λ b, b.2 < size) fs ∨ ∃ i b, best_fit size fs i b.
Proof.
  destruct (best_fit_scan size fs 0 None) as [[j sz]|] eqn:Hscan.
  - right. destruct (best_fit_scan_Some _ _ _ _ Hscan) as [st Hj]. eauto.
  - left. by apply best_fit_scan_None.
Qed.

End allocate.

(** ** The free-list invariant *)

Section invariant.

Implicit Types (w : FileSystem) (fs l : list block) (a b x : block).

(** In a well-formed list a block that comes first ends strictly before
    the later one starts. *)
Lemma well_formed_lookup_lt fs i j a b :
  well_formed fs → (i < j)%nat → fs !! i = Some a → fs !! j = Some b →
  gap_lt a b.
Proof.
  intros [_ Hgap] Hij Ha Hb.
  rewrite <- (take_drop_middle fs i a Ha) in Hgap, Hb.
  apply StronglySorted_app_1_r, StronglySorted_cons in Hgap as [Hgap _].
  rewrite lookup_app_r in Hb by (rewrite length_take; lia).
  rewrite length_take_le in Hb by (apply lookup_lt_Some in Ha; lia).
  destruct (j - i)%nat as [|n] eqn:Hn; [lia|]. simpl in Hb.
  rewrite Forall_forall in Hgap.
  by apply list_elem_of_lookup_2, Hgap in Hb.
Qed.

Lemma well_formed_ascending fs : well_formed fs → ascending_starts fs.
Proof.
  intros Hwf i j a b Hij Ha Hb.
  pose proof (well_formed_lookup_lt _ _ _ _ _ Hwf Hij Ha Hb) as Hgap.
  destruct Hwf as [Hlen _]. rewrite Forall_forall in Hlen.
  pose proof (Hlen a (list_elem_of_lookup_2 _ _ _ Ha)) as Hla.
  unfold gap_lt in Hgap. simpl in Hla. lia.
Qed.

Lemma ascending_sorted fs : ascending_starts fs → sorted_by_start fs.
Proof. intros H i j a b Hij Ha Hb. specialize (H i j a b Hij Ha Hb). lia. Qed.

Lemma well_formed_non_overlapping fs : well_formed fs → non_overlapping fs.
Proof.
  intros Hwf i j a b Hij Ha Hb. unfold disjoint.
  destruct (decide (i < j)%nat).
  - pose proof (well_formed_lookup_lt _ _ _ _ _ Hwf ltac:(done) Ha Hb) as H.
    unfold gap_lt in H. lia.
  - pose proof (well_formed_lookup_lt _ j i _ _ Hwf ltac:(lia) Hb Ha) as H.
    unfold gap_lt in H. lia.
Qed.

Lemma well_formed_coalesced fs : well_formed fs → coalesced fs.
Proof.
  intros Hwf i j a b Hij Ha Hb.
  destruct Hwf as [Hlen Hgap]. rewrite Forall_forall in Hlen.
  pose proof (Hlen a (list_elem_of_lookup_2 _ _ _ Ha)) as Hla.
  pose proof (Hlen b (list_elem_of_lookup_2 _ _ _ Hb)) as Hlb.
  simpl in *.
  destruct (decide (i < j)%nat).
  - pose proof (well_formed_lookup_lt _ _ _ _ _ (conj (proj2 (Forall_forall _ _) Hlen) Hgap)
                  ltac:(done) Ha Hb) as H.
    unfold gap_lt in H. lia.
  - pose proof (well_formed_lookup_lt _ j i _ _ (conj (proj2 (Forall_forall _ _) Hlen) Hgap)
                  ltac:(lia) Hb Ha) as H.
    unfold gap_lt in H. lia.
Qed.

Lemma well_formed_NoDup fs : well_formed fs → NoDup fs.
Proof.
  intros Hwf. apply NoDup_alt. intros i j a Hi Hj.
  destruct (decide (i = j)) as [|Hne]; [done|]. exfalso.
  assert (0 ≤ a.2) as Hlen.
  { destruct Hwf as [Hlen _]. rewrite Forall_forall in Hlen.
    apply Hlen. by eapply list_elem_of_lookup_2. }
  assert (gap_lt a a) as Hgap.
  { destruct (decide (i < j)%nat).
    - by apply (well_formed_lookup_lt fs i j).
    - apply (well_formed_lookup_lt fs j i); [done|lia|done|done]. }
  unfold gap_lt in Hgap. lia.
Qed.

End invariant.

Section preservation.

Implicit Types (w : FileSystem) (fs l rest : list block) (a b x cur : block).

Lemma well_formed_shrink l1 b l2 k :
  well_formed (l1 ++ b :: l2) → 0 ≤ k ≤ b.2 →
  well_formed (l1 ++ (b.1 + k, b.2 - k) :: l2).
Proof.
  intros [Hlen Hgap] Hk. split.
  - rewrite Forall_app, Forall_cons in *. simpl. intuition lia.
  - rewrite StronglySorted_app, StronglySorted_cons in *.
    destruct Hgap as (Hcross & Hl1 & Hb & Hl2). split_and!; try done.
    + intros x1 x2 Hx1 Hx2. apply elem_of_cons in Hx2 as [->|Hx2].
      * specialize (Hcross x1 b Hx1 ltac:(left)). unfold gap_lt in *. simpl. lia.
      * apply Hcross; [done|by right].
    + eapply Forall_impl; [exact Hb|]. intros c. unfold gap_lt. simpl. lia.
Qed.

Lemma well_formed_remove l1 b l2 :
  well_formed (l1 ++ b :: l2) → well_formed (l1 ++ l2).
Proof.
  intros [Hlen Hgap]. split.
  - rewrite Forall_app, Forall_cons in *. tauto.
  - rewrite StronglySorted_app, StronglySorted_cons in *.
    destruct Hgap as (Hcross & Hl1 & Hb & Hl2). split_and!; try done.
    intros x1 x2 Hx1 Hx2. apply Hcross; [done|by right].
Qed.

Lemma taken_well_formed size w i b :
  0 ≤ size → best_fit size (free_space w) i b →
  well_formed (free_space w) → well_formed (free_space (taken size i b w)).
Proof.
  intros Hsize (Hi & Hfit & _) Hwf. simpl.
  rewrite <- (take_drop_middle _ _ _ Hi) in Hwf.
  case_bool_decide.
  - rewrite delete_take_drop. by eapply well_formed_remove.
  - rewrite insert_take_drop by (by eapply lookup_lt_Some).
    apply well_formed_shrink; [done|lia].
Qed.

Lemma allocate_well_formed size w :
  0 ≤ size → well_formed (free_space w) →
  well_formed (free_space (_allocate_space size w).2).
Proof.
  intros Hsize Hwf.
  destruct (allocate_cases size (free_space w)) as [Hnone|(i & b & Hbest)].
  - by rewrite allocate_fails.
  - rewrite (allocate_takes _ _ _ _ Hbest). by apply taken_well_formed.
Qed.

Lemma coalesce_from_starts rest : ∀ cur x,
  x ∈ coalesce_from cur rest → ∃ y, y ∈ cur :: rest ∧ x.1 = y.1.
Proof.
  induction rest as [|nxt rest IH]; intros cur x Hx; simpl in Hx.
  - apply list_elem_of_singleton in Hx as ->. exists cur. split; [left|done].
  - case_bool_decide.
    + destruct (IH _ _ Hx) as (y & Hy & Heq).
      apply elem_of_cons in Hy as [->|Hy].
      * exists cur. split; [left|done].
      * exists y. split; [by do 2 right|done].
    + apply elem_of_cons in Hx as [->|Hx].
      * exists cur. split; [left|done].
      * destruct (IH _ _ Hx) as (y & Hy & Heq). exists y. split; [by right|done].
Qed.

(** Coalescing a list whose blocks are in order and at most touch leaves
    a list whose blocks are strictly apart. *)
Lemma coalesce_from_well_formed rest : ∀ cur,
  Forall (λ b, 0 ≤ b.2) (cur :: rest) → StronglySorted gap_le (cur :: rest) →
  well_formed (coalesce_from cur rest).
Proof.
  induction rest as [|nxt rest IH]; intros cur Hlen Hgap; simpl.
  - split; [done|]. repeat constructor.
  - apply Forall_cons in Hlen as [Hcur Hlen].
    pose proof Hlen as Hlen'. apply Forall_cons in Hlen' as [Hnxt Hrest].
    apply StronglySorted_cons in Hgap as [Hcur_le Hgap].
    pose proof Hgap as Hgap'. apply StronglySorted_cons in Hgap' as [Hnxt_le Hgap'].
    pose proof Hcur_le as Hcur_le'. apply Forall_cons in Hcur_le' as [Hcn Hcr].
    unfold gap_le in Hcn.
    case_bool_decide as Htouch.
    + apply IH.
      * constructor; [simpl; lia|done].
      * apply StronglySorted_cons. split; [|done].
        eapply Forall_impl; [exact Hnxt_le|]. intros c. unfold gap_le. simpl. lia.
    + destruct (IH nxt Hlen Hgap) as [Hl Hg]. split.
      * by constructor.
      * apply StronglySorted_cons. split; [|done].
        apply Forall_forall. intros x Hx.
        destruct (coalesce_from_starts _ _ _ Hx) as (y & Hy & Heq).
        unfold gap_lt. rewrite Heq.
        apply elem_of_cons in Hy as [->|Hy]; [lia|].
        rewrite Forall_forall in Hnxt_le. specialize (Hnxt_le y Hy).
        unfold gap_le in Hnxt_le. lia.
Qed.

Lemma coalesce_well_formed fs :
  Forall (λ b, 0 ≤ b.2) fs → StronglySorted gap_le fs → well_formed (coalesce fs).
Proof.
  destruct fs as [|cur rest]; [by split; constructor|].
  apply coalesce_from_well_formed.
Qed.

Lemma StronglySorted_change {A} (R Q : relation A) (l : list A) :
  StronglySorted R l → NoDup l →
  (∀ u v : A, u ∈ l → v ∈ l → u ≠ v → R u v → Q u v) →
  StronglySorted Q l.
Proof.
  induction 1 as [|u l Hl IH Ha]; intros Hnd HRQ; [constructor|].
  apply NoDup_cons in Hnd as [Hnotin Hnd]. constructor.
  - apply IH; [done|]. intros. apply HRQ; try done; by right.
  - apply Forall_forall. intros v Hb. apply HRQ; [left|by right| |].
    + intros ->. done.
    + rewrite Forall_forall in Ha. by apply Ha.
Qed.

(** The free list that [_release_space] leaves. *)
Lemma release_free_space start size w :
  free_space (_release_space start size w).2 =
    if bool_decide (size ≤ 0) then free_space w
    else coalesce (sort (free_space w ++ [(start, size)])).
Proof.
  unfold _release_space. case_bool_decide; [done|].
  simpl. by rewrite merge_loop_coalesce.
Qed.

Lemma release_well_formed start size w :
  well_formed (free_space w) →
  Forall (disjoint (start, size)) (free_space w) →
  well_formed (free_space (_release_space start size w).2).
Proof.
  intros Hwf Hdis. rewrite release_free_space.
  case_bool_decide as Hsize; [done|].
  set (x := (start, size)) in *. set (fs := free_space w) in *.
  assert (sort (fs ++ [x]) ≡ₚ fs ++ [x]) as Hperm by apply merge_sort_Permutation.
  assert (Forall (λ b, 0 ≤ b.2) (fs ++ [x])) as Hlen.
  { apply Forall_app. split; [apply Hwf|]. constructor; [simpl; lia|done]. }
  assert (NoDup (fs ++ [x])) as Hnd.
  { apply NoDup_app. split_and!.
    - by apply well_formed_NoDup.
    - intros y Hy Hyx. apply list_elem_of_singleton in Hyx as ->.
      rewrite Forall_forall in Hdis. specialize (Hdis _ Hy).
      unfold disjoint in Hdis. simpl in Hdis. lia.
    - apply NoDup_singleton. }
  assert (∀ a b, a ∈ fs ++ [x] → b ∈ fs ++ [x] → a ≠ b → disjoint a b) as Hpair.
  { intros a b Ha Hb Hne. rewrite Forall_forall in Hdis.
    apply elem_of_app in Ha as [Ha|Ha], Hb as [Hb|Hb].
    - apply list_elem_of_lookup in Ha as [i Hi], Hb as [j Hj].
      apply (well_formed_non_overlapping fs Hwf i j); [|done|done].
      intros ->. congruence.
    - apply list_elem_of_singleton in Hb as ->.
      specialize (Hdis _ Ha). unfold disjoint in *. lia.
    - apply list_elem_of_singleton in Ha as ->. by apply Hdis.
    - apply list_elem_of_singleton in Ha as ->.
      apply list_elem_of_singleton in Hb as ->. done. }
  apply coalesce_well_formed.
  - by rewrite Hperm.
  - apply (StronglySorted_change tuple_le).
    + apply StronglySorted_merge_sort; apply _.
    + by rewrite Hperm.
    + intros a b Ha Hb Hne Hle. rewrite Hperm in Ha, Hb.
      specialize (Hpair a b Ha Hb Hne).
      rewrite Forall_forall in Hlen.
      pose proof (Hlen a Ha). pose proof (Hlen b Hb). simpl in *.
      unfold tuple_le, disjoint, gap_le in *.
      destruct a as [a1 a2], b as [b1 b2]. simpl in *.
      destruct (decide (a1 + a2 ≤ b1)); [done|]. exfalso.
      apply Hne. f_equal; lia.
Qed.

End preservation.

Section free_list.

Implicit Types (w : FileSystem) (cs : list alloc_call).

Lemma alloc_run_well_formed c w :
  call_ok c w → well_formed (free_space w) →
  well_formed (free_space (alloc_run c w)).
Proof.
  destruct c as [size|start size]; simpl; intros Hok Hwf.
  - by apply allocate_well_formed.
  - destruct Hok as [Hnone|Hdis].
    + rewrite release_free_space. by rewrite bool_decide_eq_true_2.
    + by apply release_well_formed.
Qed.

Lemma alloc_run_all_well_formed cs : ∀ w,
  calls_ok cs w → well_formed (free_space w) →
  well_formed (free_space (alloc_run_all cs w)).
Proof.
  induction cs as [|c cs IH]; intros w Hok Hwf; [done|].
  destruct Hok as [Hc Hcs]. simpl. apply IH; [done|].
  by apply alloc_run_well_formed.
Qed.

Lemma init_well_formed now capacity :
  0 ≤ capacity → well_formed (free_space (FileSystem_init now capacity)).
Proof. intros. split; simpl; repeat constructor. done. Qed.

(** C3, as amended.  Starting from the single block [(0, capacity)], after
    every sequence of [_allocate_space] and [_release_space] calls in which
    no size allocated is negative and no range released meets a block that
    is free at that moment, the free list is in (strictly) ascending order
    of start, its blocks are pairwise non-overlapping, and no block ends
    where another starts. *)
Theorem C3_free_list_sorted_disjoint_coalesced now capacity cs :
  0 ≤ capacity →
  calls_ok cs (FileSystem_init now capacity) →
  let fs := free_space (alloc_run_all cs (FileSystem_init now capacity)) in
  ascending_starts fs ∧ non_overlapping fs ∧ coalesced fs.
Proof.
  intros Hcap Hok fs.
  assert (well_formed fs) as Hwf.
  { apply alloc_run_all_well_formed; [done|]. by apply init_well_formed. }
  split_and!.
  - by apply well_formed_ascending.
  - by apply well_formed_non_overlapping.
  - by apply well_formed_coalesced.
Qed.

Lemma C3_free_list_sorted_disjoint_coalesced_witness :
  let cs := [Allocate 100; Allocate 50; Release 0 100; Allocate 24;
             Release 100 50; Release 0 24] in
  let fs := free_space (alloc_run_all cs (FileSystem_init 0 1024)) in
  ascending_starts fs ∧ non_overlapping fs ∧ coalesced fs.
Proof.
  apply (C3_free_list_sorted_disjoint_coalesced 0 1024); [lia|].
  vm_compute. repeat split; repeat constructor; vm_compute; intuition congruence.
Defined.

(** C3 as it is written fails: releasing a range that was never allocated
    leaves two free blocks that share bytes.  [delete] does so for every
    file that was written to, because a file is created with an allocation
    of 0 bytes and grows without one. *)
Lemma C3_release_of_free_range_overlaps :
  free_space (alloc_run_all [Release 0 4] (FileSystem_init 0 1024))
    = [(0, 4); (0, 1024)]
  ∧ ¬ non_overlapping
        (free_space (alloc_run_all [Release 0 4] (FileSystem_init 0 1024))).
Proof.
  split; [reflexivity|].
  intros H. specialize (H 0%nat 1%nat (0, 4) (0, 1024)).
  unfold disjoint in H. simpl in H.
  destruct H as [H|H]; [lia|reflexivity|reflexivity|lia|lia].
Qed.

End free_list.

Section first_best_fit.

Implicit Types (w : FileSystem).

Lemma best_fit_lowest_start size fs i b :
  best_fit size fs i b → sorted_by_start fs →
  ∀ c, c ∈ fs → c.2 = b.2 → b.1 ≤ c.1.
Proof.
  intros (Hi & Hfit & Hmin) Hsorted c Hc Heq.
  apply list_elem_of_lookup in Hc as [k Hk].
  destruct (Hmin k c Hk ltac:(lia)) as [_ Hlt].
  destruct (decide (k = i)) as [->|Hne]; [by simplify_eq|].
  apply (Hsorted i k); [|done|done].
  destruct (decide (k < i)%nat); [|lia]. specialize (Hlt ltac:(done)). lia.
Qed.

(** C2, as amended.  [_allocate_space size] fails with OutOfSpace,
    changing nothing, when no free block holds [size] bytes.  Otherwise it
    returns the start of the block [b] of least length among those that
    do, and among blocks of that length the first in list order, which on
    a free list in ascending order of start is the one of lowest start; it
    takes [size] bytes from the front of [b], deleting [b] when nothing is
    left, and adds [size] to [used_size].  Hence, when a range
    [(start, size)] has been released and the released block is the best
    fit for [size], allocating [size] bytes returns [start] again and
    takes the block off the list: after 100 and 50 bytes were allocated on
    a volume of 1024 and the first 100 released, a request for 100 bytes
    returns offset 0 again, not offset 150 as it does without the release.
    On the engine [create] takes no size and allocates 0 bytes: in the
    scenario of the two files, both the deleted file and the one created
    after it start at offset 0. *)
Theorem C2_allocate_best_fit w size :
  (Forall (λ b, b.2 < size) (free_space w) →
     _allocate_space size w = (Raise OutOfSpace, w))
  ∧ (¬ Forall (λ b, b.2 < size) (free_space w) →
     ∃ i b,
       free_space w !! i = Some b ∧ size ≤ b.2
       ∧ (∀ c, c ∈ free_space w → size ≤ c.2 → b.2 ≤ c.2)
       ∧ (∀ k c, free_space w !! k = Some c → c.2 = b.2 → (i ≤ k)%nat)
       ∧ (sorted_by_start (free_space w) →
            ∀ c, c ∈ free_space w → c.2 = b.2 → b.1 ≤ c.1)
       ∧ _allocate_space size w
           = (Ok b.1,
              set_used_size (λ u, u + size)
                (set_free_space (λ fs,
                   if bool_decide (b.2 = size) then base.delete i fs
                   else <[i := (b.1 + size, b.2 - size)]> fs) w)))
  ∧ (∀ start i,
       let w1 := (_release_space start size w).2 in
       best_fit size (free_space w1) i (start, size) →
       _allocate_space size w1
         = (Ok start,
            set_used_size (λ u, u + size) (set_free_space (base.delete i) w1)))
  ∧ (let w0 := FileSystem_init 0 1024 in
     let w2 := alloc_run_all [Allocate 100; Allocate 50] w0 in
     let w3 := alloc_run (Release 0 100) w2 in
     (_allocate_space 100 w0).1 = Ok 0
     ∧ (_allocate_space 50 (alloc_run (Allocate 100) w0)).1 = Ok 100
     ∧ free_space w2 = [(150, 874)]
     ∧ (_allocate_space 100 w2).1 = Ok 150
     ∧ free_space w3 = [(0, 100); (150, 874)]
     ∧ (_allocate_space 100 w3).1 = Ok 0
     ∧ free_space (_allocate_space 100 w3).2 = [(150, 874)])
  ∧ start_pos_of (after 1024 [(1, Create "a.txt"); (2, Create "b.txt")]) "a.txt"
      = Some 0
  ∧ start_pos_of (after 1024 [(1, Create "a.txt"); (2, Create "b.txt");
                              (3, Delete "a.txt"); (4, Create "c.txt")]) "c.txt"
      = Some 0.
Proof.
  split_and!; [| | |by vm_compute|reflexivity|reflexivity].
  - apply allocate_fails.
  - intros Hsome.
    destruct (allocate_cases size (free_space w)) as [?|(i & b & Hbest)]; [done|].
    exists i, b. pose proof Hbest as (Hi & Hfit & Hmin). split_and!; try done.
    + intros c Hc Hsz. apply list_elem_of_lookup in Hc as [k Hk].
      by apply (Hmin k c).
    + intros k c Hk Heq. destruct (Hmin k c Hk ltac:(lia)) as [_ Hlt].
      destruct (decide (k < i)%nat); [|lia]. specialize (Hlt ltac:(done)). lia.
    + by eapply best_fit_lowest_start.
    + by apply allocate_takes.
  - intros start i w1 Hbest.
    rewrite (allocate_takes _ _ _ _ Hbest). unfold taken. simpl.
    by rewrite bool_decide_eq_true_2.
Qed.

(** Two blocks of length 4 and one of length 9, in ascending order of
    start: a request for 10 bytes fails, a request for 4 bytes is served
    from the block at 20, the first of its length, and a released range of
    6 bytes is handed out again. *)
Lemma C2_allocate_best_fit_witness :
  let w := set_free_space (λ _, [(0, 9); (20, 4); (40, 4)]) (FileSystem_init 0 64) in
  _allocate_space 10 w = (Raise OutOfSpace, w)
  ∧ (_allocate_space 4 w).1 = Ok 20
  ∧ free_space (_allocate_space 4 w).2 = [(0, 9); (40, 4)]
  ∧ (_allocate_space 6 (_release_space 30 6 w).2).1 = Ok 30.
Proof.
  intros w.
  assert (∃ i b, (i = 1%nat ∧ b = (20, 4))
                 ∧ _allocate_space 4 w
                   = (Ok b.1,
                      set_used_size (λ u, u + 4)
                        (set_free_space (λ fs,
                           if bool_decide (b.2 = 4) then base.delete i fs
                           else <[i := (b.1 + 4, b.2 - 4)]> fs) w)))
    as (i & b & [-> ->] & Hrun).
  { destruct (C2_allocate_best_fit w 4) as (_ & Hsome & _ & _).
    destruct Hsome as (i & b & Hi & Hfit & Hmin & Hfirst & _ & Hrun).
    { intros Hall. apply Forall_cons in Hall as [H _]. simpl in H. lia. }
    exists i, b. split; [|exact Hrun].
    assert ((20, 4) ∈ free_space w) as Hin by (right; left).
    specialize (Hmin (20, 4) Hin ltac:(simpl; lia)).
    destruct i as [|[|[|i]]]; simpl in Hi; [..|done];
      injection Hi as <-; simpl in *; [lia|done|].
    specialize (Hfirst 1%nat (20, 4) eq_refl eq_refl). lia. }
  split_and!.
  - apply (C2_allocate_best_fit w 10). repeat constructor.
  - by rewrite Hrun.
  - by rewrite Hrun.
  - destruct (C2_allocate_best_fit w 6) as (_ & _ & Hreuse & _).
    rewrite (Hreuse 30 2%nat); [done|].
    split_and!; [reflexivity|simpl; lia|].
    intros [|[|[|[|k]]]] c Hk Hc; simpl in Hk; simplify_eq; simpl in *; lia.
Defined.

(** C2 as it is written fails: among the blocks of least length the scan
    keeps the first in the list, and the list need not be in order of
    start.  With the free list [(40, 4); (20, 4); (0, 9)] a request for 4
    bytes is served at 40, not at 20.  Such a list arises by calls on the
    allocator alone: on a volume of 10 bytes, releasing [(5, 4)] and
    allocating 6 bytes leaves [(6, 4); (5, 4)], and a request for 4 bytes
    is then served at 6, not at 5. *)
Lemma C2_tie_goes_to_the_first_block_in_the_list :
  (let w := set_free_space (λ _, [(40, 4); (20, 4); (0, 9)])
              (FileSystem_init 0 64) in
   (_allocate_space 4 w).1 = Ok 40
   ∧ free_space w !! 1%nat = Some (20, 4)
   ∧ 20 < 40)
  ∧ (let w := alloc_run_all [Release 5 4; Allocate 6] (FileSystem_init 0 10) in
     free_space w = [(6, 4); (5, 4)]
     ∧ (_allocate_space 4 w).1 = Ok 6
     ∧ free_space w !! 1%nat = Some (5, 4)
     ∧ 5 < 6).
Proof. by vm_compute. Qed.

End first_best_fit.

(** ** Frame reasoning: what a method leaves alone *)

Section frame.

Context {T : Type} (f : FileSystem → T).

Lemma preserves_ret {A} (a : A) : preserves f (mret a).
Proof. done. Qed.

Lemma preserves_raise {A} e : preserves f (raise e : M A).
Proof. done. Qed.

Lemma preserves_gets {A} (g : FileSystem → A) : preserves f (gets g).
Proof. done. Qed.

Lemma preserves_modify g : (∀ w, f (g w) = f w) → preserves f (modify g).
Proof. intros H w. apply H. Qed.

Lemma preserves_bind {A B} (m : M A) (k : A → M B) :
  preserves f m → (∀ a, preserves f (k a)) → preserves f (m ≫= k).
Proof.
  intros Hm Hk w. unfold mbind, M_bind.
  specialize (Hm w). destruct (m w) as [[a|e] w']; simpl in *.
  - by rewrite Hk.
  - done.
Qed.

Lemma preserves_void {A} (m : M A) : preserves f m → preserves f (void m).
Proof. intros. apply preserves_bind; [done|]. intros. apply preserves_ret. Qed.

End frame.

Section frame_helpers.

Context {T : Type} (f : FileSystem → T).
Hypothesis f_records : ∀ g w, f (set_records g w) = f w.
Hypothesis f_objects : ∀ g w, f (set_objects g w) = f w.
Hypothesis f_data_file : ∀ g w, f (set_data_file g w) = f w.

Lemma preserves_save : preserves f _save_metadata.
Proof. apply preserves_ret. Qed.

Lemma preserves_seek pos : preserves f (seek pos).
Proof.
  unfold seek. apply preserves_bind; [apply preserves_gets|]. intros top.
  destruct (_ || _); [apply preserves_raise|].
  case_bool_decide; [apply preserves_raise|apply preserves_ret].
Qed.

Lemma preserves_read pos size : preserves f (read pos size).
Proof.
  unfold read. apply preserves_bind; [apply preserves_gets|]. intros top.
  destruct (_ || _); [apply preserves_raise|].
  apply preserves_bind; [apply preserves_gets|]. intros data.
  apply preserves_ret.
Qed.

Lemma preserves_get_record r : preserves f (get_record r).
Proof. apply preserves_gets. Qed.

Lemma preserves_files_item name : preserves f (files_item name).
Proof.
  unfold files_item. apply preserves_bind; [apply preserves_gets|].
  intros fs. destruct (fs !! name); [apply preserves_ret|apply preserves_raise].
Qed.

Lemma preserves_get_object h : preserves f (get_object h).
Proof.
  unfold get_object. apply preserves_bind; [apply preserves_gets|].
  intros os. destruct (os !! h); [apply preserves_ret|apply preserves_raise].
Qed.

Lemma preserves_new_record m : preserves f (new_record m).
Proof.
  unfold new_record. apply preserves_bind; [apply preserves_gets|]. intros r.
  apply preserves_bind; [|intros; apply preserves_ret].
  apply preserves_modify. intros. apply f_records.
Qed.

Lemma preserves_update_record r g : preserves f (update_record r g).
Proof. apply preserves_modify. intros. apply f_records. Qed.

End frame_helpers.

(** Walks through a method: binds, branches and the primitive steps. *)
Ltac frame_step :=
  lazymatch goal with
  | |- preserves _ (mret _) => apply preserves_ret
  | |- preserves _ (raise _) => apply preserves_raise
  | |- preserves _ (gets _) => apply preserves_gets
  | |- preserves _ (void _) => apply preserves_void
  | |- preserves _ _save_metadata => apply preserves_save
  | |- preserves _ (seek _) => apply preserves_seek
  | |- preserves _ (read _ _) => apply preserves_read
  | |- preserves _ (get_record _) => apply preserves_get_record
  | |- preserves _ (files_item _) => apply preserves_files_item
  | |- preserves _ (get_object _) => apply preserves_get_object
  | |- preserves _ (new_record _) =>
      apply preserves_new_record; intros; reflexivity
  | |- preserves _ (update_record _ _) =>
      apply preserves_update_record; intros; reflexivity
  | |- preserves _ (modify _) => apply preserves_modify; intros ?; reflexivity
  | |- preserves _ (_ ≫= _) => apply preserves_bind; [|intros ?]
  | |- preserves _ (if ?b then _ else _) => destruct b
  | |- preserves _ (match ?x with _ => _ end) => destruct x
  end.

Create HintDb frame discriminated.

Ltac frame := repeat (first [solve [auto with frame] | frame_step]).

(** ** Accounting: [used_size] plus the free bytes *)

Section accounting.

Implicit Types (w : FileSystem) (fs : list block).

Lemma total_free_delete fs i b :
  fs !! i = Some b → total_free (base.delete i fs) = total_free fs - b.2.
Proof.
  intros Hi. rewrite <- (take_drop_middle _ _ _ Hi) at 2.
  rewrite delete_take_drop, !total_free_app. simpl. lia.
Qed.

Lemma total_free_insert fs i b x :
  fs !! i = Some b → total_free (<[i := x]> fs) = total_free fs - b.2 + x.2.
Proof.
  intros Hi. rewrite <- (take_drop_middle _ _ _ Hi) at 2.
  rewrite insert_take_drop by (by eapply lookup_lt_Some).
  rewrite !total_free_app. simpl. lia.
Qed.

Lemma accounted_allocate size : preserves accounted (_allocate_space size).
Proof.
  intros w.
  destruct (allocate_cases size (free_space w)) as [Hnone|(i & b & Hbest)].
  - by rewrite allocate_fails.
  - rewrite (allocate_takes _ _ _ _ Hbest). destruct Hbest as (Hi & _).
    unfold accounted. simpl. f_equal. case_bool_decide.
    + rewrite (total_free_delete _ _ _ Hi). lia.
    + rewrite (total_free_insert _ _ _ _ Hi). simpl. lia.
Qed.

Lemma accounted_release start size : preserves accounted (_release_space start size).
Proof.
  intros w. unfold accounted. rewrite release_free_space.
  unfold _release_space. case_bool_decide; [done|]. simpl. f_equal.
  rewrite total_free_coalesce. unfold sort.
  rewrite (total_free_perm _ _ (merge_sort_Permutation _ _)).
  rewrite total_free_app. simpl. lia.
Qed.

Hint Resolve accounted_allocate accounted_release : frame.

Lemma accounted_current_directory now :
  preserves accounted (get_current_directory_meta now).
Proof. unfold get_current_directory_meta. frame. Qed.

Hint Resolve accounted_current_directory : frame.

Lemma accounted_FileObject_init now name md :
  preserves accounted (FileObject_init now name md).
Proof. unfold FileObject_init. frame. Qed.

Hint Resolve accounted_FileObject_init : frame.

Lemma accounted_run now c : preserves accounted (run now c).
Proof.
  destruct c; simpl;
    unfold create, delete, mkdir, chdir, move, open, close, write_to_file,
      write_to_file_at, read_from_file, read_from_file_at, move_within_file,
      truncate_file;
    frame.
Qed.

Lemma reachable_run_all capacity script : ∀ w,
  reachable capacity w → reachable capacity (run_all script w).
Proof.
  induction script as [|[now c] script IH]; intros w Hw; [done|].
  simpl. apply IH. by constructor.
Qed.

(** C1.  In every state the engine can reach from the fresh volume, by
    calls that return or raise, [used_size] plus the lengths of the free
    blocks is the capacity. *)
Theorem C1_used_plus_free_is_capacity capacity w :
  reachable capacity w →
  used_size w + total_free (free_space w) = capacity.
Proof.
  intros Hw.
  assert (accounted w = (capacity, capacity)) as Hacc.
  { induction Hw as [now|w now c Hw IH|w s r Hw IH].
    - unfold accounted. simpl. f_equal. lia.
    - by rewrite accounted_run.
    - exact IH. }
  by injection Hacc.
Qed.

(** A file is created, written, closed and deleted, and another created:
    the free list is [(0, 4); (0, 1024)] and [used_size] is -4. *)
Lemma C1_used_plus_free_is_capacity_witness :
  let w := run_all [(1, Create "a.txt"); (2, Open "a.txt" "w");
                    (3, Append 0%nat (str_of "abcd")); (4, Close "a.txt");
                    (5, Delete "a.txt"); (6, Create "c.txt")]
             (FileSystem_init 0 1024) in
  reachable 1024 w ∧ used_size w + total_free (free_space w) = 1024.
Proof.
  intros w.
  assert (reachable 1024 w) as Hw by apply reachable_run_all, reachable_init.
  split; [exact Hw|]. exact (C1_used_plus_free_is_capacity 1024 w Hw).
Defined.

End accounting.

(** ** Running a method step by step *)

(** Unfolds the monad, for the methods short enough to be run whole. *)
Ltac run_monad :=
  unfold mbind, M_bind, mret, M_ret, gets, modify, raise; simpl.

Section steps.

Implicit Types (w : FileSystem) (o : FileObject) (m : file_meta).

Lemma bind_ok {A B} (c : M A) (k : A → M B) w a w' :
  c w = (Ok a, w') → (c ≫= k) w = k a w'.
Proof. intros H. unfold mbind, M_bind. by rewrite H. Qed.

Lemma bind_raise {A B} (c : M A) (k : A → M B) w e w' :
  c w = (Raise e, w') → (c ≫= k) w = (Raise e, w').
Proof. intros H. unfold mbind, M_bind. by rewrite H. Qed.

Lemma bind_assoc {A B C} (c : M A) (k1 : A → M B) (k2 : B → M C) w :
  ((c ≫= k1) ≫= k2) w = (c ≫= λ a, k1 a ≫= k2) w.
Proof. unfold mbind, M_bind. by destruct (c w) as [[a|e] w']. Qed.

Lemma bind_gets_eq {A B} (f : FileSystem → A) (k : A → M B) w :
  (gets f ≫= k) w = k (f w) w.
Proof. done. Qed.

Lemma get_object_ok w h o : objects w !! h = Some o → get_object h w = (Ok o, w).
Proof. intros Ho. unfold get_object. run_monad. by rewrite Ho. Qed.

Lemma files_item_ok w name r :
  files w !! name = Some r → files_item name w = (Ok r, w).
Proof. intros Hf. unfold files_item. run_monad. by rewrite Hf. Qed.

Lemma get_record_ok w r m : records w !! r = Some m → get_record r w = (Ok m, w).
Proof.
  intros Hm. unfold get_record, gets. by rewrite (list_lookup_total_correct _ _ _ Hm).
Qed.

Lemma seek_ok w pos : 0 ≤ pos → pos ≤ seek_bound w → seek pos w = (Ok tt, w).
Proof.
  intros. unfold seek. rewrite bind_gets_eq.
  by rewrite !bool_decide_eq_false_2 by lia.
Qed.

Lemma seek_refused w pos :
  seek_bound w < pos → seek pos w = (Raise OutOfRange, w).
Proof.
  intros. unfold seek. rewrite bind_gets_eq.
  rewrite (bool_decide_eq_true_2 (seek_bound w < pos)) by done.
  by rewrite orb_true_r.
Qed.

(** [df.seek] returns or raises, and changes nothing. *)
Lemma seek_cases w pos :
  (0 ≤ pos ≤ seek_bound w ∧ seek pos w = (Ok tt, w))
  ∨ ∃ e, seek pos w = (Raise e, w).
Proof.
  unfold seek. rewrite bind_gets_eq.
  destruct (decide (pos < - 2 ^ 63));
    [rewrite bool_decide_eq_true_2 by done; right; by eexists|].
  rewrite (bool_decide_eq_false_2 (pos < - 2 ^ 63)) by done.
  destruct (decide (seek_bound w < pos));
    [rewrite bool_decide_eq_true_2 by done; right; by eexists|].
  rewrite (bool_decide_eq_false_2 (seek_bound w < pos)) by done. simpl.
  case_bool_decide; [right; by eexists|left]. split; [lia|done].
Qed.

Lemma read_ok w pos size :
  0 ≤ size → size ≤ read_bound w →
  read pos size w = (Ok (file_read (data_file w) pos size), w).
Proof.
  intros. unfold read. rewrite bind_gets_eq.
  by rewrite !bool_decide_eq_false_2 by lia.
Qed.

Lemma read_refused w pos size :
  read_bound w < size → read pos size w = (Raise OutOfRange, w).
Proof.
  intros. unfold read. rewrite bind_gets_eq.
  rewrite (bool_decide_eq_true_2 (read_bound w < size)) by done.
  by rewrite orb_true_r.
Qed.

(** [df.read] returns the bytes or raises, and changes nothing. *)
Lemma read_cases w pos size :
  (-1 ≤ size ≤ read_bound w
   ∧ read pos size w = (Ok (file_read (data_file w) pos size), w))
  ∨ ∃ e, read pos size w = (Raise e, w).
Proof.
  unfold read. rewrite bind_gets_eq.
  destruct (decide (size < -1));
    [rewrite bool_decide_eq_true_2 by done; right; by eexists|].
  rewrite (bool_decide_eq_false_2 (size < -1)) by done.
  destruct (decide (read_bound w < size));
    [rewrite bool_decide_eq_true_2 by done; right; by eexists|].
  rewrite (bool_decide_eq_false_2 (read_bound w < size)) by done. simpl.
  left. split; [lia|done].
Qed.

(** Neither limit is negative. *)
Lemma seek_bound_nonneg w : 0 ≤ seek_bound w.
Proof. unfold seek_bound. lia. Qed.

Lemma read_bound_nonneg w : 0 ≤ read_bound w.
Proof. unfold read_bound. lia. Qed.

Lemma alter_as_insert (rs : list file_meta) r m g :
  rs !! r = Some m → alter g r rs = <[r := g m]> rs.
Proof.
  intros Hm. apply list_eq. intros i. destruct (decide (i = r)) as [->|Hne].
  - rewrite list_lookup_alter_eq, Hm. simpl.
    by rewrite list_lookup_insert_eq by (by eapply lookup_lt_Some).
  - by rewrite list_lookup_alter_ne, list_lookup_insert_ne.
Qed.

Lemma alter_insert (rs : list file_meta) r m g :
  (r < length rs)%nat → alter g r (<[r := m]> rs) = <[r := g m]> rs.
Proof.
  intros Hr. rewrite (alter_as_insert _ _ m) by (by apply list_lookup_insert_eq).
  by rewrite list_insert_insert_eq.
Qed.

Lemma bind_gets {A B} (f : FileSystem → A) (k : A → M B) w :
  (gets f ≫= k) w = k (f w) w.
Proof. done. Qed.

Lemma bind_modify {B} g (k : unit → M B) w : (modify g ≫= k) w = k tt (g w).
Proof. done. Qed.

Lemma bind_ret {A B} (a : A) (k : A → M B) w : (mret a ≫= k) w = k a w.
Proof. done. Qed.

End steps.

(** Projections of an updated state. *)
Ltac fields :=
  cbn [max_size used_size files directories free_space current_path open_files
       records objects data_file seek_limit read_limit set_used_size set_files
       set_directories set_free_space set_current_path set_open_files
       set_records set_objects set_data_file set_platform fst snd].

(** The limits of the file layer, in an updated state. *)
Ltac limits := unfold seek_bound, read_bound in *; fields.

(** One step of a method that returns: [tac] runs the first action. *)
Ltac step_with tac :=
  rewrite ?bind_assoc; etrans; [eapply bind_ok; tac|]; cbv beta; fields.
Ltac step :=
  step_with ltac:(first
    [ eapply get_object_ok; fields; eassumption
    | eapply files_item_ok; fields; eassumption
    | eapply get_record_ok; fields; eassumption
    | eapply seek_ok; limits; lia
    | eapply read_ok; limits; lia
    | reflexivity ]).
Ltac decide_false := rewrite bool_decide_eq_false_2 by (fields; first [lia | congruence]).
Ltac decide_true := rewrite bool_decide_eq_true_2 by (fields; first [lia | congruence]).

(** Runs the reads, the writes and the returns at the head of a method. *)
Ltac run_binds :=
  repeat first [rewrite bind_assoc | rewrite bind_gets | rewrite bind_modify
               | rewrite bind_ret]; cbv beta.

(** ** [chdir] *)

Lemma set_current_path_id w : set_current_path (current_path w) w = w.
Proof. by destruct w. Qed.

(** C9.  [chdir], with any argument and whether it returns or raises,
    changes nothing but [current_path]: the files map, the directories
    map, the free list and [used_size] are what they were.  The only
    exception it raises is NotFound, and then [current_path] is unchanged
    too. *)
Theorem C9_chdir_changes_only_current_path dir_name w :
  (chdir dir_name w).2 = set_current_path (current_path (chdir dir_name w).2) w
  ∧ metadata (chdir dir_name w).2 = metadata w
  ∧ files (chdir dir_name w).2 = files w
  ∧ directories (chdir dir_name w).2 = directories w
  ∧ free_space (chdir dir_name w).2 = free_space w
  ∧ used_size (chdir dir_name w).2 = used_size w
  ∧ ∀ e, (chdir dir_name w).1 = Raise e → e = NotFound ∧ (chdir dir_name w).2 = w.
Proof.
  assert ((chdir dir_name w).2 = set_current_path (current_path (chdir dir_name w).2) w
          ∧ ∀ e, (chdir dir_name w).1 = Raise e → e = NotFound ∧ (chdir dir_name w).2 = w)
    as [Heq Herr].
  { unfold chdir. repeat case_bool_decide; run_monad;
      repeat case_bool_decide; simpl;
      try destruct (directories w !! child_path (current_path w) dir_name);
      simpl; (split; [by rewrite ?set_current_path_id|by intros e [= <-]]). }
  split_and!; [done|..|done]; by rewrite Heq.
Qed.

(** ** The constructor on a file that exists *)

Section constructor.

Implicit Types (w : FileSystem) (o : FileObject) (m : file_meta).

(** The constructor on a file that exists, whose offset and size the
    platform takes: the stored bytes are read and decoded, and nothing
    but the store of objects changes. *)
Lemma FileObject_init_existing now w name md r :
  files w !! name = Some r →
  let m := records w !!! r in
  0 ≤ f_start_pos m ≤ seek_bound w → 0 ≤ f_size m ≤ read_bound w →
  FileObject_init now name md w =
    match decode (file_read (data_file w) (f_start_pos m) (f_size m)) with
    | None => (Raise UnicodeError, w)
    | Some s =>
        (Ok (length (objects w)),
         set_objects (λ os, os ++ [MkFileObject name md r (rstrip_nul s)]) w)
    end.
Proof.
  intros Hf m Hpos Hsize. unfold FileObject_init.
  step. rewrite Hf. step. fold m. step. step.
  destruct (decode _); [|done]. by do 2 step.
Qed.

(** The constructor on a file that exists, in any state: it raises and
    changes nothing, or it has read and decoded the stored bytes. *)
Lemma FileObject_init_existing_cases now w name md r :
  files w !! name = Some r →
  let m := records w !!! r in
  (∃ e, FileObject_init now name md w = (Raise e, w))
  ∨ (0 ≤ f_start_pos m ≤ seek_bound w ∧ -1 ≤ f_size m ≤ read_bound w
     ∧ ∃ s, decode (file_read (data_file w) (f_start_pos m) (f_size m)) = Some s
         ∧ FileObject_init now name md w
           = (Ok (length (objects w)),
              set_objects (λ os, os ++ [MkFileObject name md r (rstrip_nul s)]) w)).
Proof.
  intros Hf m.
  assert (FileObject_init now name md w
          = (seek (f_start_pos m);;
             stored ← read (f_start_pos m) (f_size m);
             match decode stored with
             | None => raise UnicodeError
             | Some s =>
                 h ← gets (λ w, length (objects w));
                 modify (set_objects
                   (λ os, os ++ [MkFileObject name md r (rstrip_nul s)]));;
                 mret h
             end) w) as ->.
  { unfold FileObject_init. step. rewrite Hf. by step. }
  destruct (seek_cases w (f_start_pos m)) as [[Hpos Hseek]|[e Hseek]];
    [|left; exists e; by erewrite bind_raise by exact Hseek].
  erewrite bind_ok by exact Hseek.
  destruct (read_cases w (f_start_pos m) (f_size m)) as [[Hsize Hread]|[e Hread]];
    [|left; exists e; by erewrite bind_raise by exact Hread].
  erewrite bind_ok by exact Hread.
  destruct (decode _) as [s|] eqn:Hdec; [|left; by eexists].
  right. split; [done|]. split; [done|]. by exists s.
Qed.

Lemma open_existing now w name md r :
  files w !! name = Some r → md = "r" ∨ md = "w" →
  let m := records w !!! r in
  0 ≤ f_start_pos m ≤ seek_bound w → 0 ≤ f_size m ≤ read_bound w →
  open now name md w =
    match decode (file_read (data_file w) (f_start_pos m) (f_size m)) with
    | None => (Raise UnicodeError, w)
    | Some s =>
        (Ok (length (objects w)),
         set_open_files <[name := length (objects w)]>
           (set_objects (λ os, os ++ [MkFileObject name md r (rstrip_nul s)]) w))
    end.
Proof.
  intros Hf Hmd m Hpos Hsize. unfold open.
  rewrite bool_decide_eq_false_2 by (intros [? ?]; by destruct Hmd).
  pose proof (FileObject_init_existing now w name md r Hf Hpos Hsize) as Hinit.
  fold m in Hinit. simpl in Hinit.
  destruct (decode _) as [s|].
  - step_with ltac:(exact Hinit). by step.
  - by erewrite bind_raise by exact Hinit.
Qed.

(** A file larger than what the platform reads at once cannot be opened. *)
Lemma open_unreadable now w name md r :
  files w !! name = Some r → md = "r" ∨ md = "w" →
  let m := records w !!! r in
  0 ≤ f_start_pos m ≤ seek_bound w → read_bound w < f_size m →
  open now name md w = (Raise OutOfRange, w).
Proof.
  intros Hf Hmd m Hpos Hsize. unfold open.
  rewrite bool_decide_eq_false_2 by (intros [? ?]; by destruct Hmd).
  erewrite bind_raise; [done|].
  unfold FileObject_init. step. rewrite Hf. step. fold m. step.
  by erewrite bind_raise by (by apply read_refused).
Qed.

(** [open] of a file that exists, in any state: it raises and changes
    nothing, or it has read and decoded the stored bytes. *)
Lemma open_existing_cases now w name md r :
  files w !! name = Some r →
  let m := records w !!! r in
  (∃ e, open now name md w = (Raise e, w))
  ∨ (0 ≤ f_start_pos m ≤ seek_bound w ∧ -1 ≤ f_size m ≤ read_bound w
     ∧ ∃ s, decode (file_read (data_file w) (f_start_pos m) (f_size m)) = Some s
         ∧ open now name md w
           = (Ok (length (objects w)),
              set_open_files <[name := length (objects w)]>
                (set_objects
                   (λ os, os ++ [MkFileObject name md r (rstrip_nul s)]) w))).
Proof.
  intros Hf m. unfold open. case_bool_decide; [left; by eexists|].
  destruct (FileObject_init_existing_cases now w name md r Hf)
    as [[e Hinit]|(Hpos & Hsize & s & Hdec & Hinit)].
  - left. exists e. by erewrite bind_raise by exact Hinit.
  - right. split; [done|]. split; [done|]. exists s. split; [done|].
    by erewrite bind_ok by exact Hinit.
Qed.

End constructor.

(** ** The tables stay consistent *)

Section consistency.

Implicit Types (w : FileSystem) (o : FileObject) (m : file_meta)
  (opened fs : gmap string nat) (os : list FileObject) (rs : list file_meta)
  (free : list block).

Lemma sound_record_lookup_total rs r :
  Forall sound_record rs → sound_record (rs !!! r).
Proof.
  intros Hrs. destruct (rs !! r) as [m|] eqn:Hr.
  - rewrite (list_lookup_total_correct _ _ _ Hr).
    rewrite Forall_forall in Hrs. apply Hrs. by eapply list_elem_of_lookup_2.
  - rewrite list_lookup_total_alt, Hr. split; simpl; lia.
Qed.

Lemma tables_ok_alter_record opened os fs rs free g r :
  (∀ m, sound_record m → sound_record (g m)) →
  tables_ok opened os fs rs free → tables_ok opened os fs (alter g r rs) free.
Proof.
  intros Hg (H1 & H2 & H3 & H4). split_and!; try done.
  - intros name r' Hr'. rewrite length_alter. by eapply H2.
  - rewrite Forall_forall in *. intros m Hm.
    apply list_elem_of_lookup in Hm as [i Hi].
    destruct (decide (i = r)) as [->|Hne].
    + rewrite list_lookup_alter_eq in Hi.
      destruct (rs !! r) as [m'|] eqn:Hr; [|done]. injection Hi as <-.
      apply Hg, H3. by eapply list_elem_of_lookup_2.
    + rewrite list_lookup_alter_ne in Hi by done.
      apply H3. by eapply list_elem_of_lookup_2.
Qed.

Lemma tables_ok_alter_object opened os fs rs free g h :
  (∀ o, file_name (g o) = file_name o ∧ file_meta_ref (g o) = file_meta_ref o) →
  tables_ok opened os fs rs free → tables_ok opened (alter g h os) fs rs free.
Proof.
  intros Hg (H1 & H2 & H3 & H4). split_and!; try done.
  intros name h' Hh'. destruct (H1 name h' Hh') as (o & Ho & Hname & Hfs).
  destruct (decide (h' = h)) as [->|Hne].
  - exists (g o). rewrite list_lookup_alter_eq, Ho. simpl.
    destruct (Hg o) as [-> ->]. done.
  - exists o. by rewrite list_lookup_alter_ne.
Qed.

Lemma tables_ok_new_record opened os fs rs free m :
  sound_record m →
  tables_ok opened os fs rs free → tables_ok opened os fs (rs ++ [m]) free.
Proof.
  intros Hm (H1 & H2 & H3 & H4). split_and!; try done.
  - intros name r Hr. rewrite length_app. specialize (H2 name r Hr). simpl. lia.
  - apply Forall_app. split; [done|]. by constructor.
Qed.

Lemma tables_ok_new_file opened os fs rs free name r :
  fs !! name = None → (r < length rs)%nat →
  tables_ok opened os fs rs free → tables_ok opened os (<[name := r]> fs) rs free.
Proof.
  intros Hnone Hr (H1 & H2 & H3 & H4). split_and!; try done.
  - intros n h Hh. destruct (H1 n h Hh) as (o & Ho & Hname & Hfs).
    exists o. split_and!; try done.
    rewrite lookup_insert_ne; [done|]. intros <-. congruence.
  - intros n r'. rewrite lookup_insert. case_decide.
    + by intros [= <-].
    + apply H2.
Qed.

Lemma tables_ok_delete_file opened os fs rs free name :
  opened !! name = None →
  tables_ok opened os fs rs free → tables_ok opened os (base.delete name fs) rs free.
Proof.
  intros Hnone (H1 & H2 & H3 & H4). split_and!; try done.
  - intros n h Hh. destruct (H1 n h Hh) as (o & Ho & Hname & Hfs).
    exists o. split_and!; try done.
    rewrite lookup_delete_ne; [done|]. intros <-. congruence.
  - intros n r'. rewrite lookup_delete. case_decide; [done|]. apply H2.
Qed.

Lemma tables_ok_track opened os fs rs free h o :
  os !! h = Some o → fs !! file_name o = Some (file_meta_ref o) →
  tables_ok opened os fs rs free →
  tables_ok (<[file_name o := h]> opened) os fs rs free.
Proof.
  intros Ho Hfs (H1 & H2 & H3 & H4). split_and!; try done.
  intros n h'. rewrite lookup_insert. case_decide as Hn.
  - intros [= <-]. exists o. by subst n.
  - apply H1.
Qed.

Lemma tables_ok_new_object opened os fs rs free o :
  tables_ok opened os fs rs free → tables_ok opened (os ++ [o]) fs rs free.
Proof.
  intros (H1 & H2 & H3 & H4). split_and!; try done.
  intros n h Hh. destruct (H1 n h Hh) as (o' & Ho' & Hname & Hfs').
  exists o'. by rewrite lookup_app_l by (by eapply lookup_lt_Some).
Qed.

Lemma tables_ok_close opened os fs rs free name :
  tables_ok opened os fs rs free → tables_ok (base.delete name opened) os fs rs free.
Proof.
  intros (H1 & H2 & H3 & H4). split_and!; try done.
  intros n h. rewrite lookup_delete. case_decide; [done|]. apply H1.
Qed.

Lemma tables_ok_free opened os fs rs free free' :
  Forall (λ b, 0 ≤ b.1) free' →
  tables_ok opened os fs rs free → tables_ok opened os fs rs free'.
Proof. intros Hfree (H1 & H2 & H3 & H4). by split_and!. Qed.

End consistency.

Section keeping.

Implicit Types (w : FileSystem) (o : FileObject) (m : file_meta).

Lemma consistent_core w w' : core w = core w' → consistent w → consistent w'.
Proof. unfold core, consistent. by intros [= -> -> -> -> ->]. Qed.

Lemma yields_ret {A} (a : A) (Q : A → Prop) : Q a → yields (mret a) Q.
Proof. intros Ha w Hw. split; [done|]. by intros ? [= <-]. Qed.

Lemma yields_raise {A} e (Q : A → Prop) : yields (raise e) Q.
Proof. intros w Hw. by split. Qed.

Lemma yields_gets {A} (f : FileSystem → A) (Q : A → Prop) :
  (∀ w, consistent w → Q (f w)) → yields (gets f) Q.
Proof. intros Hf w Hw. split; [done|]. intros ? [= <-]. by apply Hf. Qed.

Lemma yields_modify g :
  (∀ w, consistent w → consistent (g w)) → yields (modify g) (λ _, True).
Proof. intros Hg w Hw. split; [by apply Hg|done]. Qed.

Lemma yields_bind {A B} (c : M A) (k : A → M B) (Q : A → Prop) (R : B → Prop) :
  yields c Q → (∀ a, Q a → yields (k a) R) → yields (c ≫= k) R.
Proof.
  intros Hc Hk w Hw. unfold mbind, M_bind.
  destruct (Hc w Hw) as [Hw' HQ]. destruct (c w) as [[a|e] w']; simpl in *.
  - by apply (Hk a (HQ a eq_refl)).
  - by split.
Qed.

Lemma yields_weaken {A} (c : M A) (Q R : A → Prop) :
  yields c Q → (∀ a, Q a → R a) → yields c R.
Proof.
  intros Hc HQR w Hw. destruct (Hc w Hw) as [Hw' HQ]. split; [done|].
  intros a Ha. by apply HQR, HQ.
Qed.

Lemma yields_preserves {A} (c : M A) : preserves core c → yields c (λ _, True).
Proof.
  intros Hc w Hw. split; [|done]. eapply consistent_core; [|done]. by rewrite Hc.
Qed.

Lemma yields_get_object h : yields (get_object h) (λ _, True).
Proof. apply yields_preserves, preserves_get_object. Qed.

Lemma yields_files_item name : yields (files_item name) (λ _, True).
Proof. apply yields_preserves, preserves_files_item. Qed.

Lemma yields_seek pos : yields (seek pos) (λ _, True).
Proof. apply yields_preserves, preserves_seek. Qed.

Lemma yields_read pos size : yields (read pos size) (λ _, True).
Proof. apply yields_preserves, preserves_read. Qed.

Lemma yields_save : yields _save_metadata (λ _, True).
Proof. by apply yields_ret. Qed.

Lemma yields_get_record r : yields (get_record r) sound_record.
Proof.
  apply yields_gets. intros w (_ & _ & Hrs & _).
  by apply sound_record_lookup_total.
Qed.

Lemma yields_update_record r g :
  (∀ m, sound_record m → sound_record (g m)) →
  yields (update_record r g) (λ _, True).
Proof.
  intros Hg. apply yields_modify. intros w Hw.
  by apply tables_ok_alter_record.
Qed.

Lemma yields_set_content h s :
  yields (modify (set_objects (alter (with_content s) h))) (λ _, True).
Proof.
  apply yields_modify. intros w Hw. by apply tables_ok_alter_object.
Qed.

Lemma yields_set_data_file g : yields (modify (set_data_file g)) (λ _, True).
Proof. by apply yields_modify. Qed.

Lemma sound_with_size n m : 0 ≤ n → sound_record m → sound_record (with_size n m).
Proof. intros Hn [? ?]. by split. Qed.

Lemma sound_with_modified_time t m :
  sound_record m → sound_record (with_modified_time t m).
Proof. intros [? ?]. by split. Qed.

End keeping.

(** Walks through a method of an open file. *)
Ltac keep_step :=
  lazymatch goal with
  | |- yields (mret _) _ => by apply yields_ret
  | |- yields (raise _) _ => apply yields_raise
  | |- yields _save_metadata _ => apply yields_save
  | |- yields (get_object _) _ => apply yields_get_object
  | |- yields (files_item _) _ => apply yields_files_item
  | |- yields (seek _) _ => apply yields_seek
  | |- yields (read _ _) _ => apply yields_read
  | |- yields (get_record _) _ => apply yields_get_record
  | |- yields (gets _) _ => by apply (yields_gets _ (λ _, True))
  | |- yields (update_record _ (with_modified_time _)) _ =>
      apply yields_update_record, sound_with_modified_time
  | |- yields (update_record _ (with_size _)) _ =>
      apply yields_update_record; intros ?; apply sound_with_size
  | |- yields (modify (set_objects (alter (with_content _) _))) _ =>
      apply yields_set_content
  | |- yields (modify (set_data_file _)) _ => apply yields_set_data_file
  | |- yields (_ ≫= _) _ => eapply yields_bind; [|intros ? ?]
  | |- yields (if bool_decide ?P then _ else _) _ =>
      destruct (decide P);
      [rewrite bool_decide_eq_true_2 by done
      |rewrite bool_decide_eq_false_2 by done]
  | |- yields (if ?b then _ else _) _ => destruct b eqn:?
  | |- yields (match ?x with _ => _ end) _ => destruct x eqn:?
  end.

(** A size that is not negative, from the guards passed and the records
    read. *)
Ltac sizes :=
  repeat match goal with H : sound_record _ |- _ => destruct H end;
  repeat match goal with H : _ || _ = false |- _ =>
    apply orb_false_elim in H as [? ?] end;
  repeat match goal with H : bool_decide _ = false |- _ =>
    apply bool_decide_eq_false in H end;
  repeat case_bool_decide;
  lia.

Section keeping_methods.

Implicit Types (w : FileSystem) (o : FileObject) (m : file_meta).

Lemma yields_write_to_file now h text :
  yields (write_to_file now h text) (λ _, True).
Proof.
  unfold write_to_file. repeat keep_step; sizes.
Qed.

Lemma yields_write_to_file_at now h write_at text :
  yields (write_to_file_at now h write_at text) (λ _, True).
Proof.
  unfold write_to_file_at. repeat keep_step; sizes.
Qed.

Lemma yields_move_within_file now h start size target :
  yields (move_within_file now h start size target) (λ _, True).
Proof.
  unfold move_within_file. repeat keep_step; sizes.
Qed.

Lemma yields_truncate_file now h n : yields (truncate_file now h n) (λ _, True).
Proof.
  unfold truncate_file. repeat keep_step; sizes.
Qed.

Lemma yields_close name : yields (close name) (λ _, True).
Proof.
  unfold close. repeat keep_step.
  apply yields_modify. intros w Hw. by apply tables_ok_close.
Qed.

End keeping_methods.

Section keeping_files.

Implicit Types (w : FileSystem) (o : FileObject) (m : file_meta).

Lemma files_current_directory now w :
  files (get_current_directory_meta now w).2 = files w.
Proof.
  assert (preserves files (get_current_directory_meta now)) as H
    by (unfold get_current_directory_meta; frame).
  apply H.
Qed.

Lemma files_allocate size w : files (_allocate_space size w).2 = files w.
Proof.
  assert (preserves files (_allocate_space size)) as H
    by (unfold _allocate_space; frame).
  apply H.
Qed.

Lemma yields_core_methods now :
  (∀ name, yields (mkdir now name) (λ _, True))
  ∧ (∀ name, yields (chdir name) (λ _, True))
  ∧ (∀ s t, yields (move now s t) (λ _, True))
  ∧ (∀ h, yields (read_from_file h) (λ _, True))
  ∧ (∀ h start size, yields (read_from_file_at h start size) (λ _, True))
  ∧ yields (get_current_directory_meta now) (λ _, True).
Proof.
  split_and!; intros; apply yields_preserves;
    unfold mkdir, chdir, move, read_from_file, read_from_file_at,
      get_current_directory_meta;
    frame.
Qed.

Lemma yields_allocate size :
  0 ≤ size → yields (_allocate_space size) (λ start, 0 ≤ start).
Proof.
  intros Hsize w Hw.
  destruct (allocate_cases size (free_space w)) as [Hnone|(i & b & Hbest)].
  - by rewrite allocate_fails.
  - rewrite (allocate_takes _ _ _ _ Hbest). destruct Hbest as (Hi & Hfit & _).
    pose proof Hw as (_ & _ & _ & Hfree).
    assert (0 ≤ b.1) as Hb.
    { rewrite Forall_forall in Hfree. apply Hfree. by eapply list_elem_of_lookup_2. }
    split; [|by intros ? [= <-]].
    unfold consistent, taken. fields. eapply tables_ok_free; [|exact Hw].
    case_bool_decide.
    + rewrite delete_take_drop. apply Forall_app. split.
      * by apply Forall_take.
      * by apply Forall_drop.
    + rewrite insert_take_drop by (by eapply lookup_lt_Some).
      apply Forall_app. split; [by apply Forall_take|].
      constructor; [simpl; lia|by apply Forall_drop].
Qed.

Lemma yields_release start size :
  0 ≤ start → yields (_release_space start size) (λ _, True).
Proof.
  intros Hstart w Hw. split; [|done].
  pose proof Hw as (_ & _ & _ & Hfree).
  eapply (consistent_core
            (set_free_space (λ _, free_space (_release_space start size w).2) w)).
  { unfold core, _release_space. by case_bool_decide. }
  unfold consistent. fields. eapply tables_ok_free; [|exact Hw].
  rewrite release_free_space. case_bool_decide; [done|].
  assert (Forall (λ b, 0 ≤ b.1) (sort (free_space w ++ [(start, size)]))) as Hsorted.
  { unfold sort. rewrite merge_sort_Permutation.
    apply Forall_app. split; [done|]. by constructor. }
  destruct (sort _) as [|cur rest]; [done|]. simpl.
  apply Forall_forall. intros x Hx.
  destruct (coalesce_from_starts _ _ _ Hx) as (y & Hy & ->).
  rewrite Forall_forall in Hsorted. by apply Hsorted.
Qed.

Lemma yields_new_record m :
  sound_record m → yields (new_record m) (λ _, True).
Proof.
  intros Hm. unfold new_record. repeat keep_step.
  apply yields_modify. intros w Hw. by apply tables_ok_new_record.
Qed.

Lemma yields_set_directories g :
  yields (modify (set_directories g)) (λ _, True).
Proof. by apply yields_modify. Qed.

(** [create]: the new record is the last of the store when the name is
    entered in the files map. *)
Lemma yields_create now name : yields (create now name) (λ _, True).
Proof.
  intros w Hw. split; [|done]. unfold create.
  rewrite bind_gets.
  destruct (files w !! name) as [r|] eqn:Hname; [done|].
  destruct (proj2 (proj2 (proj2 (proj2 (proj2 (yields_core_methods now))))) w Hw)
    as [Hw1 _].
  pose proof (files_current_directory now w) as Hfs1.
  destruct (get_current_directory_meta now w) as [[cd|e] w1] eqn:Hcd;
    [|by erewrite bind_raise by exact Hcd].
  rewrite (bind_ok _ _ _ _ _ Hcd). simpl in Hw1, Hfs1.
  assert (files w1 !! name = None) as Hname1 by (by rewrite Hfs1).
  destruct (yields_allocate 0 ltac:(lia) w1 Hw1) as [Hw2 Hstart].
  pose proof (files_allocate 0 w1) as Hfs2.
  destruct (_allocate_space 0 w1) as [[start|e] w2] eqn:Halloc;
    [|by erewrite bind_raise by exact Halloc].
  rewrite (bind_ok _ _ _ _ _ Halloc). simpl in Hw2, Hfs2.
  specialize (Hstart start eq_refl).
  assert (files w2 !! name = None) as Hname2 by (by rewrite Hfs2).
  unfold new_record, _save_metadata. run_binds.
  unfold mret, M_ret, consistent. fields.
  apply tables_ok_new_file; [done|rewrite length_app; simpl; lia|].
  apply tables_ok_new_record; [by split|done].
Qed.

End keeping_files.

Section keeping_open.

Implicit Types (w : FileSystem) (o : FileObject) (m : file_meta).

Lemma core_eq w w' :
  core w = core w' →
  open_files w = open_files w' ∧ objects w = objects w' ∧ files w = files w'
  ∧ records w = records w' ∧ free_space w = free_space w'.
Proof. unfold core. by intros [= -> -> -> -> ->]. Qed.

Lemma current_directory_core now w :
  core (get_current_directory_meta now w).2 = core w.
Proof.
  assert (preserves core (get_current_directory_meta now)) as H
    by (unfold get_current_directory_meta; frame).
  apply H.
Qed.

Lemma release_returns start size w : (_release_space start size w).1 = Ok tt.
Proof. unfold _release_space. by case_bool_decide. Qed.

Lemma release_tables start size w :
  open_files (_release_space start size w).2 = open_files w
  ∧ files (_release_space start size w).2 = files w.
Proof. unfold _release_space. by case_bool_decide. Qed.

Lemma yields_delete name : yields (delete name) (λ _, True).
Proof.
  intros w Hw. split; [|done]. unfold delete.
  rewrite bind_gets. destruct (files w !! name) as [r|] eqn:Hname; [|done].
  rewrite bind_gets. destruct (open_files w !! name) as [h|] eqn:Hopen; [done|].
  unfold get_record. rewrite bind_gets.
  pose proof Hw as (_ & _ & Hrs & _).
  destruct (sound_record_lookup_total (records w) r Hrs) as [Hstart _].
  destruct (yields_release (f_start_pos (records w !!! r))
              (f_size (records w !!! r)) Hstart w Hw) as [Hw1 _].
  pose proof (release_returns (f_start_pos (records w !!! r))
                (f_size (records w !!! r)) w) as Hret.
  destruct (release_tables (f_start_pos (records w !!! r))
              (f_size (records w !!! r)) w) as [Hopen1 Hfiles1].
  destruct (_release_space _ _ w) as [[[]|e] w1] eqn:Hrel; [|done].
  rewrite (bind_ok _ _ _ _ _ Hrel). simpl in Hw1, Hopen1, Hfiles1.
  unfold _save_metadata. run_binds. unfold mret, M_ret, consistent. fields.
  apply tables_ok_delete_file; [by rewrite Hopen1|done].
Qed.

(** What the constructor leaves: consistent tables, and when it returns,
    an object of the name asked for, bound to the record that the files
    map holds for the name. *)
Lemma FileObject_init_consistent now name md w :
  consistent w →
  consistent (FileObject_init now name md w).2
  ∧ ∀ h, (FileObject_init now name md w).1 = Ok h →
      ∃ o, objects (FileObject_init now name md w).2 !! h = Some o
           ∧ file_name o = name
           ∧ files (FileObject_init now name md w).2 !! name
               = Some (file_meta_ref o).
Proof.
  intros Hw. destruct (files w !! name) as [r|] eqn:Hname.
  - destruct (FileObject_init_existing_cases now w name md r Hname)
      as [[e ->]|(_ & _ & s & _ & ->)]; [by split|].
    split.
    + by apply tables_ok_new_object.
    + intros h [= <-]. eexists. fields.
      rewrite lookup_app_r, Nat.sub_diag by lia. by split_and!.
  - unfold FileObject_init. rewrite bind_gets, Hname.
    case_bool_decide; [by split|].
    destruct (yields_allocate 0 ltac:(lia) w Hw) as [Hw1 Hstart].
    pose proof (files_allocate 0 w) as Hfs1.
    destruct (_allocate_space 0 w) as [[start|e] w1] eqn:Halloc;
      [|by erewrite bind_raise by exact Halloc].
    rewrite (bind_ok _ _ _ _ _ Halloc). simpl in Hw1, Hfs1.
    specialize (Hstart start eq_refl).
    unfold new_record. run_binds.
    set (m := FileMeta name 0 now now start false).
    set (w2 := set_records (λ rs, rs ++ [m]) w1).
    assert (consistent w2) as Hw2
      by (by apply tables_ok_new_record).
    destruct (proj2 (proj2 (proj2 (proj2 (proj2 (yields_core_methods now))))) w2 Hw2)
      as [Hw3 _].
    destruct (core_eq _ _ (current_directory_core now w2))
      as (Hopen3 & Hobj3 & Hfs3 & Hrs3 & _).
    destruct (get_current_directory_meta now w2) as [[cd|e] w3] eqn:Hcd;
      [|by erewrite bind_raise by exact Hcd].
    rewrite (bind_ok _ _ _ _ _ Hcd). simpl in Hw3, Hopen3, Hobj3, Hfs3, Hrs3.
    run_binds. fields.
    destruct (alter _ _ _ !! _) as [d|]; [|split; [exact Hw3|done]].
    unfold _save_metadata. run_binds. unfold mret, M_ret. fields.
    assert (files w3 !! name = None) as Hname3
      by (by rewrite Hfs3; subst w2; fields; rewrite Hfs1).
    assert (length (records w1) < length (records w3))%nat as Hlen.
    { rewrite Hrs3. subst w2. fields. rewrite length_app. simpl. lia. }
    split.
    + unfold consistent. fields. apply tables_ok_new_object.
      by apply tables_ok_new_file.
    + intros h [= <-]. eexists. fields.
      rewrite lookup_app_r, Nat.sub_diag by lia.
      split_and!; [done|done|]. by rewrite lookup_insert_eq.
Qed.

Lemma yields_open now name md : yields (open now name md) (λ _, True).
Proof.
  intros w Hw. split; [|done]. unfold open. case_bool_decide; [done|].
  destruct (FileObject_init_consistent now name md w Hw) as [Hw1 Hh].
  destruct (FileObject_init now name md w) as [[h|e] w1] eqn:Hinit;
    [|by erewrite bind_raise by exact Hinit].
  rewrite (bind_ok _ _ _ _ _ Hinit). simpl in Hw1, Hh.
  destruct (Hh h eq_refl) as (o & Ho & <- & Hfs).
  run_binds. unfold mret, M_ret, consistent. fields.
  by apply (tables_ok_track _ _ _ _ _ h o).
Qed.

(** Every call keeps the tables consistent. *)
Lemma consistent_run now c w : consistent w → consistent (run now c w).2.
Proof.
  intros Hw.
  destruct (yields_core_methods now) as (Hmkdir & Hchdir & Hmove & Hall & Hrange & _).
  assert (∀ A (m : M A), yields m (λ _, True) → consistent (void m w).2) as Hvoid.
  { intros A m Hm. destruct (Hm w Hw) as [Hw' _]. unfold void, mbind, M_bind.
    by destruct (m w) as [[a|e] w']. }
  destruct c; simpl; try (apply Hvoid).
  - apply yields_create.
  - apply yields_delete.
  - apply Hmkdir.
  - apply Hchdir.
  - apply Hmove.
  - apply yields_open.
  - apply yields_close.
  - by apply yields_write_to_file.
  - by apply yields_write_to_file_at.
  - apply Hall.
  - apply Hrange.
  - by apply yields_move_within_file.
  - by apply yields_truncate_file.
Qed.

Lemma reachable_consistent capacity w : reachable capacity w → consistent w.
Proof.
  induction 1 as [now|w now c Hw IH|w s r Hw IH].
  - split_and!; simpl.
    + intros name h. by rewrite lookup_empty.
    + intros name r. by rewrite lookup_empty.
    + constructor.
    + by repeat constructor.
  - by apply consistent_run.
  - exact IH.
Qed.

(** In every state the engine can reach, a [FileObject] in [open_files]
    is bound to the record of its file, and the record is sound: the
    hypotheses of C5, C6, C7 and C8 hold of every open handle. *)
Lemma open_handles_are_bound capacity w name h :
  reachable capacity w → open_files w !! name = Some h →
  ∃ o m, bound w h o m ∧ file_name o = name
         ∧ 0 ≤ f_start_pos m ∧ 0 ≤ f_size m.
Proof.
  intros Hw Hh. destruct (reachable_consistent _ _ Hw) as (H1 & H2 & H3 & _).
  destruct (H1 name h Hh) as (o & Ho & Hname & Hfs).
  destruct (lookup_lt_is_Some_2 (records w) (file_meta_ref o)) as [m Hm].
  { eapply H2. exact Hfs. }
  exists o, m. rewrite Forall_forall in H3.
  destruct (H3 m (list_elem_of_lookup_2 _ _ _ Hm)) as [? ?].
  subst name. by split_and!.
Qed.

Lemma reachable_after capacity script : reachable capacity (after capacity script).
Proof. apply reachable_run_all, reachable_init. Qed.

(** The same, for an object known to be the one in the table. *)
Lemma open_handle_bound capacity w name h o :
  reachable capacity w → open_files w !! name = Some h → objects w !! h = Some o →
  ∃ m, bound w h o m ∧ file_name o = name ∧ 0 ≤ f_start_pos m ∧ 0 ≤ f_size m
       ∧ size_of w name = Some (f_size m)
       ∧ start_pos_of w name = Some (f_start_pos m).
Proof.
  intros Hw Hh Ho.
  destruct (open_handles_are_bound _ _ _ _ Hw Hh) as (o' & m & Hb & Hname & Hs & Hz).
  pose proof Hb as (Ho' & Hm & Hf). assert (o' = o) as -> by congruence.
  exists m. split_and!; try done.
  - unfold size_of. rewrite <- Hname, Hf. simpl.
    by rewrite (list_lookup_total_correct _ _ _ Hm).
  - unfold start_pos_of. rewrite <- Hname, Hf. simpl.
    by rewrite (list_lookup_total_correct _ _ _ Hm).
Qed.

End keeping_open.

(** ** Invariants of the reachable states *)

Section ensuring.

Context (I : FileSystem → Prop).

Lemma ensures_ret {A} (a : A) (Q : A → Prop) : Q a → ensures I (mret a) Q.
Proof. intros Ha w Hw. split; [done|]. by intros ? [= <-]. Qed.

Lemma ensures_raise {A} e (Q : A → Prop) : ensures I (raise e) Q.
Proof. intros w Hw. by split. Qed.

Lemma ensures_gets {A} (f : FileSystem → A) (Q : A → Prop) :
  (∀ w, I w → Q (f w)) → ensures I (gets f) Q.
Proof. intros Hf w Hw. split; [done|]. intros ? [= <-]. by apply Hf. Qed.

Lemma ensures_modify g :
  (∀ w, I w → I (g w)) → ensures I (modify g) (λ _, True).
Proof. intros Hg w Hw. split; [by apply Hg|done]. Qed.

Lemma ensures_bind {A B} (c : M A) (k : A → M B) (Q : A → Prop) (R : B → Prop) :
  ensures I c Q → (∀ a, Q a → ensures I (k a) R) → ensures I (c ≫= k) R.
Proof.
  intros Hc Hk w Hw. unfold mbind, M_bind.
  destruct (Hc w Hw) as [Hw' HQ]. destruct (c w) as [[a|e] w']; simpl in *.
  - by apply (Hk a (HQ a eq_refl)).
  - by split.
Qed.

Lemma ensures_weaken {A} (c : M A) (Q R : A → Prop) :
  ensures I c Q → (∀ a, Q a → R a) → ensures I c R.
Proof.
  intros Hc HQR w Hw. destruct (Hc w Hw) as [Hw' HQ]. split; [done|].
  intros a Ha. by apply HQR, HQ.
Qed.

Lemma ensures_void {A} (c : M A) (Q : A → Prop) :
  ensures I c Q → ensures I (void c) (λ _, True).
Proof.
  intros Hc. eapply ensures_bind; [exact Hc|]. intros a _. by apply ensures_ret.
Qed.

Lemma ensures_run {A} (c : M A) (Q : A → Prop) w :
  ensures I c Q → I w → I (c w).2.
Proof. intros Hc Hw. by apply Hc. Qed.

End ensuring.

Section origin.

Implicit Types (w : FileSystem) (m : file_meta) (fs : list block).

Lemma coalesce_from_Forall (P : block → Prop) rest : ∀ cur,
  (∀ a b, P a → P b → P (a.1, a.2 + b.2)) →
  P cur → Forall P rest → Forall P (coalesce_from cur rest).
Proof.
  induction rest as [|nxt rest IH]; intros cur Hmerge Hcur Hrest; simpl.
  { by constructor. }
  apply Forall_cons in Hrest as [Hnxt Hrest].
  case_bool_decide.
  - apply IH; [done| |done]. by apply Hmerge.
  - constructor; [done|]. by apply IH.
Qed.

Lemma release_Forall (P : block → Prop) start size w :
  (∀ a b, P a → P b → P (a.1, a.2 + b.2)) →
  (0 < size → P (start, size)) →
  Forall P (free_space w) →
  Forall P (free_space (_release_space start size w).2).
Proof.
  intros Hmerge Hnew Hfs. rewrite release_free_space.
  case_bool_decide; [done|].
  assert (Forall P (sort (free_space w ++ [(start, size)]))) as Hsorted.
  { unfold sort. rewrite merge_sort_Permutation.
    apply Forall_app. split; [done|]. constructor; [|done]. apply Hnew. lia. }
  destruct (sort _) as [|cur rest]; [done|]. simpl.
  apply Forall_cons in Hsorted as [? ?]. by apply coalesce_from_Forall.
Qed.

Lemma coalesce_from_not_nil rest : ∀ cur, coalesce_from cur rest ≠ [].
Proof.
  induction rest as [|nxt rest IH]; intros cur; simpl; [done|].
  case_bool_decide; [apply IH|done].
Qed.

Lemma release_not_nil start size w :
  free_space w ≠ [] → free_space (_release_space start size w).2 ≠ [].
Proof.
  intros Hne. rewrite release_free_space. case_bool_decide; [done|].
  destruct (sort _) as [|cur rest] eqn:Hsort; [|apply coalesce_from_not_nil].
  apply (f_equal length) in Hsort. revert Hsort. unfold sort.
  rewrite merge_sort_Permutation, length_app. simpl. lia.
Qed.

Lemma release_other_fields start size w :
  records (_release_space start size w).2 = records w
  ∧ max_size (_release_space start size w).2 = max_size w
  ∧ used_size (_release_space start size w).2
    = if bool_decide (size ≤ 0) then used_size w else used_size w - size.
Proof. unfold _release_space. by case_bool_decide. Qed.

Lemma origin_allocate : ensures at_origin (_allocate_space 0) (λ start, start = 0).
Proof.
  intros w (Hfree & Hrec & Hused & Hroom).
  destruct (allocate_cases 0 (free_space w)) as [Hnone|(i & b & Hbest)].
  { by rewrite (allocate_fails _ _ Hnone). }
  rewrite (allocate_takes _ _ _ _ Hbest). cbn [fst snd].
  destruct Hbest as (Hi & Hfit & _).
  assert (b.1 = 0) as Hb.
  { rewrite Forall_forall in Hfree. by eapply Hfree, list_elem_of_lookup_2. }
  split; [|by intros ? [= <-]].
  unfold at_origin, taken. fields. split_and!.
  - case_bool_decide; [by apply Forall_delete|].
    apply Forall_insert; [done|]. simpl. lia.
  - done.
  - lia.
  - intros Hpos. destruct (Hroom Hpos) as [Hne Hsizes].
    assert (0 < b.2) as Hb2.
    { rewrite Forall_forall in Hsizes. by eapply Hsizes, list_elem_of_lookup_2. }
    rewrite bool_decide_eq_false_2 by lia. split.
    + intros Hnil. apply (f_equal length) in Hnil.
      rewrite length_insert in Hnil. by destruct (free_space w).
    + apply Forall_insert; [done|]. simpl. lia.
Qed.

Lemma origin_release start size :
  start = 0 → ensures at_origin (_release_space start size) (λ _, True).
Proof.
  intros -> w (Hfree & Hrec & Hused & Hroom). split; [|done].
  destruct (release_other_fields 0 size w) as (Hr & Hmax & Hu).
  unfold at_origin. rewrite Hr, Hmax, Hu. split_and!.
  - apply release_Forall; [by intros [] []|done..].
  - done.
  - case_bool_decide; lia.
  - intros Hpos. destruct (Hroom Hpos) as [Hne Hsizes]. split.
    + by apply release_not_nil.
    + apply release_Forall; [|done..]. intros [] []. simpl. lia.
Qed.

Lemma origin_new_record m :
  f_start_pos m = 0 → ensures at_origin (new_record m) (λ _, True).
Proof.
  intros Hm w (Hfree & Hrec & Hused & Hroom). split; [|done].
  unfold at_origin, new_record. run_monad. split_and!; try done.
  apply Forall_app. split; [done|]. by constructor.
Qed.

Lemma origin_update_record r g :
  (∀ m, f_start_pos (g m) = f_start_pos m) →
  ensures at_origin (update_record r g) (λ _, True).
Proof.
  intros Hg. apply ensures_modify. intros w (Hfree & Hrec & Hused & Hroom).
  unfold at_origin. fields. split_and!; try done.
  apply Forall_alter; [done|]. intros m. by rewrite Hg.
Qed.

Lemma origin_get_record r :
  ensures at_origin (get_record r) (λ m, f_start_pos m = 0).
Proof.
  apply ensures_gets. intros w (_ & Hrec & _).
  destruct (records w !! r) as [m|] eqn:Hm.
  - rewrite (list_lookup_total_correct _ _ _ Hm).
    rewrite Forall_forall in Hrec. by eapply Hrec, list_elem_of_lookup_2.
  - by rewrite list_lookup_total_alt, Hm.
Qed.

End origin.

(** Walks through a method, keeping [at_origin]. *)
Ltac origin_step :=
  lazymatch goal with
  | |- ensures _ _save_metadata _ => by apply (ensures_ret _ _ (λ _, True))
  | |- ensures _ (mret _) _ =>
      first [by apply ensures_ret | by apply (ensures_ret _ _ (λ _, True))]
  | |- ensures _ (raise _) _ => apply ensures_raise
  | |- ensures _ (void _) _ => eapply ensures_void
  | |- ensures _ (get_record _) _ => apply origin_get_record
  | |- ensures _ (gets _) _ => by apply (ensures_gets _ _ (λ _, True))
  | |- ensures _ (update_record _ _) _ => by apply origin_update_record
  | |- ensures _ (_allocate_space 0) _ => apply origin_allocate
  | |- ensures _ (new_record _) _ => by apply origin_new_record
  | |- ensures _ (_release_space _ _) _ => by apply origin_release
  | |- ensures _ (modify _) _ => apply ensures_modify; intros ? ?; assumption
  | |- ensures _ (_ ≫= _) _ => eapply ensures_bind; [|intros ? ?]
  | |- ensures _ (if ?b then _ else _) _ => destruct b
  | |- ensures _ (match ?x with _ => _ end) _ => destruct x
  end.

Section origin_reachable.

Implicit Types (w : FileSystem) (m : file_meta).

Lemma origin_run now c : ensures at_origin (run now c) (λ _, True).
Proof.
  destruct c; simpl;
    unfold create, delete, mkdir, chdir, move, open, close, write_to_file,
      write_to_file_at, read_from_file, read_from_file_at, move_within_file,
      truncate_file, FileObject_init, get_current_directory_meta, get_object,
      files_item, seek, read;
    repeat origin_step.
Qed.

Lemma reachable_at_origin capacity w : reachable capacity w → at_origin w.
Proof.
  induction 1 as [now|w now c Hw IH|w s r Hw IH].
  - unfold at_origin. simpl. split_and!; try done.
    + by repeat constructor.
    + intros Hpos. split; [done|]. by repeat constructor.
  - by apply (ensures_run _ _ _ _ (origin_run now c)).
  - exact IH.
Qed.

Lemma reachable_max_size capacity w : reachable capacity w → max_size w = capacity.
Proof.
  induction 1 as [now|w now c Hw IH|w s r Hw IH]; [done| |exact IH].
  pose proof (accounted_run now c w) as Hacc.
  apply (f_equal fst) in Hacc. simpl in Hacc. by rewrite Hacc.
Qed.

Lemma origin_lookup_total w r : at_origin w → f_start_pos (records w !!! r) = 0.
Proof. intros Hw. by apply (origin_get_record r w Hw). Qed.

End origin_reachable.

(** ** [truncate_file] *)

Section handle.

Implicit Types (w : FileSystem) (o : FileObject) (m : file_meta).

Lemma truncate_noop now w h o m n :
  bound w h o m → mode o = "w" → 0 ≤ n → f_size m ≤ n →
  truncate_file now h n w = (Ok tt, w).
Proof.
  intros Hb Hmode Hn Hsize. pose proof Hb as (Ho & Hm & Hf).
  unfold truncate_file, get_object, get_record. run_monad. rewrite Ho. simpl.
  rewrite bool_decide_eq_false_2 by (by rewrite Hmode; intros []).
  rewrite bool_decide_eq_false_2 by lia.
  rewrite (list_lookup_total_correct _ _ _ Hm).
  by rewrite bool_decide_eq_true_2.
Qed.

Lemma truncate_cuts now w h o m n :
  bound w h o m → mode o = "w" → 0 ≤ n → n < f_size m →
  truncate_file now h n w
    = (Ok tt,
       set_records
         (λ rs, <[file_meta_ref o := with_modified_time now (with_size n m)]> rs) w).
Proof.
  intros Hb Hmode Hn Hsize. pose proof Hb as (Ho & Hm & Hf).
  unfold truncate_file, get_object, get_record, update_record, files_item, _save_metadata.
  run_monad. rewrite Ho. simpl.
  rewrite bool_decide_eq_false_2 by (by rewrite Hmode; intros []).
  rewrite bool_decide_eq_false_2 by lia.
  rewrite (list_lookup_total_correct _ _ _ Hm).
  rewrite bool_decide_eq_false_2 by lia.
  repeat (rewrite Hf; simpl). f_equal. unfold set_records. simpl. f_equal.
  apply list_eq. intros i. destruct (decide (i = file_meta_ref o)) as [->|Hne].
  - rewrite !list_lookup_alter_eq, Hm. simpl.
    rewrite list_lookup_insert_eq by (by eapply lookup_lt_Some). done.
  - rewrite !list_lookup_alter_ne, list_lookup_insert_ne by done. done.
Qed.

Lemma size_of_bound w h o m (g : list file_meta → list file_meta) m' :
  bound w h o m → g (records w) !! file_meta_ref o = Some m' →
  size_of (set_records g w) (file_name o) = Some (f_size m').
Proof.
  intros (_ & _ & Hf) Hm'. unfold size_of. simpl. rewrite Hf. simpl.
  by rewrite (list_lookup_total_correct _ _ _ Hm').
Qed.

(** [truncate_file] on any object bound to its record. *)
Lemma truncate_bound now w h o m n :
  bound w h o m → mode o = "w" → 0 ≤ n →
  let w' := (truncate_file now h n w).2 in
  (truncate_file now h n w).1 = Ok tt
  ∧ (f_size m ≤ n → w' = w)
  ∧ (n < f_size m → size_of w' (file_name o) = Some n)
  ∧ start_pos_of w' (file_name o) = start_pos_of w (file_name o)
  ∧ files w' = files w
  ∧ free_space w' = free_space w
  ∧ used_size w' = used_size w
  ∧ ∀ now', truncate_file now' h n w' = (Ok tt, w').
Proof.
  intros Hb Hmode Hn w'. pose proof Hb as (Ho & Hm & Hf).
  destruct (decide (f_size m ≤ n)) as [Hle|Hgt].
  - subst w'. rewrite (truncate_noop now w h o m n) by done. simpl.
    split_and!; try done; try lia.
    intros now'. by apply (truncate_noop now' w h o m n).
  - subst w'. rewrite (truncate_cuts now w h o m n) by (done || lia). simpl.
    assert (<[file_meta_ref o := with_modified_time now (with_size n m)]> (records w)
              !! file_meta_ref o = Some (with_modified_time now (with_size n m))) as Hm'
      by (apply list_lookup_insert_eq; by eapply lookup_lt_Some).
    split_and!; try done; try lia.
    + intros _.
      exact (size_of_bound w h o m
               (λ rs, <[file_meta_ref o := with_modified_time now (with_size n m)]> rs)
               _ Hb Hm').
    + unfold start_pos_of. simpl. rewrite Hf. simpl.
      by rewrite (list_lookup_total_correct _ _ _ Hm'),
                 (list_lookup_total_correct _ _ _ Hm).
    + intros now'. apply (truncate_noop now' _ h o (with_modified_time now (with_size n m)));
        [by split_and!|done|done|simpl; lia].
Qed.

(** C7.  In every state the engine can reach, for a [FileObject] in
    [open_files] that was opened for writing, [truncate_file max_size]
    returns without changing anything when the size of the file is at
    most [max_size], and otherwise sets the size to [max_size]; either
    way [start_pos], the free list and [used_size] stay as they were, so
    no byte of the segment goes back to the allocator.  A second call with
    the same [max_size] changes nothing: the size after two calls is the
    size after one. *)
Theorem C7_truncate_sets_only_the_size capacity now w name h o n :
  reachable capacity w →
  open_files w !! name = Some h → objects w !! h = Some o → mode o = "w" →
  0 ≤ n →
  let w' := (truncate_file now h n w).2 in
  ∃ sz, size_of w name = Some sz
    ∧ (truncate_file now h n w).1 = Ok tt
    ∧ (sz ≤ n → w' = w)
    ∧ (n < sz → size_of w' name = Some n)
    ∧ start_pos_of w' name = start_pos_of w name
    ∧ free_space w' = free_space w
    ∧ used_size w' = used_size w
    ∧ ∀ now', truncate_file now' h n w' = (Ok tt, w').
Proof.
  intros Hw Hh Ho Hmode Hn w'.
  destruct (open_handle_bound _ _ _ _ _ Hw Hh Ho)
    as (m & Hb & <- & _ & _ & Hsz & _).
  destruct (truncate_bound now w h o m n Hb Hmode Hn)
    as (Hok & Hnoop & Hcut & Hstart & _ & Hfree & Hused & Hagain).
  exists (f_size m). by split_and!.
Qed.

(** A file of six bytes is cut to two. *)
Lemma C7_truncate_sets_only_the_size_witness :
  let w := after 1024 [(1, Create "a.txt"); (2, Open "a.txt" "w");
                       (3, Append 0%nat (str_of "abcdef"))] in
  let w' := (truncate_file 4 0 2 w).2 in
  size_of w "a.txt" = Some 6
  ∧ size_of w' "a.txt" = Some 2
  ∧ free_space w' = free_space w
  ∧ used_size w' = used_size w
  ∧ truncate_file 5 0 2 w' = (Ok tt, w').
Proof.
  intros w w'.
  destruct (C7_truncate_sets_only_the_size 1024 4 w "a.txt" 0
              (MkFileObject "a.txt" "w" 0 (str_of "abcdef")) 2)
    as (sz & Hsz & _ & _ & Hsize & _ & Hfree & Hused & Hagain);
    [apply reachable_after|reflexivity|reflexivity|reflexivity|lia|].
  assert (sz = 6) as -> by (by vm_compute in Hsz; injection Hsz).
  split_and!; [reflexivity|apply Hsize; lia|exact Hfree|exact Hused|apply Hagain].
Defined.

End handle.

(** ** [write_to_file_at] *)

Section positional.

Implicit Types (w : FileSystem) (o : FileObject) (m : file_meta).

Lemma write_at_negative now w h o m write_at text :
  bound w h o m → mode o = "w" → write_at < 0 →
  write_to_file_at now h write_at text w = (Raise InvalidArgument, w).
Proof.
  intros (Ho & Hm & Hf) Hmode Hneg. unfold write_to_file_at.
  step. decide_false. by decide_true.
Qed.

Lemma write_at_runs now w h o m write_at text bs :
  bound w h o m → mode o = "w" → 0 ≤ write_at → encode text = Some bs →
  0 ≤ f_start_pos m → f_start_pos m + write_at ≤ seek_bound w →
  write_to_file_at now h write_at text w
    = (Ok tt,
       set_data_file (λ d, file_write d (f_start_pos m + write_at) bs)
         (set_records
            (λ rs, <[file_meta_ref o :=
                       with_modified_time now
                         (with_size (Z.max (f_size m) (write_at + Z.of_nat (length bs))) m)]> rs)
            w)).
Proof.
  intros (Ho & Hm & Hf) Hmode Hpos Henc Hstart Htop.
  pose proof (lookup_lt_Some _ _ _ Hm) as Hlt.
  unfold write_to_file_at.
  step. decide_false. decide_false. rewrite Henc. step.
  case_bool_decide as Hgrow.
  - do 3 step.
    step_with ltac:(eapply get_record_ok; fields;
                    rewrite !list_lookup_alter_eq, Hm; reflexivity).
    cbn [f_start_pos with_size]. do 5 step.
    unfold _save_metadata, mret, M_ret. f_equal.
    unfold set_data_file, set_records. fields. f_equal.
    rewrite (alter_as_insert _ _ _ _ Hm), !alter_insert by done.
    f_equal. unfold with_modified_time, with_size. simpl. f_equal. lia.
  - do 2 step. do 5 step.
    unfold _save_metadata, mret, M_ret. f_equal.
    unfold set_data_file, set_records. fields. f_equal.
    rewrite (alter_as_insert _ _ _ _ Hm), !alter_insert by done.
    f_equal. unfold with_modified_time, with_size. destruct m. simpl in *. f_equal. lia.
Qed.

(** An offset that [df.seek] refuses: the size has been set, nothing is
    written and the time of modification stays. *)
Lemma write_at_refused now w h o m write_at text bs :
  bound w h o m → mode o = "w" → 0 ≤ write_at → encode text = Some bs →
  seek_bound w < f_start_pos m + write_at →
  write_to_file_at now h write_at text w
    = (Raise OutOfRange,
       set_records
         (λ rs, <[file_meta_ref o :=
                    with_size (Z.max (f_size m) (write_at + Z.of_nat (length bs))) m]> rs)
         w).
Proof.
  intros (Ho & Hm & Hf) Hmode Hpos Henc Htop.
  pose proof (lookup_lt_Some _ _ _ Hm) as Hlt.
  unfold write_to_file_at.
  step. decide_false. decide_false. rewrite Henc. step.
  case_bool_decide as Hgrow.
  - do 3 step.
    step_with ltac:(eapply get_record_ok; fields;
                    rewrite !list_lookup_alter_eq, Hm; reflexivity).
    cbn [f_start_pos with_size].
    erewrite bind_raise by (apply seek_refused; limits; lia).
    f_equal. unfold set_records. fields. f_equal.
    rewrite (alter_as_insert _ _ _ _ Hm), !alter_insert by done.
    f_equal. unfold with_size. simpl. f_equal. lia.
  - do 2 step.
    erewrite bind_raise by (apply seek_refused; limits; lia).
    f_equal. destruct w. unfold set_records. fields. simpl in *. f_equal.
    rewrite list_insert_id; [done|]. rewrite Hm. f_equal.
    unfold with_size. destruct m. simpl in *. f_equal. lia.
Qed.

(** [write_to_file_at] on any object bound to its record. *)
Lemma write_at_bound now w h o m write_at text bs :
  bound w h o m → mode o = "w" → 0 ≤ write_at → encode text = Some bs →
  0 ≤ f_start_pos m →
  let w' := (write_to_file_at now h write_at text w).2 in
  let end_pos := write_at + Z.of_nat (length bs) in
  (f_start_pos m + write_at ≤ seek_bound w →
     (write_to_file_at now h write_at text w).1 = Ok tt)
  ∧ (seek_bound w < f_start_pos m + write_at →
       (write_to_file_at now h write_at text w).1 = Raise OutOfRange
       ∧ data_file w' = data_file w)
  ∧ (end_pos > f_size m → size_of w' (file_name o) = Some end_pos)
  ∧ (end_pos ≤ f_size m → size_of w' (file_name o) = Some (f_size m)).
Proof.
  intros Hb Hmode Hpos Henc Hstart w' end_pos. subst w'.
  pose proof Hb as (Ho & Hm & Hf).
  assert (∀ n d, size_of
            (set_data_file d
               (set_records
                  (λ rs, <[file_meta_ref o :=
                             with_modified_time now (with_size n m)]> rs) w))
            (file_name o) = Some n) as Hsize.
  { intros n d. unfold size_of. fields. rewrite Hf. simpl.
    by rewrite list_lookup_total_insert_eq by (by eapply lookup_lt_Some). }
  assert (∀ n, size_of
            (set_records (λ rs, <[file_meta_ref o := with_size n m]> rs) w)
            (file_name o) = Some n) as Hsize'.
  { intros n. unfold size_of. fields. rewrite Hf. simpl.
    by rewrite list_lookup_total_insert_eq by (by eapply lookup_lt_Some). }
  destruct (decide (f_start_pos m + write_at ≤ seek_bound w)) as [Htop|Htop].
  - rewrite (write_at_runs now w h o m write_at text bs) by done.
    split_and!; [done|intros; lia|..]; intros; fields; rewrite Hsize; f_equal; lia.
  - rewrite (write_at_refused now w h o m write_at text bs) by (done || lia).
    split_and!; [intros; lia|done|..]; intros; fields; rewrite Hsize'; f_equal; lia.
Qed.

(** C5.  In every state the engine can reach, for a [FileObject] in
    [open_files] that was opened for writing, [write_to_file_at] raises
    InvalidArgument, changing nothing, when the offset is negative.
    Otherwise, when the offset plus the number of bytes of the text
    exceeds the size of the file, the size becomes that sum (and stays
    what it was when it does not), whether the call returns or the file
    layer refuses the offset: the call returns when the bytes written end
    within the offsets the platform takes, and raises, with the size set
    all the same, when the offset is beyond them.  In particular, on a
    file just created, writing "xyz" at offset 10 makes the size 13. *)
Theorem C5_write_at_extends_the_size :
  (∀ capacity now w name h o write_at text,
     reachable capacity w →
     open_files w !! name = Some h → objects w !! h = Some o → mode o = "w" →
     (write_at < 0 →
        write_to_file_at now h write_at text w = (Raise InvalidArgument, w))
     ∧ (∀ bs, 0 ≤ write_at → encode text = Some bs →
          let w' := (write_to_file_at now h write_at text w).2 in
          let end_pos := write_at + Z.of_nat (length bs) in
          ∃ sz, size_of w name = Some sz
            ∧ (end_pos ≤ seek_bound w →
                 (write_to_file_at now h write_at text w).1 = Ok tt)
            ∧ (seek_bound w < write_at →
                 (write_to_file_at now h write_at text w).1 = Raise OutOfRange)
            ∧ (end_pos > sz → size_of w' name = Some end_pos)
            ∧ (end_pos ≤ sz → size_of w' name = Some sz)))
  ∧ size_of (after 1024 [(1, Create "b.txt"); (2, Open "b.txt" "w");
                         (3, WriteAt 0%nat 10 (str_of "xyz"))]) "b.txt"
      = Some 13.
Proof.
  split; [|reflexivity].
  intros capacity now w name h o write_at text Hw Hh Ho Hmode.
  destruct (open_handle_bound _ _ _ _ _ Hw Hh Ho)
    as (m & Hb & <- & Hstart & _ & Hsz & _).
  assert (f_start_pos m = 0) as Hzero.
  { destruct Hb as (_ & Hm & _).
    rewrite <- (list_lookup_total_correct _ _ _ Hm).
    eapply origin_lookup_total, reachable_at_origin, Hw. }
  split.
  - by apply (write_at_negative now w h o m).
  - intros bs Hpos Henc w' end_pos. exists (f_size m).
    destruct (write_at_bound now w h o m write_at text bs)
      as (Hok & Hno & Hgrow & Hstay); [done..|].
    rewrite Hzero in Hok, Hno.
    split_and!; [done| |intros; apply Hno; lia|done|done].
    intros Hend. apply Hok. subst end_pos. lia.
Qed.

(** The handle of the file "b.txt", just created and opened for writing. *)
Lemma C5_write_at_extends_the_size_witness :
  let w := after 1024 [(1, Create "b.txt"); (2, Open "b.txt" "w")] in
  write_to_file_at 3 0 (-1) (str_of "xyz") w = (Raise InvalidArgument, w)
  ∧ (write_to_file_at 3 0 10 (str_of "xyz") w).1 = Ok tt
  ∧ size_of (write_to_file_at 3 0 10 (str_of "xyz") w).2 "b.txt" = Some 13.
Proof.
  intros w.
  destruct C5_write_at_extends_the_size as [Hgen _].
  destruct (Hgen 1024 3 w "b.txt" 0%nat (MkFileObject "b.txt" "w" 0 []) (-1)
              (str_of "xyz"))
    as [Hneg _]; [apply reachable_after|reflexivity|reflexivity|reflexivity|].
  destruct (Hgen 1024 3 w "b.txt" 0%nat (MkFileObject "b.txt" "w" 0 []) 10
              (str_of "xyz"))
    as [_ Hrun]; [apply reachable_after|reflexivity|reflexivity|reflexivity|].
  destruct (Hrun (default [] (encode (str_of "xyz"))))
    as (sz & Hsz & Hok & _ & Hgrow & _); [lia|reflexivity|].
  assert (sz = 0) as -> by (by vm_compute in Hsz; injection Hsz).
  split_and!; [apply Hneg; lia|apply Hok; by vm_compute|apply Hgrow; simpl; lia].
Defined.

End positional.

(** ** [move_within_file] *)

Section move_within.

Implicit Types (w : FileSystem) (o : FileObject) (m : file_meta).

Lemma move_within_noop now w h o m start size target :
  bound w h o m → mode o = "w" → 0 ≤ start → 0 ≤ size → 0 ≤ target →
  f_size m ≤ start →
  move_within_file now h start size target w = (Ok tt, w).
Proof.
  intros (Ho & Hm & Hf) Hmode Hstart Hsize Htarget Hend.
  unfold move_within_file. step. decide_false.
  rewrite !bool_decide_eq_false_2 by lia. simpl.
  step. by decide_true.
Qed.

(** What the method comes to once the guards are passed: [n] bytes are
    read at [start], the size is raised, and the bytes are written at
    [target]. *)
Lemma move_within_body now w h o m start size target :
  bound w h o m → mode o = "w" → 0 ≤ start → 0 ≤ size → 0 ≤ target →
  start < f_size m →
  let n := Z.min size (f_size m - start) in
  move_within_file now h start size target w
    = (seek (f_start_pos m + start);;
       moved ← read (f_start_pos m + start) n;
       let new_size := Z.max (f_size m) (target + n) in
       (if bool_decide (new_size > f_size m) then
          update_record (file_meta_ref o) (with_size new_size);;
          r ← files_item (file_name o);
          update_record r (with_size new_size)
        else mret tt);;
       m ← get_record (file_meta_ref o);
       seek (f_start_pos m + target);;
       modify (set_data_file (λ d, file_write d (f_start_pos m + target) moved));;
       update_record (file_meta_ref o) (with_modified_time now);;
       r ← files_item (file_name o);
       update_record r (with_modified_time now);;
       _save_metadata) w.
Proof.
  intros (Ho & Hm & Hf) Hmode Hstart Hsize Htarget Hin n.
  unfold move_within_file. step. decide_false.
  rewrite !bool_decide_eq_false_2 by lia. simpl.
  step. decide_false.
  assert ((if bool_decide (start + size > f_size m) then f_size m - start else size)
          = n) as -> by (subst n; case_bool_decide; lia).
  done.
Qed.

Lemma move_within_runs now w h o m start size target :
  bound w h o m → mode o = "w" → 0 ≤ start → 0 ≤ size → 0 ≤ target →
  0 ≤ f_start_pos m → start < f_size m →
  let n := Z.min size (f_size m - start) in
  f_start_pos m + start ≤ seek_bound w → n ≤ read_bound w →
  f_start_pos m + target ≤ seek_bound w →
  move_within_file now h start size target w
    = (Ok tt,
       set_data_file
         (λ d, file_write d (f_start_pos m + target)
                 (file_read (data_file w) (f_start_pos m + start) n))
         (set_records
            (λ rs, <[file_meta_ref o :=
                       with_modified_time now
                         (with_size (Z.max (f_size m) (target + n)) m)]> rs)
            w)).
Proof.
  intros Hb Hmode Hstart Hsize Htarget Hpos Hin n Hfrom Hread Hto.
  rewrite (move_within_body now w h o m start size target) by done. fold n.
  destruct Hb as (Ho & Hm & Hf).
  pose proof (lookup_lt_Some _ _ _ Hm) as Hlt.
  step. step_with ltac:(eapply read_ok; limits; lia).
  case_bool_decide as Hgrow.
  - do 3 step.
    step_with ltac:(eapply get_record_ok; fields;
                    rewrite !list_lookup_alter_eq, Hm; reflexivity).
    cbn [f_start_pos with_size]. do 5 step.
    unfold _save_metadata, mret, M_ret. f_equal.
    unfold set_data_file, set_records. fields. f_equal.
    rewrite (alter_as_insert _ _ _ _ Hm), !alter_insert by done.
    f_equal.
  - do 2 step. do 5 step.
    unfold _save_metadata, mret, M_ret. f_equal.
    unfold set_data_file, set_records. fields. f_equal.
    rewrite (alter_as_insert _ _ _ _ Hm), !alter_insert by done.
    f_equal. unfold with_modified_time, with_size. destruct m. simpl in *.
    f_equal. lia.
Qed.

(** The bytes cannot be read, the offset or the number of them being
    beyond what the platform takes: nothing changes. *)
Lemma move_within_unread now w h o m start size target :
  bound w h o m → mode o = "w" → 0 ≤ start → 0 ≤ size → 0 ≤ target →
  0 ≤ f_start_pos m → start < f_size m →
  let n := Z.min size (f_size m - start) in
  seek_bound w < f_start_pos m + start ∨ read_bound w < n →
  move_within_file now h start size target w = (Raise OutOfRange, w).
Proof.
  intros Hb Hmode Hstart Hsize Htarget Hpos Hin n Hno.
  rewrite (move_within_body now w h o m start size target) by done. fold n.
  destruct (decide (seek_bound w < f_start_pos m + start)) as [Hfrom|Hfrom].
  { by erewrite bind_raise by (by apply seek_refused). }
  destruct Hno as [?|Hread]; [done|].
  step. by erewrite bind_raise by (by apply read_refused).
Qed.

(** The bytes are read and the target is an offset that [df.seek]
    refuses: the size has been raised, nothing is written. *)
Lemma move_within_refused now w h o m start size target :
  bound w h o m → mode o = "w" → 0 ≤ start → 0 ≤ size → 0 ≤ target →
  0 ≤ f_start_pos m → start < f_size m →
  let n := Z.min size (f_size m - start) in
  f_start_pos m + start ≤ seek_bound w → n ≤ read_bound w →
  seek_bound w < f_start_pos m + target →
  move_within_file now h start size target w
    = (Raise OutOfRange,
       set_records
         (λ rs, <[file_meta_ref o :=
                    with_size (Z.max (f_size m) (target + n)) m]> rs) w).
Proof.
  intros Hb Hmode Hstart Hsize Htarget Hpos Hin n Hfrom Hread Hto.
  rewrite (move_within_body now w h o m start size target) by done. fold n.
  destruct Hb as (Ho & Hm & Hf).
  pose proof (lookup_lt_Some _ _ _ Hm) as Hlt.
  step. step_with ltac:(eapply read_ok; limits; lia).
  case_bool_decide as Hgrow.
  - do 3 step.
    step_with ltac:(eapply get_record_ok; fields;
                    rewrite !list_lookup_alter_eq, Hm; reflexivity).
    cbn [f_start_pos with_size].
    erewrite bind_raise by (apply seek_refused; limits; lia).
    f_equal. unfold set_records. fields. f_equal.
    rewrite (alter_as_insert _ _ _ _ Hm), !alter_insert by done.
    done.
  - do 2 step.
    erewrite bind_raise by (apply seek_refused; limits; lia).
    f_equal. destruct w. unfold set_records. fields. simpl in *. f_equal.
    rewrite list_insert_id; [done|]. rewrite Hm. f_equal.
    unfold with_size. destruct m. simpl in *. f_equal. lia.
Qed.

(** [move_within_file] on any object bound to its record. *)
Lemma move_within_bound now w h o m start size target :
  bound w h o m → mode o = "w" → 0 ≤ start → 0 ≤ size → 0 ≤ target →
  0 ≤ f_start_pos m → start < f_size m →
  let w' := (move_within_file now h start size target w).2 in
  let n := Z.min size (f_size m - start) in
  (seek_bound w < f_start_pos m + start ∨ read_bound w < n →
     move_within_file now h start size target w = (Raise OutOfRange, w))
  ∧ (f_start_pos m + start ≤ seek_bound w → n ≤ read_bound w →
       (target + n > f_size m → size_of w' (file_name o) = Some (target + n))
       ∧ (target + n ≤ f_size m → size_of w' (file_name o) = Some (f_size m))
       ∧ (seek_bound w < f_start_pos m + target →
            (move_within_file now h start size target w).1 = Raise OutOfRange
            ∧ data_file w' = data_file w)
       ∧ (f_start_pos m + target ≤ seek_bound w →
            (move_within_file now h start size target w).1 = Ok tt
            ∧ data_file w'
                = file_write (data_file w) (f_start_pos m + target)
                    (file_read (data_file w) (f_start_pos m + start) n))).
Proof.
  intros Hb Hmode Hstart Hsize Htarget Hpos Hin w' n.
  split; [by apply (move_within_unread now w h o m)|].
  intros Hfrom Hread. subst w'.
  pose proof Hb as (Ho & Hm & Hf).
  assert (∀ k d, size_of
            (set_data_file d
               (set_records
                  (λ rs, <[file_meta_ref o :=
                             with_modified_time now (with_size k m)]> rs) w))
            (file_name o) = Some k) as Hk.
  { intros k d. unfold size_of. fields. rewrite Hf. simpl.
    by rewrite list_lookup_total_insert_eq by (by eapply lookup_lt_Some). }
  assert (∀ k, size_of
            (set_records (λ rs, <[file_meta_ref o := with_size k m]> rs) w)
            (file_name o) = Some k) as Hk'.
  { intros k. unfold size_of. fields. rewrite Hf. simpl.
    by rewrite list_lookup_total_insert_eq by (by eapply lookup_lt_Some). }
  destruct (decide (f_start_pos m + target ≤ seek_bound w)) as [Hto|Hto].
  - rewrite (move_within_runs now w h o m start size target) by done.
    split_and!; [| |intros; lia|done];
      intros; fields; rewrite Hk; f_equal; lia.
  - rewrite (move_within_refused now w h o m start size target) by (done || lia).
    split_and!; [| |done|intros; lia];
      intros; fields; rewrite Hk'; f_equal; lia.
Qed.

(** C6, as amended.  In every state the engine can reach, for a
    [FileObject] in [open_files] that was opened for writing, and with
    arguments that are not negative, [move_within_file start size target]
    changes nothing when [start] is at or past the end of the file.
    Otherwise it moves [n] bytes, [n] being [size] cut down to what the
    file holds from [start] on.  When the platform does not take the
    offset to read at, or the number [n] of bytes, the call raises and
    changes nothing.  When it takes them, and [target + n] exceeds the
    size of the file, the size becomes [target + n] (and stays what it was
    when it does not); the call then returns, with the bytes read written
    at [target], when they end within the offsets the platform takes, and
    raises, with nothing written, when [target] is beyond them.  On a
    file holding "abcdefghij", moving 4 bytes from 0 to 100 makes the size
    104, puts "abcd" at offsets 100 to 103 and leaves bytes 0 to 9 as
    they were. *)
Theorem C6_move_within_extends_by_the_bytes_moved :
  (∀ capacity now w name h o start size target,
     reachable capacity w →
     open_files w !! name = Some h → objects w !! h = Some o → mode o = "w" →
     0 ≤ start → 0 ≤ size → 0 ≤ target →
     let w' := (move_within_file now h start size target w).2 in
     ∃ sz pos, size_of w name = Some sz ∧ start_pos_of w name = Some pos
       ∧ let n := Z.min size (sz - start) in
         (sz ≤ start →
            move_within_file now h start size target w = (Ok tt, w))
         ∧ (start < sz →
              (seek_bound w < pos + start ∨ read_bound w < n →
                 move_within_file now h start size target w
                   = (Raise OutOfRange, w))
              ∧ (pos + start ≤ seek_bound w → n ≤ read_bound w →
                   (target + n > sz → size_of w' name = Some (target + n))
                   ∧ (target + n ≤ sz → size_of w' name = Some sz)
                   ∧ (seek_bound w < pos + target →
                        (move_within_file now h start size target w).1
                          = Raise OutOfRange
                        ∧ data_file w' = data_file w)
                   ∧ (pos + target + n ≤ seek_bound w →
                        (move_within_file now h start size target w).1 = Ok tt
                        ∧ data_file w'
                            = file_write (data_file w) (pos + target)
                                (file_read (data_file w) (pos + start) n)))))
  ∧ (let w := after 1024 [(1, Create "d.txt"); (2, Open "d.txt" "w");
                          (3, Append 0%nat (str_of "abcdefghij"))] in
     let w' := (move_within_file 4 0 0 4 100 w).2 in
     size_of w "d.txt" = Some 10
     ∧ size_of w' "d.txt" = Some 104
     ∧ file_read (data_file w') 100 4 = ["a"; "b"; "c"; "d"]%byte
     ∧ file_read (data_file w') 0 10 = file_read (data_file w) 0 10
     ∧ file_read (data_file w) 0 10
         = ["a"; "b"; "c"; "d"; "e"; "f"; "g"; "h"; "i"; "j"]%byte).
Proof.
  split; [|by vm_compute].
  intros capacity now w name h o start size target Hw Hh Ho Hmode
    Hstart Hsize Htarget w'.
  destruct (open_handle_bound _ _ _ _ _ Hw Hh Ho)
    as (m & Hb & <- & Hpos & _ & Hsz & Hsp).
  exists (f_size m), (f_start_pos m). split_and!; [done|done|].
  intros n. split.
  - by apply (move_within_noop now w h o m).
  - intros Hin.
    destruct (move_within_bound now w h o m start size target)
      as [Hunread Hread]; [done..|].
    split; [exact Hunread|]. intros Hfrom Hn.
    destruct (Hread Hfrom Hn) as (Hgrow & Hstay & Hno & Hok).
    split_and!; [done|done|done|].
    intros Hend. apply Hok. subst n. lia.
Qed.

Lemma C6_move_within_extends_by_the_bytes_moved_witness :
  let w := after 1024 [(1, Create "d.txt"); (2, Open "d.txt" "w");
                       (3, Append 0%nat (str_of "abcdefghij"))] in
  move_within_file 4 0 10 4 100 w = (Ok tt, w)
  ∧ (move_within_file 4 0 8 4 100 w).1 = Ok tt
  ∧ size_of (move_within_file 4 0 8 4 100 w).2 "d.txt" = Some 102.
Proof.
  intros w.
  destruct C6_move_within_extends_by_the_bytes_moved as [Hgen _].
  split.
  - destruct (Hgen 1024 4 w "d.txt" 0%nat
                (MkFileObject "d.txt" "w" 0 (str_of "abcdefghij")) 10 4 100)
      as (sz & pos & Hsz & _ & Hnoop & _);
      [apply reachable_after|reflexivity|reflexivity|reflexivity|lia..|].
    assert (sz = 10) as -> by (by vm_compute in Hsz; injection Hsz).
    apply Hnoop. lia.
  - destruct (Hgen 1024 4 w "d.txt" 0%nat
                (MkFileObject "d.txt" "w" 0 (str_of "abcdefghij")) 8 4 100)
      as (sz & pos & Hsz & Hpos & _ & Hrun);
      [apply reachable_after|reflexivity|reflexivity|reflexivity|lia..|].
    assert (sz = 10) as -> by (by vm_compute in Hsz; injection Hsz).
    assert (pos = 0) as -> by (by vm_compute in Hpos; injection Hpos).
    destruct Hrun as (_ & Hread); [lia|].
    destruct Hread as (Hgrow & _ & _ & Hok); [by vm_compute..|].
    split; [apply Hok; by vm_compute|apply Hgrow; lia].
Defined.

(** C6 as it is written fails: the size asked for is cut down to the end
    of the file before the new size is computed.  On a file of 10 bytes,
    moving 100 bytes from 0 to 5 gives size 15, not 105. *)
Lemma C6_size_argument_is_clamped :
  let w := after 1024 [(1, Create "d.txt"); (2, Open "d.txt" "w");
                       (3, Append 0%nat (str_of "abcdefghij"))] in
  let w' := (move_within_file 4 0 0 100 5 w).2 in
  size_of w "d.txt" = Some 10
  ∧ 5 + 100 > 10
  ∧ size_of w' "d.txt" = Some 15
  ∧ size_of w' "d.txt" ≠ Some (5 + 100).
Proof. by vm_compute. Qed.

End move_within.

(** ** UTF-8 and trailing NUL characters *)

Section utf8.

Implicit Types (bs : list byte) (s : str).

Lemma list_length_induction {A} (P : list A → Prop) :
  (∀ l, (∀ k, (length k < length l)%nat → P k) → P l) → ∀ l, P l.
Proof.
  intros Hstep l. remember (length l) as n eqn:Hn. revert l Hn.
  induction n as [n IH] using lt_wf_ind. intros l ->.
  apply Hstep. intros k Hk. by apply (IH (length k)).
Qed.

Lemma fmap_cons_Some (c : N) (o : option str) s :
  cons c <$> o = Some s → ∃ t, o = Some t ∧ s = c :: t.
Proof. destruct o as [t|]; [|done]. intros [= <-]. by exists t. Qed.

(** One decoding step: the first character takes one to four bytes, and
    what follows is decoded the same way. *)
Lemma decode_step bs s :
  decode bs = Some s → bs ≠ [] →
  ∃ c t pre rest, s = c :: t ∧ bs = pre ++ rest ∧ pre ≠ [] ∧ decode rest = Some t
    ∧ (∀ b, pre = [b] → c = Byte.to_N b)
    ∧ (∀ b, b ∈ tail pre → is_cont b = true).
Proof.
  intros Hdec Hne. destruct bs as [|b0 r1]; [done|]. simpl in Hdec.
  case_bool_decide.
  { apply fmap_cons_Some in Hdec as (t & Ht & ->).
    exists (Byte.to_N b0), t, [b0], r1. split_and!; try done.
    - by intros b [= <-].
    - intros b Hb. simpl in Hb. by apply elem_of_nil in Hb. }
  destruct r1 as [|b1 r2]; [done|].
  destruct (is_cont b1) eqn:Hc1; [|done]. simpl in Hdec.
  destruct (bool_decide (192 ≤ Byte.to_N b0)%N && bool_decide (Byte.to_N b0 < 224)%N).
  { case_bool_decide; [done|].
    apply fmap_cons_Some in Hdec as (t & Ht & ->).
    eexists _, t, [b0; b1], r2. split_and!; try done.
    intros b Hb. simpl in Hb. by apply list_elem_of_singleton in Hb as ->. }
  destruct r2 as [|b2 r3]; [done|].
  destruct (is_cont b2) eqn:Hc2; [|done]. simpl in Hdec.
  destruct (bool_decide (224 ≤ Byte.to_N b0)%N && bool_decide (Byte.to_N b0 < 240)%N).
  { destruct (_ || _); [done|].
    apply fmap_cons_Some in Hdec as (t & Ht & ->).
    eexists _, t, [b0; b1; b2], r3. split_and!; try done.
    intros b Hb. simpl in Hb.
    apply elem_of_cons in Hb as [->|Hb]; [done|].
    by apply list_elem_of_singleton in Hb as ->. }
  destruct r3 as [|b3 r4]; [done|].
  destruct (is_cont b3) eqn:Hc3; [|done]. simpl in Hdec.
  destruct (bool_decide (240 ≤ Byte.to_N b0)%N && bool_decide (Byte.to_N b0 < 248)%N);
    [|done].
  destruct (_ || _); [done|].
  apply fmap_cons_Some in Hdec as (t & Ht & ->).
  eexists _, t, [b0; b1; b2; b3], r4. split_and!; try done.
  intros b Hb. simpl in Hb.
  apply elem_of_cons in Hb as [->|Hb]; [done|].
  apply elem_of_cons in Hb as [->|Hb]; [done|].
  by apply list_elem_of_singleton in Hb as ->.
Qed.

(** A string has at most as many characters as bytes. *)
Lemma decode_length bs : ∀ s, decode bs = Some s → (length s ≤ length bs)%nat.
Proof.
  induction bs as [bs IH] using list_length_induction. intros s Hdec.
  destruct (decide (bs = [])) as [->|Hne].
  { simpl in Hdec. by injection Hdec as <-. }
  destruct (decode_step bs s Hdec Hne)
    as (c & t & pre & rest & -> & -> & Hpre & Hrest & _ & _).
  assert (0 < length pre)%nat by (destruct pre; [done|simpl; lia]).
  rewrite length_app. simpl.
  specialize (IH rest ltac:(rewrite length_app; lia) t Hrest). lia.
Qed.

(** Bytes that end in a zero byte decode to a string that ends in NUL. *)
Lemma decode_snoc_nul bs : ∀ s,
  decode (bs ++ ["000"%byte]) = Some s → ∃ s', s = s' ++ [0%N].
Proof.
  induction bs as [bs IH] using list_length_induction. intros s Hdec.
  destruct (decode_step _ s Hdec ltac:(by destruct bs))
    as (c & t & pre & rest & -> & Hsplit & Hpre & Hrest & Hone & Hcont).
  destruct (decide (rest = [])) as [->|Hne].
  - (* the zero byte is the last byte of the first character *)
    simpl in Hrest. injection Hrest as <-.
    rewrite app_nil_r in Hsplit. subst pre.
    destruct bs as [|b0 bs].
    + exists []. simpl. by rewrite (Hone "000"%byte eq_refl).
    + exfalso. simpl in Hcont.
      specialize (Hcont "000"%byte ltac:(apply elem_of_app; right; left)).
      done.
  - (* the zero byte belongs to what follows *)
    destruct (exists_last Hne) as (rest' & z & ->).
    rewrite (assoc_L (++)) in Hsplit.
    apply app_inj_tail in Hsplit as [-> <-].
    assert (0 < length pre)%nat by (destruct pre; [done|simpl; lia]).
    destruct (IH rest' ltac:(rewrite length_app; lia) t Hrest) as [s' ->].
    by exists (c :: s').
Qed.

Lemma rstrip_nul_length s : (length (rstrip_nul s) ≤ length s)%nat.
Proof.
  induction s as [|c s IH]; simpl; [done|].
  destruct (rstrip_nul s) as [|d t]; [case_bool_decide|]; simpl in *; lia.
Qed.

Lemma rstrip_nul_snoc s : rstrip_nul (s ++ [0%N]) = rstrip_nul s.
Proof.
  induction s as [|c s IH]; simpl; [done|]. by rewrite IH.
Qed.

(** Stripping removes at least the NUL that ends the string. *)
Lemma rstrip_nul_shorter bs s :
  decode (bs ++ ["000"%byte]) = Some s →
  (length (rstrip_nul s) < length (bs ++ ["000"%byte]))%nat.
Proof.
  intros Hdec. pose proof (decode_length _ _ Hdec) as Hlen.
  destruct (decode_snoc_nul _ _ Hdec) as [s' ->].
  rewrite rstrip_nul_snoc. pose proof (rstrip_nul_length s').
  rewrite length_app in Hlen. simpl in Hlen. lia.
Qed.

End utf8.

(** ** UTF-8: decoding what was encoded *)

Section codec.

Implicit Types (bs : list byte) (s : str) (c : N).

Local Open Scope N_scope.

Lemma to_N_byte_of_N n : n < 256 → Byte.to_N (byte_of_N n) = n.
Proof.
  intros Hn. unfold byte_of_N.
  destruct (Byte.of_N n) as [b|] eqn:Hb; simpl.
  - by apply Byte.to_of_N.
  - apply Byte.of_N_None_iff in Hb. lia.
Qed.

Lemma decode_cons b0 r1 :
  decode (b0 :: r1) =
  let n0 := Byte.to_N b0 in
  if bool_decide (n0 < 0x80) then cons n0 <$> decode r1
  else
    match r1 with
    | [] => None
    | b1 :: r2 =>
        if negb (is_cont b1) then None
        else if bool_decide (0xC0 ≤ n0) && bool_decide (n0 < 0xE0) then
          let c := (n0 - 0xC0) * 64 + cont_bits b1 in
          if bool_decide (c < 0x80) then None else cons c <$> decode r2
        else
          match r2 with
          | [] => None
          | b2 :: r3 =>
              if negb (is_cont b2) then None
              else if bool_decide (0xE0 ≤ n0) && bool_decide (n0 < 0xF0) then
                let c := (n0 - 0xE0) * 4096 + cont_bits b1 * 64
                         + cont_bits b2 in
                if bool_decide (c < 0x800) || is_surrogate c then None
                else cons c <$> decode r3
              else
                match r3 with
                | [] => None
                | b3 :: r4 =>
                    if negb (is_cont b3) then None
                    else if bool_decide (0xF0 ≤ n0) && bool_decide (n0 < 0xF8) then
                      let c := (n0 - 0xF0) * 262144 + cont_bits b1 * 4096
                               + cont_bits b2 * 64 + cont_bits b3 in
                      if bool_decide (c < 0x10000) || bool_decide (0x10FFFF < c)
                      then None
                      else cons c <$> decode r4
                    else None
                end
          end
    end.
Proof. reflexivity. Qed.

Lemma is_cont_byte n : n < 64 → is_cont (byte_of_N (0x80 + n)) = true.
Proof.
  intros Hn. unfold is_cont. rewrite to_N_byte_of_N by lia.
  rewrite !bool_decide_eq_true_2 by lia. done.
Qed.

Lemma cont_bits_byte n : n < 64 → cont_bits (byte_of_N (0x80 + n)) = n.
Proof. intros Hn. unfold cont_bits. rewrite to_N_byte_of_N by lia. lia. Qed.

Ltac bd_true := rewrite bool_decide_eq_true_2 by lia.
Ltac bd_false := rewrite bool_decide_eq_false_2 by lia.

Lemma decode_encode_char c bs rest :
  encode_char c = Some bs → decode (bs ++ rest) = cons c <$> decode rest.
Proof.
  unfold encode_char.
  pose proof (N.div_mod c 64 ltac:(done)) as H64.
  pose proof (N.mod_lt c 64 ltac:(done)) as H64'.
  pose proof (N.div_mod (c / 64) 64 ltac:(done)) as H4096.
  pose proof (N.mod_lt (c / 64) 64 ltac:(done)) as H4096'.
  pose proof (N.div_mod (c / 4096) 64 ltac:(done)) as H262144.
  pose proof (N.mod_lt (c / 4096) 64 ltac:(done)) as H262144'.
  assert (c / 4096 = c / 64 / 64) as E1 by (by rewrite N.Div0.div_div).
  assert (c / 262144 = c / 4096 / 64) as E2 by (by rewrite N.Div0.div_div).
  rewrite <- E1 in H4096. rewrite <- E2 in H262144. clear E1 E2.
  remember ((c / 4096) mod 64) as m3 eqn:X; clear X.
  remember ((c / 64) mod 64) as m2 eqn:X; clear X.
  remember (c mod 64) as m1 eqn:X; clear X.
  remember (c / 262144) as d3 eqn:X; clear X.
  remember (c / 4096) as d2 eqn:X; clear X.
  remember (c / 64) as d1 eqn:X; clear X.
  repeat case_bool_decide; try done.
  - intros [= <-]. simpl app. rewrite decode_cons. cbv zeta.
    rewrite to_N_byte_of_N by lia. by bd_true.
  - intros [= <-]. simpl app. rewrite decode_cons. cbv zeta.
    rewrite is_cont_byte, cont_bits_byte by done.
    rewrite to_N_byte_of_N by lia. bd_false. cbn [negb].
    rewrite !bool_decide_eq_true_2 by lia. cbn [andb]. bd_false.
    do 2 f_equal. lia.
  - destruct (is_surrogate c) eqn:Hsur; [done|]. intros [= <-]. simpl app.
    rewrite decode_cons. cbv zeta.
    rewrite !is_cont_byte, !cont_bits_byte by done.
    rewrite to_N_byte_of_N by lia. bd_false. cbn [negb].
    rewrite (bool_decide_eq_false_2 (_ < 224)) by lia.
    rewrite andb_false_r.
    rewrite !bool_decide_eq_true_2 by lia. cbn [andb].
    replace ((224 + d2 - 224) * 4096 + m2 * 64 + m1) with c by lia.
    rewrite Hsur. by bd_false.
  - intros [= <-]. simpl app.
    rewrite decode_cons. cbv zeta.
    rewrite !is_cont_byte, !cont_bits_byte by done.
    rewrite to_N_byte_of_N by lia. bd_false. cbn [negb].
    rewrite (bool_decide_eq_false_2 (_ < 224)) by lia.
    rewrite andb_false_r.
    rewrite (bool_decide_eq_false_2 (_ < 240)) by lia.
    rewrite andb_false_r.
    rewrite !bool_decide_eq_true_2 by lia. cbn [andb].
    replace ((240 + d3 - 240) * 262144 + m3 * 4096 + m2 * 64 + m1) with c by lia.
    by rewrite !bool_decide_eq_false_2 by lia.
Qed.

Lemma decode_encode s bs : encode s = Some bs → decode bs = Some s.
Proof.
  revert bs. induction s as [|c s IH]; intros bs; simpl.
  { by intros [= <-]. }
  destruct (encode_char c) as [b|] eqn:Hc; [|done].
  destruct (encode s) as [bs'|]; [|done]. intros [= <-].
  rewrite (decode_encode_char _ _ _ Hc), (IH bs' eq_refl). done.
Qed.

Lemma encode_app s t :
  encode (s ++ t) =
  match encode s, encode t with
  | Some a, Some b => Some (a ++ b)
  | _, _ => None
  end.
Proof.
  induction s as [|c s IH]; simpl.
  { by destruct (encode t). }
  rewrite IH. destruct (encode_char c), (encode s), (encode t); try done.
  by rewrite (assoc_L (++)).
Qed.

End codec.

(** ** UTF-8: what was decoded encodes back *)

Section decoding.

Implicit Types (bs : list byte) (s : str) (c : N).

Local Open Scope N_scope.

Lemma byte_of_N_to_N (b : byte) : byte_of_N (Byte.to_N b) = b.
Proof. unfold byte_of_N. by rewrite Byte.of_to_N. Qed.

Lemma to_N_lt_256 (b : byte) : Byte.to_N b < 256.
Proof. pose proof (Byte.to_N_bounded b). lia. Qed.

Lemma div_mod_64 q r : r < 64 → (q * 64 + r) / 64 = q ∧ (q * 64 + r) mod 64 = r.
Proof.
  intros Hr. split.
  - symmetry. apply (N.div_unique _ 64 q r); [done|lia].
  - symmetry. apply (N.mod_unique _ 64 q r); [done|lia].
Qed.

Lemma is_cont_bits (b : byte) :
  is_cont b = true → cont_bits b < 64 ∧ 0x80 + cont_bits b = Byte.to_N b.
Proof.
  unfold is_cont, cont_bits. intros H. apply andb_true_iff in H as [H1 H2].
  apply bool_decide_eq_true in H1, H2. lia.
Qed.

(** The first character that [decode] reads is encoded by the bytes it
    took. *)
Lemma decode_first b0 r1 s :
  decode (b0 :: r1) = Some s →
  ∃ c t pre rest, s = c :: t ∧ b0 :: r1 = pre ++ rest ∧ pre ≠ []
    ∧ decode rest = Some t ∧ encode_char c = Some pre.
Proof.
  rewrite decode_cons. cbv zeta. intros Hdec.
  pose proof (to_N_lt_256 b0) as Hb0.
  case_bool_decide as H1.
  { apply fmap_cons_Some in Hdec as (t & Ht & ->).
    exists (Byte.to_N b0), t, [b0], r1. split_and!; try done.
    unfold encode_char. rewrite bool_decide_eq_true_2 by done.
    by rewrite byte_of_N_to_N. }
  destruct r1 as [|b1 r2]; [done|].
  destruct (is_cont b1) eqn:Hc1; [|done]. cbn [negb] in Hdec.
  destruct (is_cont_bits b1 Hc1) as [Hlt1 Hb1].
  destruct (bool_decide (192 ≤ Byte.to_N b0) && bool_decide (Byte.to_N b0 < 224))
    eqn:H2.
  { apply andb_true_iff in H2 as [H2 H2']. apply bool_decide_eq_true in H2, H2'.
    case_bool_decide as Hlow; [done|].
    apply fmap_cons_Some in Hdec as (t & Ht & ->).
    eexists _, t, [b0; b1], r2. split_and!; try done.
    destruct (div_mod_64 (Byte.to_N b0 - 192) (cont_bits b1) Hlt1) as [Hd Hm].
    unfold encode_char.
    rewrite (bool_decide_eq_false_2 (_ < 128)) by lia.
    rewrite (bool_decide_eq_true_2 (_ < 2048)) by lia.
    rewrite Hd, Hm.
    replace (192 + (Byte.to_N b0 - 192)) with (Byte.to_N b0) by lia.
    rewrite Hb1. by rewrite !byte_of_N_to_N. }
  destruct r2 as [|b2 r3]; [done|].
  destruct (is_cont b2) eqn:Hc2; [|done]. cbn [negb] in Hdec.
  destruct (is_cont_bits b2 Hc2) as [Hlt2 Hb2].
  destruct (bool_decide (224 ≤ Byte.to_N b0) && bool_decide (Byte.to_N b0 < 240))
    eqn:H3.
  { apply andb_true_iff in H3 as [H3 H3']. apply bool_decide_eq_true in H3, H3'.
    set (c := (Byte.to_N b0 - 224) * 4096 + cont_bits b1 * 64 + cont_bits b2) in *.
    destruct (bool_decide (c < 2048)) eqn:Hlow; [done|].
    destruct (is_surrogate c) eqn:Hsur; [done|]. cbn [orb] in Hdec.
    apply bool_decide_eq_false in Hlow.
    apply fmap_cons_Some in Hdec as (t & Ht & ->).
    exists c, t, [b0; b1; b2], r3. split_and!; try done.
    assert (c = ((Byte.to_N b0 - 224) * 64 + cont_bits b1) * 64 + cont_bits b2)
      as Hc by (subst c; lia).
    destruct (div_mod_64 ((Byte.to_N b0 - 224) * 64 + cont_bits b1)
                (cont_bits b2) Hlt2) as [Hd Hm].
    rewrite <- Hc in Hd, Hm.
    destruct (div_mod_64 (Byte.to_N b0 - 224) (cont_bits b1) Hlt1) as [Hd' Hm'].
    assert (c / 4096 = Byte.to_N b0 - 224) as Hd2.
    { change 4096 with (64 * 64). by rewrite <- N.Div0.div_div, Hd, Hd'. }
    unfold encode_char.
    rewrite (bool_decide_eq_false_2 (_ < 128)) by lia.
    rewrite (bool_decide_eq_false_2 (_ < 2048)) by lia.
    rewrite (bool_decide_eq_true_2 (_ < 65536)) by (subst c; lia).
    rewrite Hsur, Hd2, Hd, Hm, Hm'.
    replace (224 + (Byte.to_N b0 - 224)) with (Byte.to_N b0) by lia.
    rewrite Hb1, Hb2. by rewrite !byte_of_N_to_N. }
  destruct r3 as [|b3 r4]; [done|].
  destruct (is_cont b3) eqn:Hc3; [|done]. cbn [negb] in Hdec.
  destruct (is_cont_bits b3 Hc3) as [Hlt3 Hb3].
  destruct (bool_decide (240 ≤ Byte.to_N b0) && bool_decide (Byte.to_N b0 < 248))
    eqn:H4; [|done].
  apply andb_true_iff in H4 as [H4 H4']. apply bool_decide_eq_true in H4, H4'.
  set (c := (Byte.to_N b0 - 240) * 262144 + cont_bits b1 * 4096
            + cont_bits b2 * 64 + cont_bits b3) in *.
  destruct (bool_decide (c < 65536)) eqn:Hlow; [done|].
  destruct (bool_decide (1114111 < c)) eqn:Hhigh; [done|]. cbn [orb] in Hdec.
  apply bool_decide_eq_false in Hlow, Hhigh.
  apply fmap_cons_Some in Hdec as (t & Ht & ->).
  exists c, t, [b0; b1; b2; b3], r4. split_and!; try done.
  set (q2 := (Byte.to_N b0 - 240) * 64 + cont_bits b1).
  set (q1 := q2 * 64 + cont_bits b2).
  assert (c = q1 * 64 + cont_bits b3) as Hc by (subst c q1 q2; lia).
  destruct (div_mod_64 q1 (cont_bits b3) Hlt3) as [Hd Hm].
  rewrite <- Hc in Hd, Hm.
  destruct (div_mod_64 q2 (cont_bits b2) Hlt2) as [Hd' Hm'].
  fold q1 in Hd', Hm'.
  destruct (div_mod_64 (Byte.to_N b0 - 240) (cont_bits b1) Hlt1) as [Hd'' Hm''].
  fold q2 in Hd'', Hm''.
  assert (c / 4096 = q2) as Hd2.
  { change 4096 with (64 * 64). by rewrite <- N.Div0.div_div, Hd, Hd'. }
  assert (c / 262144 = Byte.to_N b0 - 240) as Hd3.
  { change 262144 with (4096 * 64). by rewrite <- N.Div0.div_div, Hd2, Hd''. }
  unfold encode_char.
  rewrite (bool_decide_eq_false_2 (_ < 128)) by lia.
  rewrite (bool_decide_eq_false_2 (_ < 2048)) by lia.
  rewrite (bool_decide_eq_false_2 (_ < 65536)) by lia.
  rewrite (bool_decide_eq_true_2 (_ < 1114112)) by lia.
  rewrite Hd3, Hd2, Hd, Hm, Hm', Hm''.
  replace (240 + (Byte.to_N b0 - 240)) with (Byte.to_N b0) by lia.
  rewrite Hb1, Hb2, Hb3. by rewrite !byte_of_N_to_N.
Qed.

(** Decoding is strict: the bytes are the encoding of the string they
    decode to, and of no other. *)
Lemma encode_decode bs : ∀ s, decode bs = Some s → encode s = Some bs.
Proof.
  induction bs as [bs IH] using list_length_induction. intros s Hdec.
  destruct bs as [|b0 r1].
  { simpl in Hdec. by injection Hdec as <-. }
  destruct (decode_first b0 r1 s Hdec)
    as (c & t & pre & rest & -> & Hsplit & Hpre & Hrest & Hc).
  assert (0 < length pre)%nat by (destruct pre; [done|simpl; lia]).
  assert (encode t = Some rest) as Ht.
  { apply IH; [|done]. rewrite Hsplit, length_app. lia. }
  simpl. by rewrite Hc, Ht, Hsplit.
Qed.

End decoding.

Section stripping.

Implicit Types (s t : str).

(** [rstrip_nul s] is [s] without the NULs that end it: what was removed
    is NULs only, and what is left does not end in NUL. *)
Lemma rstrip_nul_spec s :
  (∃ k, s = rstrip_nul s ++ replicate k 0%N)
  ∧ last (rstrip_nul s) ≠ Some 0%N.
Proof.
  induction s as [|c s [[k IHk] IHlast]]; simpl.
  { split; [by exists 0%nat|done]. }
  destruct (rstrip_nul s) as [|d t] eqn:Hs.
  - case_bool_decide as Hc.
    + split; [|done]. exists (S k). simpl in *. by rewrite Hc, <- IHk.
    + split; [|simpl; congruence]. exists k. simpl in *. by rewrite <- IHk.
  - split.
    + exists k. simpl in *. by rewrite <- IHk.
    + by rewrite last_cons_cons.
Qed.

(** What [rstrip_nul] returns is determined by that. *)
Lemma rstrip_nul_unique s t k :
  s = t ++ replicate k 0%N → last t ≠ Some 0%N → rstrip_nul s = t.
Proof.
  intros -> Hlast. induction k as [|k IH].
  - simpl. rewrite app_nil_r.
    destruct (rstrip_nul_spec t) as [[j Hj] _].
    destruct j as [|j]; [simpl in Hj; by rewrite app_nil_r in Hj|].
    exfalso. apply Hlast. rewrite Hj.
    replace (S j) with (j + 1)%nat by lia.
    rewrite replicate_add, (assoc_L (++)). simpl. by rewrite last_snoc.
  - replace (S k) with (k + 1)%nat by lia.
    rewrite replicate_add, (assoc_L (++)). simpl.
    by rewrite rstrip_nul_snoc.
Qed.

End stripping.

(** ** [open] *)

Section opening.

Implicit Types (w : FileSystem) (o : FileObject) (m : file_meta).

(** A method that neither reads nor writes [open_files] runs the same
    whatever the table holds. *)
Lemma oblivious_ret {A} (a : A) : oblivious (mret a).
Proof. done. Qed.

Lemma oblivious_raise {A} e : oblivious (raise e : M A).
Proof. done. Qed.

Lemma oblivious_gets {A} (f : FileSystem → A) :
  (∀ g w, f (set_open_files g w) = f w) → oblivious (gets f).
Proof. intros Hf g w. unfold gets. by rewrite Hf. Qed.

Lemma oblivious_modify h :
  (∀ g w, h (set_open_files g w) = set_open_files g (h w)) →
  oblivious (modify h).
Proof. intros Hh g w. unfold modify. by rewrite Hh. Qed.

Lemma oblivious_bind {A B} (c : M A) (k : A → M B) :
  oblivious c → (∀ a, oblivious (k a)) → oblivious (c ≫= k).
Proof.
  intros Hc Hk g w. unfold mbind, M_bind. rewrite Hc.
  destruct (c w) as [[a|e] w']; simpl; [apply Hk|done].
Qed.

Ltac oblivious_step :=
  lazymatch goal with
  | |- oblivious (mret _) => apply oblivious_ret
  | |- oblivious (raise _) => apply oblivious_raise
  | |- oblivious (gets _) => apply oblivious_gets; reflexivity
  | |- oblivious (modify _) => apply oblivious_modify; reflexivity
  | |- oblivious (_ ≫= _) => apply oblivious_bind; [|intros ?]
  | |- oblivious (if ?b then _ else _) => destruct b
  | |- oblivious (match ?x with _ => _ end) => destruct x
  end.

Lemma FileObject_init_oblivious now name md :
  oblivious (FileObject_init now name md).
Proof.
  unfold FileObject_init, _allocate_space, get_current_directory_meta,
    new_record, get_record, seek, read, _save_metadata.
  repeat oblivious_step.
Qed.

(** [open] does not look at [open_files]: with the name taken out of the
    table the call returns or raises the same. *)
Lemma open_ignores_open_files now w name md :
  (open now name md (set_open_files (base.delete name) w)).1
    = (open now name md w).1.
Proof.
  unfold open. case_bool_decide; [done|].
  unfold mbind, M_bind. rewrite FileObject_init_oblivious.
  by destruct (FileObject_init now name md w) as [[h|e] w'].
Qed.

(** [open] returns only for the modes 'r' and 'w'. *)
Lemma open_mode now w name md h w' :
  open now name md w = (Ok h, w') → md = "r" ∨ md = "w".
Proof.
  unfold open. case_bool_decide as Hbad; [done|]. intros _.
  destruct (decide (md = "r")); [by left|].
  destruct (decide (md = "w")); [by right|]. by destruct Hbad.
Qed.

(** [open] of a file that exists, in any state, when it returns: the
    bytes were read and decoded, and the object made of them is entered
    under the name. *)
Lemma open_returned now w name md r h w' :
  files w !! name = Some r →
  open now name md w = (Ok h, w') →
  let m := records w !!! r in
  ∃ s,
    decode (file_read (data_file w) (f_start_pos m) (f_size m)) = Some s
    ∧ -1 ≤ f_size m
    ∧ h = length (objects w)
    ∧ w' = set_open_files <[name := h]>
             (set_objects (λ os, os ++ [MkFileObject name md r (rstrip_nul s)]) w).
Proof.
  intros Hf Hrun m.
  destruct (open_existing_cases now w name md r Hf)
    as [[e He]|(_ & [Hsize _] & s & Hdec & Hok)]; [congruence|].
  rewrite Hok in Hrun. injection Hrun as <- <-. by exists s.
Qed.

(** C8, as amended.  In every state the engine can reach, a name that has
    a [FileObject] in [open_files] can be opened again, with mode 'r' or
    'w': the table plays no part in whether [open] returns.  The call
    returns or raises as it would with the name taken out of the table.
    When the size of the file is one the platform reads at once, the call
    returns if the stored bytes decode, and raises a decoding error,
    changing nothing, if they do not; when the size is beyond that, it
    raises and changes nothing; the same with the name taken out of the
    table.  When it returns, the value is a new [FileObject], made of the
    decoded bytes and entered in [open_files] in place of the first one;
    the first object is left as it was, buffer included, and is no longer
    what [open_files] gives for the name. *)
Theorem C8_open_replaces_the_tracked_handle capacity now w name md h1 :
  reachable capacity w → open_files w !! name = Some h1 →
  md = "r" ∨ md = "w" →
  let h2 := length (objects w) in
  let untracked := set_open_files (base.delete name) w in
  ∃ o1 r,
    objects w !! h1 = Some o1 ∧ files w !! name = Some r
    ∧ let m := records w !!! r in
      let stored := file_read (data_file w) (f_start_pos m) (f_size m) in
      (open now name md w).1 = (open now name md untracked).1
      ∧ (f_size m ≤ read_bound w →
           (∀ s, decode stored = Some s → (open now name md w).1 = Ok h2)
           ∧ (decode stored = None →
                open now name md w = (Raise UnicodeError, w)
                ∧ open now name md untracked = (Raise UnicodeError, untracked)))
      ∧ (read_bound w < f_size m →
           open now name md w = (Raise OutOfRange, w)
           ∧ open now name md untracked = (Raise OutOfRange, untracked))
      ∧ (∀ h w', open now name md w = (Ok h, w') →
           h = h2 ∧ h2 ≠ h1
           ∧ open_files w' = <[name := h2]> (open_files w)
           ∧ open_files w' !! name = Some h2
           ∧ (∃ s, decode stored = Some s
                ∧ objects w' !! h2 = Some (MkFileObject name md r (rstrip_nul s)))
           ∧ objects w' !! h1 = Some o1
           ∧ metadata w' = metadata w).
Proof.
  intros Hw Hh Hmd h2 untracked.
  destruct (open_handles_are_bound _ _ _ _ Hw Hh)
    as (o1 & m0 & (Ho1 & Hm & Hf) & Hname & _ & Hsize).
  rewrite Hname in Hf.
  exists o1, (file_meta_ref o1). split; [done|]. split; [done|].
  intros m stored.
  assert (m0 = m) as -> by (by subst m; rewrite (list_lookup_total_correct _ _ _ Hm)).
  assert (f_start_pos m = 0) as Hzero
    by (eapply origin_lookup_total, reachable_at_origin, Hw).
  pose proof (seek_bound_nonneg w) as Hseek.
  pose proof (lookup_lt_Some _ _ _ Ho1) as Hlt.
  assert (files untracked !! name = Some (file_meta_ref o1)) as Hf' by done.
  split_and!.
  - subst untracked. by rewrite open_ignores_open_files.
  - intros Hread.
    pose proof (open_existing now w name md _ Hf Hmd) as Hrun.
    pose proof (open_existing now untracked name md _ Hf' Hmd) as Hrun'.
    cbv zeta in Hrun, Hrun'.
    change (records untracked) with (records w) in Hrun'.
    change (data_file untracked) with (data_file w) in Hrun'.
    change (seek_bound untracked) with (seek_bound w) in Hrun'.
    change (read_bound untracked) with (read_bound w) in Hrun'.
    fold m in Hrun, Hrun'. fold stored in Hrun, Hrun'.
    rewrite Hrun, Hrun' by lia. split.
    + intros s ->. done.
    + intros ->. done.
  - intros Hread. split.
    + apply (open_unreadable now w name md _ Hf Hmd); fold m; lia.
    + apply (open_unreadable now untracked name md _ Hf' Hmd);
        change (records untracked) with (records w); fold m; [|done].
      change (seek_bound untracked) with (seek_bound w). lia.
  - intros h w' Hrun.
    destruct (open_returned now w name md _ h w' Hf Hrun)
      as (s & Hdec & _ & -> & ->).
    fold m stored in Hdec. fields. split_and!; try done.
    + subst h2. lia.
    + by rewrite lookup_insert_eq.
    + exists s. split; [done|]. by rewrite lookup_app_r, Nat.sub_diag by lia.
    + by rewrite lookup_app_l.
Qed.

(** "a.txt" holds "abcd" and is open for writing; it is opened again for
    reading. *)
Lemma C8_open_replaces_the_tracked_handle_witness :
  let w := after 1024 [(1, Create "a.txt"); (2, Open "a.txt" "w");
                       (3, Append 0%nat (str_of "abcd"))] in
  let w' := (open 4 "a.txt" "r" w).2 in
  open_files w !! "a.txt" = Some 0%nat
  ∧ (open 4 "a.txt" "r" w).1 = Ok 1%nat
  ∧ open_files w' !! "a.txt" = Some 1%nat
  ∧ objects w' !! 0%nat = Some (MkFileObject "a.txt" "w" 0 (str_of "abcd")).
Proof.
  intros w w'.
  destruct (C8_open_replaces_the_tracked_handle 1024 4 w "a.txt" "r" 0%nat)
    as (o1 & r & Ho1 & Hr & _ & Hok & _ & Hnew);
    [apply reachable_after|reflexivity|by left|].
  assert (r = 0%nat) as -> by (by vm_compute in Hr; injection Hr).
  assert (o1 = MkFileObject "a.txt" "w" 0 (str_of "abcd")) as ->
    by (by vm_compute in Ho1; injection Ho1).
  destruct Hok as [Hok _]; [by vm_compute|].
  specialize (Hok (str_of "abcd") eq_refl).
  destruct (Hnew 1%nat w' eq_refl) as (_ & _ & _ & Htable & _ & Hold & _).
  split_and!; [reflexivity|exact Hok|exact Htable|exact Hold].
Defined.

(** C8 as it is written fails: the second [open] decodes the stored bytes
    as the first did, and raises when they are no longer valid UTF-8.
    Here "f" holds the two bytes of U+00E9 and is cut to one byte through
    the handle that is open. *)
Lemma C8_second_open_fails_on_undecodable_bytes :
  let w := after 64 [(1, Create "f"); (2, Open "f" "w");
                     (3, Append 0%nat [233%N]); (4, Truncate 0%nat 1)] in
  open_files w !! "f" = Some 0%nat
  ∧ (open 5 "f" "r" w).1 = Raise UnicodeError
  ∧ open_files (open 5 "f" "r" w).2 !! "f" = Some 0%nat.
Proof. by vm_compute. Qed.

(** C10.  In every state the engine can reach, when [open] returns a
    [FileObject] for a file that exists, the buffer of the object is made
    of the bytes stored in the data file from [start_pos] on, [size] of
    them at most: those bytes are the UTF-8 encoding of one string, and
    the buffer is that string without the NULs that end it, so that the
    string is the buffer followed by NULs only and the buffer does not
    end in NUL.  [read_from_file] returns that buffer, and the recorded
    size stays what it was.  When the bytes end in a zero byte, the
    string returned has fewer characters than the recorded size. *)
Theorem C10_open_strips_trailing_nul capacity now w name md r h w' :
  reachable capacity w →
  files w !! name = Some r →
  open now name md w = (Ok h, w') →
  let m := records w !!! r in
  let stored := file_read (data_file w) (f_start_pos m) (f_size m) in
  ∃ s t k,
    stored = take (Z.to_nat (f_size m))
               (drop (Z.to_nat (f_start_pos m)) (data_file w))
    ∧ decode stored = Some s ∧ encode s = Some stored
    ∧ t = rstrip_nul s ∧ s = t ++ replicate k 0%N ∧ last t ≠ Some 0%N
    ∧ objects w' !! h = Some (MkFileObject name md r t)
    ∧ read_from_file h w' = (Ok t, w')
    ∧ size_of w' name = Some (f_size m)
    ∧ ((∃ bs, stored = bs ++ ["000"%byte]) →
         Z.of_nat (length t) < f_size m).
Proof.
  intros Hw Hf Hrun m stored.
  destruct (open_returned now w name md r h w' Hf Hrun)
    as (s & Hdec & _ & -> & ->).
  fold m stored in Hdec.
  destruct (reachable_consistent _ _ Hw) as (_ & _ & Hrs & _).
  destruct (sound_record_lookup_total (records w) r Hrs) as [_ Hsize].
  fold m in Hsize.
  destruct (rstrip_nul_spec s) as [[k Hk] Hlast].
  assert (stored = take (Z.to_nat (f_size m))
                     (drop (Z.to_nat (f_start_pos m)) (data_file w))) as Hstored.
  { subst stored. unfold file_read. by rewrite bool_decide_eq_false_2 by lia. }
  exists s, (rstrip_nul s), k. split_and!; try done.
  - by apply encode_decode.
  - fields. by rewrite lookup_app_r, Nat.sub_diag by lia.
  - unfold read_from_file. step_with ltac:(
      eapply get_object_ok; fields; by rewrite lookup_app_r, Nat.sub_diag by lia).
    done.
  - unfold size_of. fields. by rewrite Hf.
  - intros [bs Hbs]. rewrite Hbs in Hdec.
    pose proof (rstrip_nul_shorter _ _ Hdec) as Hshort. rewrite <- Hbs in Hshort.
    assert (length stored ≤ Z.to_nat (f_size m))%nat as Hlen.
    { rewrite Hstored, length_take. lia. }
    lia.
Qed.

(** "n.txt" holds "hi" followed by a zero byte, written at offset 2: the
    object that [open] returns reads "hi". *)
Lemma C10_open_strips_trailing_nul_witness :
  let w := after 1024 [(1, Create "n.txt"); (2, Open "n.txt" "w");
                       (3, Append 0%nat (str_of "hi"));
                       (4, WriteAt 0%nat 2 [0%N]); (5, Close "n.txt")] in
  let w' := (open 6 "n.txt" "r" w).2 in
  size_of w "n.txt" = Some 3
  ∧ file_read (data_file w) 0 3 = ["h"; "i"; "000"]%byte
  ∧ (open 6 "n.txt" "r" w).1 = Ok 1%nat
  ∧ objects w' !! 1%nat = Some (MkFileObject "n.txt" "r" 0 (str_of "hi"))
  ∧ read_from_file 1 w' = (Ok (str_of "hi"), w')
  ∧ size_of w' "n.txt" = Some 3.
Proof.
  intros w w'.
  destruct (C10_open_strips_trailing_nul 1024 6 w "n.txt" "r" 0%nat 1%nat w'
              (reachable_after _ _) eq_refl eq_refl)
    as (s & t & k & _ & Hdec & _ & Ht & _ & _ & Hobj & Hread & Hsize & _).
  assert (s = [104; 105; 0]%N) as -> by (by vm_compute in Hdec; injection Hdec).
  assert (t = str_of "hi") as -> by (by rewrite Ht).
  split_and!; [reflexivity|reflexivity|reflexivity|exact Hobj|exact Hread|exact Hsize].
Defined.

End opening.

(** ** Failures *)

Section failures.

Implicit Types (w : FileSystem).

Lemma current_directory_returns now w :
  (get_current_directory_meta now w).1 = Ok (current_path w).
Proof.
  unfold get_current_directory_meta. run_monad.
  by destruct (directories w !! current_path w).
Qed.

(** X18.  The exceptions that the guards at the head of a method raise leave
    the state as it was. *)
Lemma guards_raise_before_any_change w :
  (∀ now name, (create now name w).1 = Raise AlreadyExists → (create now name w).2 = w)
  ∧ (∀ name e, (delete name w).1 = Raise e → (delete name w).2 = w)
  ∧ (∀ now name e, (mkdir now name w).1 = Raise e → (mkdir now name w).2 = w)
  ∧ (∀ name e, (close name w).1 = Raise e → (close name w).2 = w)
  ∧ (∀ now s t e, (move now s t w).1 = Raise e → e ≠ KeyError → (move now s t w).2 = w).
Proof.
  split_and!.
  - intros now name. unfold create. run_monad.
    destruct (files w !! name); [done|].
    pose proof (current_directory_returns now w) as Hcd.
    destruct (get_current_directory_meta now w) as [[cd|e] w1]; [|done].
    destruct (allocate_cases 0 (free_space w1)) as [Hnone|(i & b & Hbest)].
    + by rewrite (allocate_fails _ _ Hnone).
    + by rewrite (allocate_takes _ _ _ _ Hbest).
  - intros name e. unfold delete. run_monad.
    destruct (files w !! name); [|done].
    destruct (open_files w !! name); [done|].
    unfold _release_space. case_bool_decide; done.
  - intros now name e. unfold mkdir. run_monad.
    destruct (directories w !! child_path (current_path w) name); [done|].
    unfold get_current_directory_meta. run_monad.
    by destruct (_ !! current_path w).
  - intros name e. unfold close. run_monad.
    by destruct (open_files w !! name).
  - intros now s t e. unfold move. run_monad.
    destruct (files w !! s); [|done].
    destruct (open_files w !! s); [done|].
    destruct (directories w !! _); simpl;
      destruct (_ !! _); simpl; try done; by intros [= <-].
Qed.

(** X19.  The same for the methods of an open file: the checks of the mode
    and of the sign of the arguments come before any change. *)
Lemma handle_guards_raise_before_any_change w h o :
  objects w !! h = Some o →
  (mode o ≠ "w" →
     (∀ now text, write_to_file now h text w = (Raise WrongMode, w))
     ∧ (∀ now write_at text,
          write_to_file_at now h write_at text w = (Raise WrongMode, w))
     ∧ (∀ now start size target,
          move_within_file now h start size target w = (Raise WrongMode, w))
     ∧ (∀ now n, truncate_file now h n w = (Raise WrongMode, w)))
  ∧ (mode o = "w" →
     (∀ now write_at text, write_at < 0 →
        write_to_file_at now h write_at text w = (Raise InvalidArgument, w))
     ∧ (∀ now start size target, start < 0 ∨ size < 0 ∨ target < 0 →
          move_within_file now h start size target w = (Raise InvalidArgument, w))
     ∧ (∀ now n, n < 0 → truncate_file now h n w = (Raise InvalidArgument, w)))
  ∧ (∀ start size, start < 0 ∨ size < 0 →
       read_from_file_at h start size w = (Raise InvalidArgument, w)).
Proof.
  intros Ho. split_and!.
  - intros Hmode. split_and!; intros;
      [unfold write_to_file|unfold write_to_file_at|unfold move_within_file
      |unfold truncate_file];
      step; by rewrite bool_decide_eq_true_2.
  - intros Hmode. split_and!.
    + intros now write_at text Hneg. unfold write_to_file_at. step.
      decide_false. by decide_true.
    + intros now start size target Hneg. unfold move_within_file. step.
      decide_false.
      destruct (bool_decide (start < 0) || bool_decide (size < 0)
                || bool_decide (target < 0)) eqn:Hguard; [done|].
      apply orb_false_elim in Hguard as [Hguard ?].
      apply orb_false_elim in Hguard as [? ?].
      repeat match goal with H : bool_decide _ = false |- _ =>
        apply bool_decide_eq_false in H end. lia.
    + intros now n Hneg. unfold truncate_file. step. decide_false. by decide_true.
  - intros start size Hneg. unfold read_from_file_at. step.
    destruct (bool_decide (start < 0) || bool_decide (size < 0)) eqn:Hguard; [done|].
    apply orb_false_elim in Hguard as [? ?].
    repeat match goal with H : bool_decide _ = false |- _ =>
      apply bool_decide_eq_false in H end. lia.
Qed.

(** C4 fails on the code.  On the fresh volume, [open] in write mode of a
    name that does not exist raises KeyError: at the root the path under
    which the constructor looks up the directory a second time is the
    empty string.  By then the name is in the file list of the root
    directory, and it stays there although no file of that name exists.
    Likewise [move] to "/" raises KeyError after it has taken the file out
    of the file list of its directory. *)
Theorem C4_failed_open_and_move_leave_changes :
  (let w := FileSystem_init 0 1024 in
   let w' := (open 1 "new.txt" "w" w).2 in
   (open 1 "new.txt" "w" w).1 = Raise KeyError
   ∧ d_files <$> directories w !! "/" = Some []
   ∧ d_files <$> directories w' !! "/" = Some ["new.txt"]
   ∧ files w' !! "new.txt" = None
   ∧ metadata w' ≠ metadata w)
  ∧ (let w := after 1024 [(1, Create "a.txt")] in
     let w' := (move 2 "a.txt" "/" w).2 in
     (move 2 "a.txt" "/" w).1 = Raise KeyError
     ∧ d_files <$> directories w !! "/" = Some ["a.txt"]
     ∧ d_files <$> directories w' !! "/" = Some []
     ∧ is_Some (files w' !! "a.txt")
     ∧ metadata w' ≠ metadata w).
Proof.
  split; split_and!; try reflexivity.
  - intros H. apply (f_equal (λ x, d_files <$> x.1.1.2 !! "/")) in H.
    vm_compute in H. discriminate.
  - by eexists.
  - intros H. apply (f_equal (λ x, d_files <$> x.1.1.2 !! "/")) in H.
    vm_compute in H. discriminate.
Qed.

(** What [delete] does to the free list: a file that was created with 0
    bytes and then written to gives back bytes that were never taken
    from the free list, so the block released lies inside a free block and
    [used_size] goes below zero. *)
Lemma delete_releases_bytes_never_allocated :
  let w := after 1024 [(1, Create "a.txt"); (2, Open "a.txt" "w");
                       (3, Append 0%nat (str_of "abcd")); (4, Close "a.txt");
                       (5, Delete "a.txt")] in
  free_space w = [(0, 4); (0, 1024)] ∧ used_size w = -4.
Proof. by vm_compute. Qed.

End failures.


(** ** Writing and reading back *)

Section round_trips.

Implicit Types (w : FileSystem) (o : FileObject) (m : file_meta)
  (bs : list byte) (s : str).

(** What [df.read] returns after [df.write] at the same position. *)
Lemma file_read_write data pos bs :
  0 ≤ pos → file_read (file_write data pos bs) pos (Z.of_nat (length bs)) = bs.
Proof.
  intros Hpos. unfold file_read, file_write.
  rewrite bool_decide_eq_false_2 by lia. rewrite Nat2Z.id.
  destruct bs as [|b bs]; [by rewrite take_0|].
  set (p := Z.to_nat pos). set (l := b :: bs).
  rewrite (assoc_L (++) (take p data)).
  rewrite drop_app_length'; [by rewrite take_app_length|].
  rewrite length_app, length_take, length_replicate. lia.
Qed.

Lemma append_runs now w h o m text bs :
  bound w h o m → mode o = "w" → encode (content o ++ text) = Some bs →
  0 ≤ f_start_pos m ≤ seek_bound w →
  write_to_file now h text w
    = (Ok tt,
       set_records
         (λ rs, <[file_meta_ref o :=
                    with_modified_time now (with_size (Z.of_nat (length bs)) m)]> rs)
         (set_data_file (λ d, file_write d (f_start_pos m) bs)
            (set_objects (alter (with_content (content o ++ text)) h) w))).
Proof.
  intros (Ho & Hm & Hf) Hmode Henc Hstart.
  pose proof (lookup_lt_Some _ _ _ Hm) as Hlt.
  unfold write_to_file.
  step. decide_false. do 3 step. rewrite Henc. do 4 step.
  step_with ltac:(eapply get_record_ok; fields;
                  rewrite !list_lookup_alter_eq, Hm; reflexivity).
  do 3 step.
  unfold _save_metadata, mret, M_ret. f_equal.
  unfold set_data_file, set_records, set_objects. fields. f_equal.
  rewrite (alter_as_insert _ _ _ _ Hm), !alter_insert by done.
  done.
Qed.

Lemma encode_nil s : encode s = Some [] → s = [].
Proof.
  destruct s as [|c s]; [done|]. simpl.
  destruct (encode_char c) as [b|] eqn:Hc; [|done].
  destruct (encode s) as [bs'|]; [|done]. intros [= Happ].
  apply app_eq_nil in Happ as [-> _]. revert Hc. unfold encode_char.
  repeat case_bool_decide; try done. by destruct (is_surrogate c).
Qed.

(** X13.  Appending and reading back.  In every state the engine can reach,
    for a [FileObject] in [open_files] that was opened for writing and a
    text that makes the buffer encodable, in no more bytes than the
    largest file the platform keeps: [write_to_file] returns; the size of
    the file is then the number of bytes of the whole buffer;
    [read_from_file] on the object returns the buffer with the text
    appended; and when the platform reads that many bytes at once, so does
    [read_from_file_at] from offset 0 for at least that many bytes, and
    [open] of the name, in either mode, returns an object whose buffer is
    that string without its trailing NULs. *)
Theorem append_then_read_back capacity now now' w name h o text bs md :
  reachable capacity w → open_files w !! name = Some h →
  objects w !! h = Some o → mode o = "w" →
  encode (content o ++ text) = Some bs → md = "r" ∨ md = "w" →
  Z.of_nat (length bs) ≤ seek_bound w →
  let w1 := (write_to_file now h text w).2 in
  (write_to_file now h text w).1 = Ok tt
  ∧ size_of w1 name = Some (Z.of_nat (length bs))
  ∧ read_from_file h w1 = (Ok (content o ++ text), w1)
  ∧ (Z.of_nat (length bs) ≤ read_bound w →
       (∀ n, Z.of_nat (length bs) ≤ n →
          read_from_file_at h 0 n w1 = (Ok (content o ++ text), w1))
       ∧ ∃ h2 w2, open now' name md w1 = (Ok h2, w2)
           ∧ content <$> objects w2 !! h2
             = Some (rstrip_nul (content o ++ text))).
Proof.
  intros Hw Hh Ho Hmode Henc Hmd Hkept w1.
  destruct (open_handle_bound _ _ _ _ _ Hw Hh Ho)
    as (m & Hb & Hname & Hstart & Hsize & _ & _).
  pose proof Hb as (_ & Hm & Hf).
  assert (f_start_pos m = 0) as Hzero.
  { rewrite <- (list_lookup_total_correct _ _ _ Hm).
    eapply origin_lookup_total, reachable_at_origin, Hw. }
  pose proof (seek_bound_nonneg w) as Hseek.
  pose proof (lookup_lt_Some _ _ _ Hm) as Hr.
  pose proof (lookup_lt_Some _ _ _ Ho) as Hlt.
  pose proof (decode_encode _ _ Henc) as Hdec.
  subst w1. rewrite (append_runs now w h o m text bs) by (done || lia).
  cbn [fst snd].
  set (w1 := set_records _ _).
  assert (objects w1 !! h = Some (with_content (content o ++ text) o)) as Ho1.
  { subst w1. fields. by rewrite list_lookup_alter_eq, Ho. }
  assert (records w1 !! file_meta_ref o
          = Some (with_modified_time now (with_size (Z.of_nat (length bs)) m)))
    as Hm1.
  { subst w1. fields. by rewrite list_lookup_insert_eq. }
  assert (files w1 !! name = Some (file_meta_ref o)) as Hf1.
  { subst w1. fields. by rewrite <- Hname. }
  assert (data_file w1 = file_write (data_file w) (f_start_pos m) bs) as Hd1
    by done.
  assert (seek_bound w1 = seek_bound w) as Hsb by done.
  assert (read_bound w1 = read_bound w) as Hrb by done.
  split_and!.
  - done.
  - unfold size_of. rewrite Hf1. simpl.
    by rewrite (list_lookup_total_correct _ _ _ Hm1).
  - unfold read_from_file. by step.
  - intros Hread. split.
    + intros n Hn. unfold read_from_file_at. step.
      rewrite !bool_decide_eq_false_2 by lia. cbn [orb].
      step. cbn [f_size f_start_pos with_modified_time with_size with_content
                 file_meta_ref].
      case_bool_decide as Hempty.
      * assert (bs = []) as -> by (destruct bs; [done|simpl in Hempty; lia]).
        by rewrite (encode_nil _ Henc).
      * rewrite Z.add_0_r.
        replace (if bool_decide (0 + n > Z.of_nat (length bs))
                 then Z.of_nat (length bs) - 0 else n)
          with (Z.of_nat (length bs)) by (case_bool_decide; lia).
        step_with ltac:(eapply seek_ok; lia).
        step_with ltac:(eapply read_ok; lia).
        by rewrite Hd1, file_read_write, Hdec.
    + rewrite (open_existing now' w1 name md _ Hf1 Hmd);
        rewrite (list_lookup_total_correct _ _ _ Hm1);
        cbn [f_size f_start_pos with_modified_time with_size]; [|lia..].
      rewrite Hd1, file_read_write, Hdec by lia.
      eexists _, _. split; [reflexivity|]. fields.
      by rewrite lookup_app_r, Nat.sub_diag.
Qed.

(** A file is created in a directory, opened and written twice; the
    second [open] reads back both texts. *)
Lemma append_then_read_back_witness :
  let w := after 1024 [(1, Create "a.txt"); (2, Open "a.txt" "w");
                       (3, Append 0%nat (str_of "abcd"))] in
  let w1 := (write_to_file 4 0%nat (str_of "xyz") w).2 in
  read_from_file 0%nat w1 = (Ok (str_of "abcdxyz"), w1)
  ∧ read_from_file_at 0%nat 0 7 w1 = (Ok (str_of "abcdxyz"), w1)
  ∧ ∃ h2 w2, open 5 "a.txt" "r" w1 = (Ok h2, w2)
      ∧ content <$> objects w2 !! h2 = Some (str_of "abcdxyz").
Proof.
  intros w w1.
  destruct (append_then_read_back 1024 4 5 w "a.txt" 0%nat
              (MkFileObject "a.txt" "w" 0%nat (str_of "abcd")) (str_of "xyz")
              (default [] (encode (str_of "abcdxyz"))) "r")
    as (_ & _ & Hread & Hrest);
    [apply reachable_after|reflexivity|reflexivity|reflexivity|reflexivity
    |by left|by vm_compute|].
  destruct Hrest as [Hat Hopen]; [by vm_compute|].
  split_and!; [exact Hread|apply Hat; simpl; lia|exact Hopen].
Defined.

(** X14.  Writing at an offset and reading back.  In every state the engine
    can reach, for a [FileObject] in [open_files] that was opened for
    writing, a text that can be encoded and an offset that is not negative:
    when the bytes written end within the offsets the platform takes,
    [write_to_file_at] returns, and [read_from_file_at] on the object, from
    that offset and for the number of bytes of the text, a number the
    platform reads at once, returns the text and changes nothing.  When
    the offset is beyond what the platform takes, as every offset from
    [2 ** 63] on is, [write_to_file_at] raises: nothing is written, and the
    size of the file is already the larger of what it was and the end of
    the text. *)
Theorem write_at_then_read_at_reads_back capacity now w name h o write_at text bs :
  reachable capacity w → open_files w !! name = Some h →
  objects w !! h = Some o → mode o = "w" →
  0 ≤ write_at → encode text = Some bs →
  let w1 := (write_to_file_at now h write_at text w).2 in
  let end_pos := write_at + Z.of_nat (length bs) in
  (end_pos ≤ seek_bound w →
     (write_to_file_at now h write_at text w).1 = Ok tt
     ∧ (Z.of_nat (length bs) ≤ read_bound w →
          read_from_file_at h write_at (Z.of_nat (length bs)) w1 = (Ok text, w1)))
  ∧ (seek_bound w < write_at ∨ 2 ^ 63 ≤ write_at →
       (write_to_file_at now h write_at text w).1 = Raise OutOfRange
       ∧ data_file w1 = data_file w
       ∧ ∃ sz, size_of w name = Some sz
           ∧ size_of w1 name = Some (Z.max sz end_pos)).
Proof.
  intros Hw Hh Ho Hmode Hpos Henc w1 end_pos.
  destruct (open_handle_bound _ _ _ _ _ Hw Hh Ho)
    as (m & Hb & Hname & Hstart & Hsize & Hsz & _).
  pose proof Hb as (_ & Hm & Hf).
  assert (f_start_pos m = 0) as Hzero.
  { rewrite <- (list_lookup_total_correct _ _ _ Hm).
    eapply origin_lookup_total, reachable_at_origin, Hw. }
  pose proof (lookup_lt_Some _ _ _ Hm) as Hr.
  pose proof (decode_encode _ _ Henc) as Hdec.
  split.
  - intros Hend. subst w1 end_pos.
    rewrite (write_at_runs now w h o m write_at text bs) by (done || lia).
    cbn [fst snd]. set (w1 := set_data_file _ _).
    assert (objects w1 !! h = Some o) as Ho1 by done.
    assert (records w1 !! file_meta_ref o
            = Some (with_modified_time now
                      (with_size (Z.max (f_size m) (write_at + Z.of_nat (length bs))) m)))
      as Hm1.
    { subst w1. fields. by rewrite list_lookup_insert_eq. }
    assert (seek_bound w1 = seek_bound w) as Hsb by done.
    assert (read_bound w1 = read_bound w) as Hrb by done.
    split; [done|]. intros Hread.
    unfold read_from_file_at. step.
    rewrite !bool_decide_eq_false_2 by lia. cbn [orb].
    step. cbn [f_size f_start_pos with_modified_time with_size].
    case_bool_decide as Hempty.
    + assert (bs = []) as -> by (destruct bs; [done|simpl in Hempty; lia]).
      by rewrite (encode_nil _ Henc).
    + rewrite bool_decide_eq_false_2 by lia.
      step_with ltac:(eapply seek_ok; lia).
      step_with ltac:(eapply read_ok; lia).
      replace (data_file w1)
        with (file_write (data_file w) (f_start_pos m + write_at) bs) by done.
      by rewrite file_read_write, Hdec by lia.
  - intros Hfar. subst w1 end_pos.
    assert (seek_bound w < f_start_pos m + write_at) as Hno.
    { rewrite Hzero. destruct Hfar as [?|?]; [lia|]. unfold seek_bound. lia. }
    rewrite (write_at_refused now w h o m write_at text bs) by done.
    cbn [fst snd]. split_and!; [done|done|].
    exists (f_size m). split; [done|].
    unfold size_of. fields. rewrite <- Hname, Hf. simpl.
    by rewrite list_lookup_total_insert_eq.
Qed.

(** "xyz" is written at offset 10 of a new file and read back; written at
    offset [2 ** 63], it is refused, and the size is [2 ** 63 + 3]. *)
Lemma write_at_then_read_at_reads_back_witness :
  let w := after 1024 [(1, Create "a.txt"); (2, Open "a.txt" "w")] in
  let w1 := (write_to_file_at 3 0%nat 10 (str_of "xyz") w).2 in
  let w2 := (write_to_file_at 3 0%nat (2 ^ 63) (str_of "xyz") w).2 in
  (write_to_file_at 3 0%nat 10 (str_of "xyz") w).1 = Ok tt
  ∧ read_from_file_at 0%nat 10 3 w1 = (Ok (str_of "xyz"), w1)
  ∧ (write_to_file_at 3 0%nat (2 ^ 63) (str_of "xyz") w).1 = Raise OutOfRange
  ∧ size_of w2 "a.txt" = Some (2 ^ 63 + 3).
Proof.
  intros w w1 w2.
  destruct (write_at_then_read_at_reads_back 1024 3 w "a.txt" 0%nat
              (MkFileObject "a.txt" "w" 0%nat []) 10 (str_of "xyz")
              (default [] (encode (str_of "xyz")))
              (reachable_after _ _) eq_refl eq_refl eq_refl ltac:(lia) eq_refl)
    as [Hnear _].
  destruct Hnear as [Hok Hread]; [by vm_compute|].
  destruct (write_at_then_read_at_reads_back 1024 3 w "a.txt" 0%nat
              (MkFileObject "a.txt" "w" 0%nat []) (2 ^ 63) (str_of "xyz")
              (default [] (encode (str_of "xyz")))
              (reachable_after _ _) eq_refl eq_refl eq_refl ltac:(lia) eq_refl)
    as [_ Hfar].
  destruct Hfar as (Hno & _ & sz & Hsz & Hsz'); [right; lia|].
  assert (sz = 0) as -> by (by vm_compute in Hsz; injection Hsz).
  split_and!; [exact Hok|apply Hread; by vm_compute|exact Hno|exact Hsz'].
Defined.

(** X24.  A write that the file layer refuses leaves a file that cannot be
    opened.  In every state the engine can reach, for a [FileObject] in
    [open_files] that was opened for writing and an encodable text,
    [write_to_file_at] at an offset of [2 ** 63] or more raises after it
    has set the size of the file, to [2 ** 63] or more; from then on
    [open] of the name raises and changes nothing, the size being more
    than any platform reads at once, until [truncate_file] cuts the size
    down: cut to 0 through the object, the file opens again. *)
Theorem refused_write_leaves_a_file_that_cannot_be_opened
    capacity now now' now'' w name h o write_at text bs md :
  reachable capacity w → open_files w !! name = Some h →
  objects w !! h = Some o → mode o = "w" →
  2 ^ 63 ≤ write_at → encode text = Some bs → md = "r" ∨ md = "w" →
  let w1 := (write_to_file_at now h write_at text w).2 in
  let w2 := (truncate_file now' h 0 w1).2 in
  (write_to_file_at now h write_at text w).1 = Raise OutOfRange
  ∧ (∃ sz, size_of w1 name = Some sz ∧ 2 ^ 63 ≤ sz)
  ∧ open now'' name md w1 = (Raise OutOfRange, w1)
  ∧ (truncate_file now' h 0 w1).1 = Ok tt
  ∧ size_of w2 name = Some 0
  ∧ ∃ h2 w3, open now'' name md w2 = (Ok h2, w3)
      ∧ content <$> objects w3 !! h2 = Some [].
Proof.
  intros Hw Hh Ho Hmode Hfar Henc Hmd w1 w2.
  destruct (open_handle_bound _ _ _ _ _ Hw Hh Ho)
    as (m & Hb & Hname & Hstart & Hsize & Hsz & _).
  pose proof Hb as (_ & Hm & Hf).
  assert (f_start_pos m = 0) as Hzero.
  { rewrite <- (list_lookup_total_correct _ _ _ Hm).
    eapply origin_lookup_total, reachable_at_origin, Hw. }
  pose proof (lookup_lt_Some _ _ _ Hm) as Hr.
  assert (seek_bound w < f_start_pos m + write_at) as Hno
    by (rewrite Hzero; unfold seek_bound; lia).
  subst w1 w2.
  rewrite (write_at_refused now w h o m write_at text bs) by (done || lia).
  cbn [fst snd].
  set (n := Z.max (f_size m) (write_at + Z.of_nat (length bs))).
  set (w1 := set_records _ w).
  assert (records w1 !! file_meta_ref o = Some (with_size n m)) as Hm1.
  { subst w1. fields. by rewrite list_lookup_insert_eq. }
  assert (files w1 !! name = Some (file_meta_ref o)) as Hf1.
  { subst w1. fields. by rewrite <- Hname. }
  assert (bound w1 h o (with_size n m)) as Hb1.
  { split_and!; [done|done|]. by rewrite Hname. }
  assert (seek_bound w1 = seek_bound w ∧ read_bound w1 = read_bound w)
    as [Hsb Hrb] by done.
  pose proof (seek_bound_nonneg w) as Hseek.
  destruct (truncate_bound now' w1 h o (with_size n m) 0 Hb1 Hmode ltac:(lia))
    as (Hcut & _ & Hcut0 & _).
  cbn [f_size with_size] in Hcut0. rewrite Hname in Hcut0.
  split_and!.
  - done.
  - exists n. split; [|subst n; lia].
    unfold size_of. rewrite Hf1. simpl.
    by rewrite (list_lookup_total_correct _ _ _ Hm1).
  - apply (open_unreadable now'' w1 name md _ Hf1 Hmd);
      rewrite (list_lookup_total_correct _ _ _ Hm1);
      cbn [f_start_pos f_size with_size]; [lia|].
    rewrite Hrb. unfold read_bound. subst n. lia.
  - exact Hcut.
  - apply Hcut0. subst n. lia.
  - rewrite (truncate_cuts now' w1 h o (with_size n m) 0 Hb1 Hmode)
      by (cbn [f_size with_size]; subst n; lia).
    cbn [fst snd]. set (w2 := set_records _ w1).
    assert (files w2 !! name = Some (file_meta_ref o)) as Hf2 by done.
    assert (records w2 !! file_meta_ref o
            = Some (with_modified_time now' (with_size 0 (with_size n m))))
      as Hm2.
    { subst w2. fields. apply list_lookup_insert_eq.
      subst w1. fields. by rewrite length_insert. }
    pose proof (open_existing now'' w2 name md _ Hf2 Hmd) as Hopen.
    cbv zeta in Hopen.
    rewrite (list_lookup_total_correct _ _ _ Hm2) in Hopen.
    cbn [f_start_pos f_size with_size with_modified_time] in Hopen.
    pose proof (seek_bound_nonneg w2). pose proof (read_bound_nonneg w2).
    rewrite Hopen by lia.
    unfold file_read. rewrite bool_decide_eq_false_2 by lia.
    rewrite take_0. simpl decode. cbv iota.
    eexists _, _. split; [reflexivity|]. fields.
    by rewrite lookup_app_r, Nat.sub_diag.
Qed.

(** "xyz" is written at offset [2 ** 63] of "a.txt", which holds "abcd". *)
Lemma refused_write_leaves_a_file_that_cannot_be_opened_witness :
  let w := after 1024 [(1, Create "a.txt"); (2, Open "a.txt" "w");
                       (3, Append 0%nat (str_of "abcd"))] in
  let w1 := (write_to_file_at 4 0%nat (2 ^ 63) (str_of "xyz") w).2 in
  (write_to_file_at 4 0%nat (2 ^ 63) (str_of "xyz") w).1 = Raise OutOfRange
  ∧ size_of w1 "a.txt" = Some (2 ^ 63 + 3)
  ∧ open 6 "a.txt" "r" w1 = (Raise OutOfRange, w1)
  ∧ size_of (truncate_file 5 0%nat 0 w1).2 "a.txt" = Some 0.
Proof.
  intros w w1.
  destruct (refused_write_leaves_a_file_that_cannot_be_opened 1024 4 5 6 w
              "a.txt" 0%nat (MkFileObject "a.txt" "w" 0%nat (str_of "abcd"))
              (2 ^ 63) (str_of "xyz") (default [] (encode (str_of "xyz"))) "r"
              (reachable_after _ _) eq_refl eq_refl eq_refl ltac:(lia) eq_refl
              ltac:(by left))
    as (Hno & _ & Hopen & _ & Hcut & _).
  split_and!; [exact Hno|reflexivity|exact Hopen|exact Hcut].
Defined.

End round_trips.



Section origin_properties.

Implicit Types (w : FileSystem) (m : file_meta).


Lemma reachable_accounted capacity w :
  reachable capacity w → used_size w + total_free (free_space w) = capacity.
Proof.
  induction 1 as [now|w now c Hw IH|w s r Hw IH]; [simpl; lia| |exact IH].
  pose proof (accounted_run now c w) as Hacc.
  apply (f_equal snd) in Hacc. simpl in Hacc. by rewrite Hacc.
Qed.

Lemma current_directory_runs now w :
  get_current_directory_meta now w
    = (Ok (current_path w), with_current_directory now w).
Proof.
  unfold get_current_directory_meta, with_current_directory. run_monad.
  by destruct (directories w !! current_path w).
Qed.

Lemma current_directory_is_entered now w :
  is_Some (directories (with_current_directory now w) !! current_path w).
Proof.
  unfold with_current_directory.
  destruct (directories w !! current_path w) eqn:Hd; [by rewrite Hd|].
  fields. by rewrite lookup_insert_eq.
Qed.

(** X2.  Every file starts at offset 0.  [create] and the constructor of
    [FileObject] ask the allocator for 0 bytes, which takes nothing from the
    block chosen and returns its start; hence, in every state the engine can
    reach, every file of the files map has [start_pos] 0 and every free
    block starts at 0: the segments of any two files begin at the same byte
    of the data file. *)
Theorem every_file_starts_at_offset_zero capacity w :
  reachable capacity w →
  (∀ name, is_Some (files w !! name) → start_pos_of w name = Some 0)
  ∧ (∀ b, b ∈ free_space w → b.1 = 0).
Proof.
  intros Hw. pose proof (reachable_at_origin _ _ Hw) as Horigin. split.
  - intros name [r Hr]. unfold start_pos_of. rewrite Hr. simpl.
    by rewrite origin_lookup_total.
  - destruct Horigin as (Hfree & _). by apply Forall_forall.
Qed.

(** Two files are created one after the other and one is written to:
    both start at offset 0. *)
Lemma every_file_starts_at_offset_zero_witness :
  let w := after 1024 [(1, Create "a.txt"); (2, Open "a.txt" "w");
                       (3, Append 0%nat (str_of "abcd")); (4, Create "b.txt")] in
  start_pos_of w "a.txt" = Some 0 ∧ start_pos_of w "b.txt" = Some 0.
Proof.
  intros w.
  destruct (every_file_starts_at_offset_zero 1024 w (reachable_after _ _))
    as [Hfiles _].
  split; apply Hfiles; [exists 0%nat|exists 1%nat]; by vm_compute.
Defined.

(** X3.  [used_size] never counts a byte.  The only sizes the engine passes
    to the allocator are 0, on [create] and [open], and the size of a
    deleted file, on [delete]; hence, in every state the engine can reach,
    [used_size] is at most 0 and the free blocks add up to at least the
    capacity, whatever has been written. *)
Theorem used_size_is_never_positive capacity w :
  reachable capacity w →
  used_size w ≤ 0 ∧ capacity ≤ total_free (free_space w).
Proof.
  intros Hw. destruct (reachable_at_origin _ _ Hw) as (_ & _ & Hused & _).
  pose proof (reachable_accounted _ _ Hw). lia.
Qed.

(** Four bytes are written to a file: [used_size] is still 0; the file is
    deleted: it is -4. *)
Lemma used_size_is_never_positive_witness :
  let w := after 1024 [(1, Create "a.txt"); (2, Open "a.txt" "w");
                       (3, Append 0%nat (str_of "abcd")); (4, Close "a.txt")] in
  (used_size w ≤ 0 ∧ 1024 ≤ total_free (free_space w))
  ∧ (used_size (run 5 (Delete "a.txt") w).2 ≤ 0
     ∧ 1024 ≤ total_free (free_space (run 5 (Delete "a.txt") w).2)).
Proof.
  intros w. split.
  - exact (used_size_is_never_positive 1024 w (reachable_after _ _)).
  - exact (used_size_is_never_positive 1024 _
             (reachable_step _ _ 5 (Delete "a.txt") (reachable_after _ _))).
Defined.

Lemma taken_nothing i b w :
  free_space w !! i = Some b → b.2 ≠ 0 → taken 0 i b w = w.
Proof.
  intros Hi Hb. unfold taken. rewrite bool_decide_eq_false_2 by done.
  destruct w. unfold set_used_size, set_free_space. simpl in *. f_equal.
  - lia.
  - destruct b as [b1 b2]. simpl.
    rewrite Z.add_0_r, Z.sub_0_r. by apply list_insert_id.
Qed.

Lemma allocate_nothing w :
  at_origin w → 0 < max_size w → _allocate_space 0 w = (Ok 0, w).
Proof.
  intros (Hfree & _ & _ & Hroom) Hpos. destruct (Hroom Hpos) as [Hne Hsizes].
  rewrite Forall_forall in Hfree, Hsizes.
  destruct (allocate_cases 0 (free_space w)) as [Hnone|(i & b & Hbest)].
  - destruct (free_space w) as [|b fs]; [done|].
    apply Forall_cons in Hnone as [Hb _]. specialize (Hsizes b ltac:(left)). lia.
  - rewrite (allocate_takes _ _ _ _ Hbest). destruct Hbest as (Hi & _).
    pose proof (list_elem_of_lookup_2 _ _ _ Hi) as Hin.
    rewrite (Hfree b Hin), taken_nothing; [done..|].
    specialize (Hsizes b Hin). lia.
Qed.

(** X5.  [create] does not run out of space.  In every state the engine can
    reach on a volume of one byte or more, [create] of a name that the files
    map does not hold returns True, however much has been written: the new
    file has size 0 and starts at offset 0, its name is in the file list of
    the current directory, and the free list, [used_size] and the data file
    are what they were.  Opened, the file reads as the empty string. *)
Theorem create_returns_when_the_name_is_new capacity now now' w name md :
  reachable capacity w → 0 < capacity → files w !! name = None →
  md = "r" ∨ md = "w" →
  ∃ w', create now name w = (Ok true, w')
    ∧ files w' = <[name := length (records w)]> (files w)
    ∧ records w' = records w ++ [FileMeta name 0 now now 0 false]
    ∧ size_of w' name = Some 0
    ∧ start_pos_of w' name = Some 0
    ∧ free_space w' = free_space w
    ∧ used_size w' = used_size w
    ∧ data_file w' = data_file w
    ∧ (∃ d, directories w' !! current_path w = Some d ∧ name ∈ d_files d)
    ∧ ∃ h w2, open now' name md w' = (Ok h, w2)
        ∧ content <$> objects w2 !! h = Some [].
Proof.
  intros Hw Hpos Hnew Hmd.
  pose proof (reachable_at_origin _ _ Hw) as Horigin.
  pose proof (reachable_max_size _ _ Hw) as Hmax.
  destruct (current_directory_is_entered now w) as [d Hd].
  eexists. split.
  { unfold create. step. rewrite Hnew.
    step_with ltac:(apply current_directory_runs).
    step_with ltac:(apply allocate_nothing;
                    unfold with_current_directory;
                    destruct (directories w !! current_path w);
                    first [exact Horigin | simpl; lia]).
    unfold new_record. run_binds. fields. unfold _save_metadata. run_binds.
    reflexivity. }
  assert ((records w ++ [FileMeta name 0 now now 0 false]) !!! length (records w)
          = FileMeta name 0 now now 0 false) as Hrec.
  { apply list_lookup_total_correct. by rewrite lookup_app_r, Nat.sub_diag. }
  assert (files (with_current_directory now w) = files w
          ∧ records (with_current_directory now w) = records w
          ∧ free_space (with_current_directory now w) = free_space w
          ∧ used_size (with_current_directory now w) = used_size w
          ∧ data_file (with_current_directory now w) = data_file w
          ∧ objects (with_current_directory now w) = objects w)
    as (Hf0 & Hr0 & Hfs0 & Hu0 & Hd0 & Ho0).
  { unfold with_current_directory. by destruct (directories w !! current_path w). }
  fields. rewrite Hf0, Hr0, Hfs0, Hu0, Hd0. split_and!; try done.
  - unfold size_of. fields. rewrite Hf0, Hr0, lookup_insert_eq. simpl.
    by rewrite Hrec.
  - unfold start_pos_of. fields. rewrite Hf0, Hr0, lookup_insert_eq. simpl.
    by rewrite Hrec.
  - exists (add_file name d). split.
    + by rewrite lookup_alter_eq, Hd.
    + unfold add_file, append_new. simpl. case_bool_decide; [done|].
      apply elem_of_app. right. by left.
  - match goal with |- ∃ h w2, open _ _ _ ?x = _ ∧ _ => set (w1 := x) end.
    assert (files w1 !! name = Some (length (records w))) as Hf1.
    { subst w1. fields. by rewrite Hf0, lookup_insert_eq. }
    pose proof (open_existing now' w1 name md _ Hf1 Hmd) as Hopen.
    cbv zeta in Hopen.
    replace (records w1 !!! length (records w))
      with (FileMeta name 0 now now 0 false) in Hopen
      by (subst w1; fields; by rewrite Hr0, Hrec).
    cbn [f_start_pos f_size] in Hopen.
    pose proof (seek_bound_nonneg w1). pose proof (read_bound_nonneg w1).
    rewrite Hopen by lia.
    unfold file_read. rewrite bool_decide_eq_false_2 by lia.
    rewrite take_0. simpl decode. cbv iota.
    eexists _, _. split; [reflexivity|]. fields.
    by rewrite lookup_app_r, Nat.sub_diag.
Qed.

(** A file is written and deleted, and a file of another name created. *)
Lemma create_returns_when_the_name_is_new_witness :
  let w := after 1024 [(1, Create "a.txt"); (2, Open "a.txt" "w");
                       (3, Append 0%nat (str_of "abcd")); (4, Close "a.txt");
                       (5, Delete "a.txt")] in
  ∃ w', create 6 "b.txt" w = (Ok true, w') ∧ size_of w' "b.txt" = Some 0.
Proof.
  intros w.
  destruct (create_returns_when_the_name_is_new 1024 6 7 w "b.txt" "r")
    as (w' & Hrun & _ & _ & Hsize & _);
    [apply reachable_after|lia|reflexivity|by left|].
  exists w'. by split.
Defined.

End origin_properties.

(** ** Paths *)

Section paths.

Implicit Types (s p d : string) (parts : list string).

Lemma split_not_nil s : split s ≠ [].
Proof.
  destruct s as [|c s]; simpl; [done|].
  case_bool_decide; [done|]. by destruct (split s).
Qed.

Lemma split_app a b : split (a +:+ "/" +:+ b) = split a ++ split b.
Proof.
  induction a as [|c a IH]; simpl; [done|].
  case_bool_decide.
  - by rewrite IH.
  - rewrite IH. pose proof (split_not_nil a). by destruct (split a).
Qed.

Lemma split_no_slash s : no_slash s = true → split s = [s].
Proof.
  induction s as [|c s IH]; simpl; [done|].
  intros [Hc Hs]%andb_prop. rewrite IH by done.
  case_bool_decide; [done|]. done.
Qed.

Lemma split_join parts :
  parts ≠ [] → Forall plain parts → split (join parts) = parts.
Proof.
  induction parts as [|p parts IH]; [done|]. intros _ Hall.
  apply Forall_cons in Hall as [[_ Hp] Hall].
  destruct parts as [|q parts]; simpl.
  - by apply split_no_slash.
  - change (split (p +:+ "/" +:+ join (q :: parts)) = p :: q :: parts).
    rewrite split_app, split_no_slash, IH by done. done.
Qed.

Lemma path_parts_normal parts :
  Forall plain parts → path_parts ("/" +:+ join parts) = parts.
Proof.
  intros Hall. unfold path_parts.
  change (split ("/" +:+ join parts)) with ("" :: split (join parts)).
  rewrite filter_cons_False by (by intros ?).
  destruct parts as [|p parts]; [done|].
  rewrite split_join by done.
  induction Hall as [|q qs [Hq _] _ IH]; [done|].
  by rewrite filter_cons_True, IH.
Qed.

Lemma path_parts_child cp d :
  plain d → path_parts (child_path cp d) = path_parts cp ++ [d].
Proof.
  intros [Hne Hd]. unfold child_path, path_parts. case_bool_decide as Hroot.
  - subst cp. change (split ("/" +:+ d)) with ("" :: split d).
    rewrite split_no_slash by done. simpl.
    rewrite filter_cons_False by (by intros ?).
    by rewrite filter_cons_True.
  - rewrite split_app, (split_no_slash d), filter_app by done.
    by rewrite (filter_cons_True _ d).
Qed.

Lemma normal_path_parts p : normal_path p → "/" +:+ join (path_parts p) = p.
Proof. intros (parts & Hall & ->). by rewrite path_parts_normal. Qed.

Lemma string_length_app a b :
  String.length (a +:+ b) = (String.length a + String.length b)%nat.
Proof.
  induction a as [|c a IH]; [done|].
  change (S (String.length (a +:+ b)) = S (String.length a + String.length b)).
  by rewrite IH.
Qed.

Lemma child_path_longer cp d :
  d ≠ "" → (String.length cp < String.length (child_path cp d))%nat.
Proof.
  intros Hd. unfold child_path.
  assert (0 < String.length d)%nat by (destruct d; [done|cbn; lia]).
  case_bool_decide as Hroot.
  - subst cp. rewrite string_length_app. cbn. lia.
  - rewrite !string_length_app. cbn. lia.
Qed.

Lemma child_path_not_root cp d : d ≠ "" → child_path cp d ≠ "/".
Proof.
  intros Hd Heq. pose proof (child_path_longer cp d Hd) as Hlen.
  rewrite Heq in Hlen. cbn in Hlen. unfold child_path in Heq.
  destruct cp as [|c cp]; [|cbn in Hlen; lia].
  rewrite bool_decide_eq_false_2 in Heq by done.
  apply (f_equal String.length) in Heq. rewrite !string_length_app in Heq.
  destruct d; [done|]. cbn in Heq. lia.
Qed.

Lemma child_path_not_parent cp d : d ≠ "" → child_path cp d ≠ cp.
Proof.
  intros Hd Heq. pose proof (child_path_longer cp d Hd) as Hlen.
  rewrite Heq in Hlen. lia.
Qed.

End paths.

(** ** [mkdir] and [chdir] *)

Section directories.

Implicit Types (w : FileSystem) (parts : list string).

Lemma string_app_assoc (a b c : string) : (a +:+ b) +:+ c = a +:+ b +:+ c.
Proof.
  induction a as [|x a IH]; [done|].
  change (String x ((a +:+ b) +:+ c) = String x (a +:+ b +:+ c)). by rewrite IH.
Qed.

Lemma join_snoc parts (d : string) :
  parts ≠ [] → join (parts ++ [d]) = join parts +:+ "/" +:+ d.
Proof.
  induction parts as [|p parts IH]; [done|]. intros _.
  destruct parts as [|q parts]; [done|].
  change (p +:+ "/" +:+ join ((q :: parts) ++ [d])
          = (p +:+ "/" +:+ join (q :: parts)) +:+ "/" +:+ d).
  rewrite IH by done. by rewrite !string_app_assoc.
Qed.

Lemma normal_path_child (cp d : string) :
  normal_path cp → plain d → normal_path (child_path cp d).
Proof.
  intros (parts & Hall & ->) Hd. exists (parts ++ [d]). split.
  { apply Forall_app. split; [done|]. by constructor. }
  unfold child_path. destruct parts as [|p parts].
  - by rewrite bool_decide_eq_true_2.
  - rewrite bool_decide_eq_false_2.
    + by rewrite join_snoc, string_app_assoc.
    + intros Heq. apply (f_equal path_parts) in Heq.
      by rewrite path_parts_normal in Heq.
Qed.

Lemma set_current_path_twice (p q : string) w :
  set_current_path p (set_current_path q w) = set_current_path p w.
Proof. done. Qed.

(** X7.  [mkdir] of a name that is not taken, and is not empty, ".", ".." or
    "/": the call returns True; the new directory is entered under the child
    path, empty; the name is in the list of subdirectories of the current
    directory; the other directories are what they were.  After that a
    second [mkdir] of the name raises AlreadyExists, changing nothing, and
    [chdir] to the name returns True with [current_path] the child path. *)
Theorem mkdir_then_chdir_enters now w dir_name :
  directories w !! child_path (current_path w) dir_name = None →
  dir_name ≠ "" → dir_name ≠ "." → dir_name ≠ ".." → dir_name ≠ "/" →
  let child := child_path (current_path w) dir_name in
  let w1 := (mkdir now dir_name w).2 in
  (mkdir now dir_name w).1 = Ok true
  ∧ directories w1 !! child = Some (DirMeta dir_name now [] [])
  ∧ (∃ parent, directories w1 !! current_path w = Some parent
               ∧ dir_name ∈ d_subdirectories parent)
  ∧ (∀ q d, q ≠ current_path w → directories w !! q = Some d →
            directories w1 !! q = Some d)
  ∧ (∀ now', mkdir now' dir_name w1 = (Raise AlreadyExists, w1))
  ∧ chdir dir_name w1 = (Ok true, set_current_path child w1).
Proof.
  intros Hnew Hne Hdot Hdots Hroot child w1.
  pose proof (child_path_not_parent (current_path w) dir_name Hne) as Hchild.
  fold child in Hnew, Hchild.
  set (w0 := set_directories <[child := DirMeta dir_name now [] []]> w).
  assert (mkdir now dir_name w
          = (Ok true,
             set_directories (alter (add_subdirectory dir_name) (current_path w))
               (with_current_directory now w0))) as Hrun.
  { unfold mkdir. run_binds. fold child. rewrite Hnew. run_binds. fold w0.
    step_with ltac:(apply current_directory_runs). by run_binds. }
  subst w1. rewrite Hrun. cbn [fst snd].
  destruct (current_directory_is_entered now w0) as [p Hp].
  change (current_path w0) with (current_path w) in Hp.
  assert (current_path (with_current_directory now w0) = current_path w) as Hcp.
  { unfold with_current_directory. by destruct (directories w0 !! _). }
  assert (∀ q d, q ≠ current_path w → directories w0 !! q = Some d →
            directories (with_current_directory now w0) !! q = Some d) as Hkeep.
  { intros q d Hq Hd. unfold with_current_directory.
    change (current_path w0) with (current_path w).
    destruct (directories w0 !! current_path w); [done|].
    fields. by rewrite lookup_insert_ne. }
  assert (alter (add_subdirectory dir_name) (current_path w)
            (directories (with_current_directory now w0)) !! child
          = Some (DirMeta dir_name now [] [])) as Hentered.
  { rewrite lookup_alter_ne by done. apply Hkeep; [done|].
    subst w0. fields. by rewrite lookup_insert_eq. }
  split_and!.
  - done.
  - done.
  - exists (add_subdirectory dir_name p). fields. split.
    + by rewrite lookup_alter_eq, Hp.
    + unfold add_subdirectory, append_new. simpl. case_bool_decide; [done|].
      apply elem_of_app. right. by left.
  - intros q d Hq Hd. fields. rewrite lookup_alter_ne by done.
    apply Hkeep; [done|]. subst w0. fields.
    rewrite lookup_insert_ne; [done|]. intros <-. congruence.
  - intros now'. unfold mkdir. run_binds. fields. rewrite Hcp. fold child.
    fields. by rewrite Hentered.
  - unfold chdir. rewrite !bool_decide_eq_false_2 by done.
    run_binds. fields. rewrite Hcp. fold child. by rewrite Hentered.
Qed.

(** [mkdir] of "docs" at the root of a new volume, and [chdir] to it. *)
Lemma mkdir_then_chdir_enters_witness :
  let w := FileSystem_init 0 1024 in
  let w1 := (mkdir 1 "docs" w).2 in
  (mkdir 1 "docs" w).1 = Ok true
  ∧ chdir "docs" w1 = (Ok true, set_current_path "/docs" w1).
Proof.
  intros w w1.
  destruct (mkdir_then_chdir_enters 1 w "docs")
    as (Hrun & _ & _ & _ & _ & Hcd); try done.
Defined.

(** X8.  [chdir] to a plain name and back.  From a current path in normal
    form ("/", or "/a/b" with no empty component), [chdir] to a directory
    that exists and whose name is plain, and is neither "." nor "..",
    returns True and leaves a current path in normal form; [chdir] to ".."
    then returns True and restores the state. *)
Theorem chdir_parent_undoes_chdir w dir_name :
  normal_path (current_path w) → plain dir_name →
  dir_name ≠ "." → dir_name ≠ ".." →
  is_Some (directories w !! child_path (current_path w) dir_name) →
  let child := child_path (current_path w) dir_name in
  chdir dir_name w = (Ok true, set_current_path child w)
  ∧ normal_path child
  ∧ chdir ".." (set_current_path child w) = (Ok true, w).
Proof.
  intros Hnormal Hplain Hdot Hdots [d Hd] child.
  pose proof Hplain as [Hne Hslash].
  assert (dir_name ≠ "/") as Hroot by (by intros ->).
  split_and!.
  - unfold chdir. rewrite !bool_decide_eq_false_2 by done.
    run_binds. by rewrite Hd.
  - by apply normal_path_child.
  - unfold chdir. rewrite bool_decide_eq_false_2 by done.
    rewrite bool_decide_eq_true_2 by done. run_binds. fields.
    rewrite bool_decide_eq_false_2 by (by apply child_path_not_root).
    subst child. rewrite path_parts_child by done.
    rewrite length_app, Nat.add_sub, take_app_length.
    rewrite normal_path_parts by done.
    rewrite bool_decide_eq_false_2.
    + run_binds. rewrite set_current_path_twice. by rewrite set_current_path_id.
    + destruct Hnormal as (parts & _ & ->). discriminate.
Qed.

(** From "/a" into "b" and back. *)
Lemma chdir_parent_undoes_chdir_witness :
  let w := after 1024 [(1, Mkdir "a"); (2, Chdir "a"); (3, Mkdir "b")] in
  chdir ".." (chdir "b" w).2 = (Ok true, w).
Proof.
  intros w.
  destruct (chdir_parent_undoes_chdir w "b") as (Hcd & _ & Hback).
  - exists ["a"]. split; [|reflexivity]. by repeat constructor.
  - done.
  - done.
  - done.
  - exists (DirMeta "b" 3 [] []). by vm_compute.
  - by rewrite Hcd.
Defined.

End directories.

(** ** [move] *)

Section moving.

Implicit Types (w : FileSystem) (parts : list string)
  (ds : gmap string dir_meta).

Lemma extends_refl ds : extends ds ds.
Proof. intros q. destruct (ds !! q) as [d|] eqn:Hq; [by exists d|done]. Qed.

Lemma extends_trans ds1 ds2 ds3 :
  extends ds1 ds2 → extends ds2 ds3 → extends ds1 ds3.
Proof.
  intros H12 H23 q. specialize (H12 q). specialize (H23 q).
  destruct (ds1 !! q) as [d1|].
  - destruct H12 as (d2 & Hd2 & Hf2). rewrite Hd2 in H23.
    destruct H23 as (d3 & Hd3 & Hf3). exists d3. split; [done|congruence].
  - intros d3 Hd3. destruct (ds2 !! q) as [d2|] eqn:Hd2.
    + destruct H23 as (d3' & Hd3' & Hf3). rewrite Hd3 in Hd3'.
      injection Hd3' as <-. rewrite Hf3. by apply H12.
    + by apply H23.
Qed.

Lemma extends_insert ds q d :
  ds !! q = None → d_files d = [] → extends ds (<[q := d]> ds).
Proof.
  intros Hq Hd q'. destruct (decide (q' = q)) as [->|Hne].
  - rewrite Hq. intros d'. rewrite lookup_insert_eq. by intros [= <-].
  - rewrite lookup_insert_ne by done.
    destruct (ds !! q') as [d0|] eqn:Hq'; [by exists d0|done].
Qed.

Lemma extends_alter ds q g :
  (∀ d, d_files (g d) = d_files d) → extends ds (alter g q ds).
Proof.
  intros Hg q'. destruct (decide (q' = q)) as [->|Hne].
  - rewrite lookup_alter_eq. destruct (ds !! q) as [d|]; [|done].
    exists (g d). by split.
  - rewrite lookup_alter_ne by done.
    destruct (ds !! q') as [d0|] eqn:Hq'; [by exists d0|done].
Qed.

Lemma make_dirs_extends now parts : ∀ curr ds,
  extends ds (make_dirs now parts curr ds).
Proof.
  induction parts as [|part parts IH]; intros curr ds; simpl.
  { apply extends_refl. }
  set (curr' := if bool_decide (curr = "") then _ else _).
  eapply extends_trans; [|apply IH].
  destruct (ds !! curr') eqn:Hcurr; [apply extends_refl|].
  set (ds1 := <[curr' := _]> ds).
  assert (extends ds ds1) as H1 by (by apply extends_insert).
  destruct (ds1 !! _); [|done].
  eapply extends_trans; [exact H1|]. by apply extends_alter.
Qed.

Lemma make_dirs_creates now parts : ∀ curr ds,
  parts ≠ [] → is_Some (make_dirs now parts curr ds !! path_after curr parts).
Proof.
  induction parts as [|part parts IH]; intros curr ds Hne; [done|]. simpl.
  set (curr' := if bool_decide (curr = "") then _ else _).
  set (ds' := match ds !! curr' with Some _ => _ | None => _ end).
  destruct parts as [|part' parts].
  - simpl. subst ds'. destruct (ds !! curr') eqn:Hcurr; [by rewrite Hcurr|].
    set (ds1 := <[curr' := _]> ds).
    assert (is_Some (ds1 !! curr')) as H1 by (by subst ds1; rewrite lookup_insert_eq).
    destruct (ds1 !! (if bool_decide (curr' = _) then _ else _)); [|done].
    by rewrite lookup_alter_is_Some.
  - by apply IH.
Qed.

Lemma path_after_from (curr : string) parts :
  curr ≠ "" → parts ≠ [] → path_after curr parts = curr +:+ "/" +:+ join parts.
Proof.
  revert curr. induction parts as [|part parts IH]; intros curr Hcurr Hne; [done|].
  unfold path_after. simpl. rewrite bool_decide_eq_false_2 by done.
  destruct parts as [|part' parts]; [done|].
  fold (path_after (curr +:+ "/" +:+ part) (part' :: parts)).
  rewrite IH; [|by destruct curr|done].
  change (join (part :: part' :: parts))
    with (part +:+ "/" +:+ join (part' :: parts)).
  by rewrite !string_app_assoc.
Qed.

Lemma path_after_join parts :
  parts ≠ [] → path_after "" parts = "/" +:+ join parts.
Proof.
  destruct parts as [|part parts]; [done|]. intros _.
  unfold path_after. simpl.
  destruct parts as [|part' parts]; [done|].
  fold (path_after ("/" +:+ part) (part' :: parts)).
  by rewrite path_after_from.
Qed.

Lemma move_frame now source_fname target_dir :
  preserves but_directories (move now source_fname target_dir).
Proof. unfold move. frame. Qed.

Lemma mkdir_frame now dir_name : preserves but_directories (mkdir now dir_name).
Proof. unfold mkdir, get_current_directory_meta. frame. Qed.

Lemma elem_of_append_new (x : string) l : x ∈ append_new x l.
Proof.
  unfold append_new. case_bool_decide; [done|]. apply elem_of_app. right. by left.
Qed.

(** X9.  [move] of a file that exists and is not open, to a directory that
    exists or whose path is in normal form and not the root ("/a/b": no
    empty component, no trailing slash): the call returns True, creating the
    directory when it is missing; the target directory then lists the name,
    after the names it listed before; every other directory that existed is
    still there, its file list short of the first occurrence of the name;
    and nothing but the directories map has changed. *)
Theorem move_lists_the_file_in_the_target now w source_fname target_dir r :
  files w !! source_fname = Some r → open_files w !! source_fname = None →
  let tp := target_path w target_dir in
  is_Some (directories w !! tp) ∨ (normal_path tp ∧ tp ≠ "/") →
  ∃ w', move now source_fname target_dir w = (Ok true, w')
    ∧ but_directories w' = but_directories w
    ∧ (∃ d', directories w' !! tp = Some d'
         ∧ source_fname ∈ d_files d'
         ∧ d_files d'
           = append_new source_fname
               (remove_first source_fname
                  (default [] (d_files <$> directories w !! tp))))
    ∧ (∀ q d, q ≠ tp → directories w !! q = Some d →
         ∃ d', directories w' !! q = Some d'
               ∧ d_files d' = remove_first source_fname (d_files d)).
Proof.
  intros Hfile Hclosed tp Htarget.
  set (ds1 := match directories w !! tp with
              | Some _ => directories w
              | None => make_dirs now (path_parts tp) "" (directories w)
              end).
  assert (extends (directories w) ds1) as Hext.
  { subst ds1. destruct (directories w !! tp);
      [apply extends_refl|apply make_dirs_extends]. }
  assert (∃ d1, ds1 !! tp = Some d1
                ∧ d_files d1 = default [] (d_files <$> directories w !! tp))
    as (d1 & Hd1 & Hfiles1).
  { pose proof (Hext tp) as Htp.
    destruct (directories w !! tp) as [d|] eqn:Hd; [done|].
    destruct Htarget as [[? [=]]|[(parts & Hall & Hparts) Hroot]].
    assert (parts ≠ []) as Hne by (intros ->; by rewrite Hparts in Hroot).
    destruct (make_dirs_creates now (path_parts tp) "" (directories w))
      as [d1 Hmade].
    { by rewrite Hparts, path_parts_normal. }
    rewrite Hparts, path_parts_normal, path_after_join, <- Hparts in Hmade by done.
    subst ds1. simpl. exists d1. split; [by rewrite Hparts, path_parts_normal in *|].
    apply Htp. by rewrite Hparts, path_parts_normal in *. }
  assert (move now source_fname target_dir w
          = (Ok true,
             set_directories
               (λ _, alter (add_file source_fname) tp
                       (drop_file source_fname <$> ds1)) w)) as Hrun.
  { unfold move. run_binds. rewrite Hfile. run_binds. rewrite Hclosed.
    run_binds. fold (target_path w target_dir). fold tp.
    destruct (directories w !! tp) as [d|] eqn:Hd; run_binds; fields.
    - subst ds1. simpl in *. rewrite lookup_fmap, Hd. simpl.
      unfold _save_metadata. by run_binds.
    - subst ds1. simpl in *. rewrite lookup_fmap, Hd1. simpl.
      unfold _save_metadata. by run_binds. }
  eexists. split; [exact Hrun|]. fields. split_and!.
  - done.
  - exists (add_file source_fname (drop_file source_fname d1)).
    rewrite lookup_alter_eq, lookup_fmap, Hd1. simpl.
    split_and!; [done|apply elem_of_append_new|by rewrite Hfiles1].
  - intros q d Hq Hd. specialize (Hext q). rewrite Hd in Hext.
    destruct Hext as (d' & Hd' & Hf'). exists (drop_file source_fname d').
    rewrite lookup_alter_ne, lookup_fmap, Hd' by done. simpl.
    by rewrite Hf'.
Qed.

(** A file made at the root is moved to "docs/old", which does not
    exist: both directories are made and the second lists the file. *)
Lemma move_lists_the_file_in_the_target_witness :
  let w := after 1024 [(1, Create "a.txt")] in
  ∃ w', move 2 "a.txt" "docs/old" w = (Ok true, w')
    ∧ d_files <$> directories w' !! "/docs/old" = Some ["a.txt"]
    ∧ d_files <$> directories w' !! "/" = Some [].
Proof.
  intros w.
  destruct (move_lists_the_file_in_the_target 2 w "a.txt" "docs/old" 0%nat)
    as (w' & Hrun & _ & (d' & Hd' & _ & Hfiles) & Hothers).
  - reflexivity.
  - reflexivity.
  - right. split; [|done]. exists ["docs"; "old"]. split; [|reflexivity].
    by repeat constructor.
  - exists w'. split_and!; [exact Hrun|..].
    + change (target_path w "docs/old") with "/docs/old" in Hd'.
      rewrite Hd'. simpl. by rewrite Hfiles.
    + destruct (Hothers "/" (DirMeta "/" 0 ["a.txt"] [])) as (d0 & Hd0 & Hf0);
        [done|by vm_compute|].
      rewrite Hd0. simpl. by rewrite Hf0.
Defined.

End moving.

(** ** [delete] and [close] *)

(** Walks through a method that does not mention [open_files]. *)
Ltac oblivious_walk :=
  repeat lazymatch goal with
  | |- oblivious (mret _) => apply oblivious_ret
  | |- oblivious (raise _) => apply oblivious_raise
  | |- oblivious (gets _) => apply oblivious_gets; reflexivity
  | |- oblivious (modify _) => apply oblivious_modify; reflexivity
  | |- oblivious (_ ≫= _) => apply oblivious_bind; [|intros ?]
  | |- oblivious (if ?b then _ else _) => destruct b
  | |- oblivious (match ?x with _ => _ end) => destruct x
  end.

Section removing.

Implicit Types (w : FileSystem) (o : FileObject) (m : file_meta).

Lemma release_frame start size :
  preserves (λ w, (max_size w, files w, directories w, current_path w,
                   open_files w, records w, objects w, data_file w))
    (_release_space start size).
Proof. unfold _release_space. frame. Qed.

(** X6.  [delete] of a file that exists and is not open returns True.  The
    name leaves the files map, and the file list of every directory is short
    of its first occurrence; [used_size] goes down, and the free bytes up,
    by the size of the file (by 0 for a negative size); the data file is not
    written to, so the bytes of the file stay where they were.  After that
    [delete] of the name, and [open] of it for reading, raise NotFound and
    change nothing. *)
Theorem delete_removes_the_file now w name r :
  files w !! name = Some r → open_files w !! name = None →
  let size := Z.max 0 (f_size (records w !!! r)) in
  ∃ w', delete name w = (Ok true, w')
    ∧ files w' = base.delete name (files w)
    ∧ directories w' = drop_file name <$> directories w
    ∧ used_size w' = used_size w - size
    ∧ total_free (free_space w') = total_free (free_space w) + size
    ∧ (data_file w', records w', objects w', open_files w', current_path w',
       max_size w')
      = (data_file w, records w, objects w, open_files w, current_path w,
         max_size w)
    ∧ delete name w' = (Raise NotFound, w')
    ∧ open now name "r" w' = (Raise NotFound, w').
Proof.
  intros Hfile Hclosed size.
  set (m := records w !!! r) in *.
  pose proof (release_returns (f_start_pos m) (f_size m) w) as Hret.
  pose proof (release_frame (f_start_pos m) (f_size m) w) as Hframe.
  pose proof (accounted_release (f_start_pos m) (f_size m) w) as Hacc.
  destruct (release_other_fields (f_start_pos m) (f_size m) w) as (_ & _ & Hused).
  destruct (_release_space (f_start_pos m) (f_size m) w) as [[[]|e] w0] eqn:Hrel;
    [|done]. cbn [fst snd] in *.
  injection Hframe as Hmax Hfiles Hdirs Hcp Hopen Hrecs Hobjs Hdata.
  injection Hacc as _ Htotal.
  assert (used_size w0 = used_size w - size) as Hused'.
  { rewrite Hused. subst size. case_bool_decide; lia. }
  eexists. split.
  { unfold delete. run_binds. rewrite Hfile. run_binds. rewrite Hclosed.
    unfold get_record. run_binds. fold m. step_with ltac:(exact Hrel).
    unfold _save_metadata. run_binds. reflexivity. }
  fields. rewrite Hfiles, Hdirs, Hcp, Hopen, Hrecs, Hobjs, Hdata, Hmax.
  split_and!; try done.
  - lia.
  - unfold delete. run_binds. fields. by rewrite lookup_delete_eq.
  - unfold open, FileObject_init.
    rewrite bool_decide_eq_false_2 by (by intros [? _]).
    run_binds. fields. rewrite lookup_delete_eq.
    by rewrite bool_decide_eq_true_2.
Qed.

(** A file of four bytes is closed and deleted. *)
Lemma delete_removes_the_file_witness :
  let w := after 1024 [(1, Create "a.txt"); (2, Open "a.txt" "w");
                       (3, Append 0%nat (str_of "abcd")); (4, Close "a.txt")] in
  ∃ w', delete "a.txt" w = (Ok true, w')
    ∧ used_size w' = used_size w - 4
    ∧ data_file w' = data_file w.
Proof.
  intros w.
  destruct (delete_removes_the_file 5 w "a.txt" 0%nat)
    as (w' & Hrun & _ & _ & Hused & _ & Hsame & _); [reflexivity..|].
  exists w'. split_and!; [exact Hrun|exact Hused|].
  by injection Hsame.
Defined.

Lemma write_to_file_oblivious now h text : oblivious (write_to_file now h text).
Proof.
  unfold write_to_file, get_object, get_record, seek, update_record,
    files_item, _save_metadata.
  oblivious_walk.
Qed.

Lemma write_to_file_at_oblivious now h write_at text :
  oblivious (write_to_file_at now h write_at text).
Proof.
  unfold write_to_file_at, get_object, get_record, seek, update_record,
    files_item, _save_metadata.
  oblivious_walk.
Qed.

Lemma move_within_file_oblivious now h start size target :
  oblivious (move_within_file now h start size target).
Proof.
  unfold move_within_file, get_object, get_record, seek, read, update_record,
    files_item, _save_metadata.
  oblivious_walk.
Qed.

Lemma truncate_file_oblivious now h n : oblivious (truncate_file now h n).
Proof.
  unfold truncate_file, get_object, get_record, seek, update_record,
    files_item, _save_metadata.
  oblivious_walk.
Qed.

Lemma read_from_file_oblivious h : oblivious (read_from_file h).
Proof. unfold read_from_file, get_object. oblivious_walk. Qed.

Lemma read_from_file_at_oblivious h start size :
  oblivious (read_from_file_at h start size).
Proof.
  unfold read_from_file_at, get_object, get_record, seek, read.
  oblivious_walk.
Qed.

(** X12.  [close] takes the name out of [open_files] and does nothing else;
    a second [close] raises NotOpen.  The [FileObject] itself is not
    touched: each of its methods, called after the [close], returns or
    raises what it would have without it and has the same effect. *)
Theorem close_leaves_the_file_object_working w name h0 :
  open_files w !! name = Some h0 →
  let closed := set_open_files (base.delete name) in
  close name w = (Ok true, closed w)
  ∧ close name (closed w) = (Raise NotOpen, closed w)
  ∧ (∀ now h text,
       write_to_file now h text (closed w)
       = ((write_to_file now h text w).1, closed (write_to_file now h text w).2))
  ∧ (∀ now h write_at text,
       write_to_file_at now h write_at text (closed w)
       = ((write_to_file_at now h write_at text w).1,
          closed (write_to_file_at now h write_at text w).2))
  ∧ (∀ now h start size target,
       move_within_file now h start size target (closed w)
       = ((move_within_file now h start size target w).1,
          closed (move_within_file now h start size target w).2))
  ∧ (∀ now h n,
       truncate_file now h n (closed w)
       = ((truncate_file now h n w).1, closed (truncate_file now h n w).2))
  ∧ (∀ h, read_from_file h (closed w)
          = ((read_from_file h w).1, closed (read_from_file h w).2))
  ∧ (∀ h start size,
       read_from_file_at h start size (closed w)
       = ((read_from_file_at h start size w).1,
          closed (read_from_file_at h start size w).2)).
Proof.
  intros Hopen closed. split_and!.
  - unfold close. run_binds. by rewrite Hopen.
  - unfold close. run_binds. subst closed. fields. by rewrite lookup_delete_eq.
  - intros. apply write_to_file_oblivious.
  - intros. apply write_to_file_at_oblivious.
  - intros. apply move_within_file_oblivious.
  - intros. apply truncate_file_oblivious.
  - intros. apply read_from_file_oblivious.
  - intros. apply read_from_file_at_oblivious.
Qed.

(** A file is opened for writing and closed; the object still appends. *)
Lemma close_leaves_the_file_object_working_witness :
  let w := after 1024 [(1, Create "a.txt"); (2, Open "a.txt" "w")] in
  (close "a.txt" w).1 = Ok true
  ∧ (write_to_file 3 0%nat (str_of "abcd") (close "a.txt" w).2).1 = Ok tt.
Proof.
  intros w.
  destruct (close_leaves_the_file_object_working w "a.txt" 0%nat eq_refl)
    as (Hclose & _ & Hwrite & _).
  rewrite Hclose. split; [done|]. cbn [snd]. by rewrite Hwrite.
Defined.

(** X16.  No method of a [FileObject] writes the files map, the directories,
    the free list, [used_size], [current_path] or [open_files], whether it
    returns or raises: writing never allocates.  [write_to_file_at],
    [move_within_file] and [truncate_file] leave every buffer as it was, so
    [read_from_file] returns after them what it returned before; and the two
    reads change nothing at all. *)
Theorem file_methods_leave_the_namespace_alone :
  (∀ now h text, preserves namespace_and_allocator (write_to_file now h text))
  ∧ (∀ now h write_at text,
       preserves (λ w, (namespace_and_allocator w, objects w))
         (write_to_file_at now h write_at text))
  ∧ (∀ now h start size target,
       preserves (λ w, (namespace_and_allocator w, objects w))
         (move_within_file now h start size target))
  ∧ (∀ now h n,
       preserves (λ w, (namespace_and_allocator w, objects w))
         (truncate_file now h n))
  ∧ (∀ h w, (read_from_file h w).2 = w)
  ∧ (∀ h start size w, (read_from_file_at h start size w).2 = w).
Proof.
  split_and!; intros.
  - unfold write_to_file. frame.
  - unfold write_to_file_at. frame.
  - unfold move_within_file. frame.
  - unfold truncate_file. frame.
  - assert (preserves (λ w, w) (read_from_file h)) as H by
      (unfold read_from_file; frame).
    apply H.
  - assert (preserves (λ w, w) (read_from_file_at h start size)) as H by
      (unfold read_from_file_at; frame).
    apply H.
Qed.

End removing.

(** ** [open] of a name that does not exist *)

Section creating_by_open.

Implicit Types (w : FileSystem) (o : FileObject) (m : file_meta).

Lemma with_current_directory_fields now w :
  but_directories (with_current_directory now w) = but_directories w.
Proof.
  unfold with_current_directory. by destruct (directories w !! current_path w).
Qed.

Lemma with_current_directory_files now w :
  d_files <$> directories (with_current_directory now w) !! current_path w
  = Some (default [] (d_files <$> directories w !! current_path w)).
Proof.
  unfold with_current_directory.
  destruct (directories w !! current_path w) as [d|] eqn:Hd.
  - by rewrite Hd.
  - fields. by rewrite lookup_insert_eq.
Qed.

Lemma with_current_directory_others now w (q : string) :
  q ≠ current_path w →
  directories (with_current_directory now w) !! q = directories w !! q.
Proof.
  intros Hq. unfold with_current_directory.
  destruct (directories w !! current_path w); [done|].
  fields. by rewrite lookup_insert_ne.
Qed.

(** The constructor on a name that the files map does not hold, in write
    mode, up to the second look-up of the directory. *)
Lemma FileObject_init_new now w name :
  files w !! name = None → _allocate_space 0 w = (Ok 0, w) →
  let r := length (records w) in
  let w1 := set_directories (alter (add_file name) (current_path w))
              (with_current_directory now
                 (set_records (λ rs, rs ++ [FileMeta name 0 now now 0 false]) w)) in
  let dir_path := match path_parts (current_path w) with
                  | [] => ""
                  | _ => "/" +:+ join (path_parts (current_path w))
                  end in
  FileObject_init now name "w" w =
    match directories w1 !! dir_path with
    | None => (Raise KeyError, w1)
    | Some _ =>
        (Ok (length (objects w)),
         set_objects (λ os, os ++ [MkFileObject name "w" r []])
           (set_files <[name := r]>
              (set_directories (alter (push_file name) dir_path) w1)))
    end.
Proof.
  intros Hnew Halloc r w1 dir_path. unfold FileObject_init.
  run_binds. rewrite Hnew. rewrite bool_decide_eq_false_2 by (by intros ?).
  step_with ltac:(exact Halloc).
  unfold new_record. run_binds. fields.
  step_with ltac:(apply current_directory_runs).
  run_binds. fields. fold r.
  pose proof (with_current_directory_fields now
    (set_records (λ rs, rs ++ [FileMeta name 0 now now 0 false]) w)) as Hsame.
  injection Hsame as _ _ _ _ Hcp _ _ Hobjs _. fields.
  rewrite !Hcp. fold dir_path.
  change (alter (add_file name) (current_path w) (directories _))
    with (directories w1).
  destruct (directories w1 !! dir_path); [|done].
  unfold _save_metadata. run_binds. fields. by rewrite Hobjs.
Qed.

Lemma child_path_not_empty (cp d : string) : child_path cp d ≠ "".
Proof.
  unfold child_path. case_bool_decide; [done|].
  intros Heq. apply (f_equal String.length) in Heq.
  rewrite !string_length_app in Heq. cbn in Heq. lia.
Qed.

Lemma make_dirs_rooted now parts : ∀ (curr : string) ds,
  ds !! "" = None → make_dirs now parts curr ds !! "" = None.
Proof.
  induction parts as [|part parts IH]; intros curr ds Hds; [done|]. simpl.
  set (curr' := if bool_decide (curr = "") then _ else _).
  assert (curr' ≠ "") as Hcurr.
  { subst curr'. case_bool_decide; [done|]. intros Heq.
    apply (f_equal String.length) in Heq.
    rewrite !string_length_app in Heq. cbn in Heq. lia. }
  apply IH. destruct (ds !! curr'); [done|].
  set (ds1 := <[curr' := _]> ds).
  assert (ds1 !! "" = None) as H1 by (by subst ds1; rewrite lookup_insert_ne).
  destruct (ds1 !! (if bool_decide (curr' = _) then _ else _)); [|done].
  by rewrite lookup_alter_None.
Qed.

Lemma rooted_current_directory now :
  ensures rooted (get_current_directory_meta now) (λ _, True).
Proof.
  intros w [Hd Hc]. rewrite current_directory_runs. split; [|done]. simpl.
  unfold with_current_directory, rooted.
  destruct (directories w !! current_path w); [done|].
  fields. by rewrite lookup_insert_ne.
Qed.

Lemma rooted_frame {A} (c : M A) :
  preserves (λ w, (directories w, current_path w)) c →
  ensures rooted c (λ _, True).
Proof.
  intros Hc w [Hd Hp]. split; [|done]. specialize (Hc w).
  injection Hc as Hdirs Hcp. unfold rooted. by rewrite Hdirs, Hcp.
Qed.

End creating_by_open.

(** Walks through a method, keeping [rooted]. *)
Ltac rooted_step :=
  lazymatch goal with
  | |- ensures _ _save_metadata _ => by apply (ensures_ret _ _ (λ _, True))
  | |- ensures _ (mret _) _ => by apply (ensures_ret _ _ (λ _, True))
  | |- ensures _ (raise _) _ => apply ensures_raise
  | |- ensures _ (void _) _ => eapply ensures_void
  | |- ensures _ (get_current_directory_meta _) _ =>
      apply rooted_current_directory
  | |- ensures _ (gets _) _ => by apply (ensures_gets _ _ (λ _, True))
  | |- ensures _ (modify _) _ =>
      apply ensures_modify; intros ? [? ?]; split; fields;
      first [ done
            | by rewrite lookup_alter_None
            | by (rewrite lookup_fmap; match goal with H : _ !! "" = None |- _ => rewrite H end)
            | by apply make_dirs_rooted
            | by (rewrite lookup_insert_ne; [|apply child_path_not_empty])
            | by apply child_path_not_empty
            | by case_bool_decide ]
  | |- ensures _ (_ ≫= _) _ => eapply ensures_bind; [|intros ? ?]
  | |- ensures _ (if ?b then _ else _) _ => destruct b
  | |- ensures _ (match ?x with _ => _ end) _ => destruct x
  | |- ensures _ _ _ =>
      apply rooted_frame;
      unfold _allocate_space, _release_space, close, write_to_file,
        write_to_file_at, read_from_file, read_from_file_at,
        move_within_file, truncate_file;
      frame
  end.

Section rooted_reachable.

Implicit Types (w : FileSystem).

Lemma rooted_run now c : ensures rooted (run now c) (λ _, True).
Proof.
  destruct c; simpl;
    unfold create, delete, mkdir, chdir, move, open, FileObject_init;
    repeat rooted_step.
Qed.

Lemma reachable_rooted capacity w : reachable capacity w → rooted w.
Proof.
  induction 1 as [now|w now c Hw IH|w s r Hw IH]; [done| |exact IH].
  by apply (ensures_run _ _ _ _ (rooted_run now c)).
Qed.

End rooted_reachable.


Section open_for_writing.

Implicit Types (w : FileSystem) (o : FileObject) (m : file_meta).

(** X10.  [open] in write mode of a name that the files map does not hold,
    in every state the engine can reach on a volume of one byte or more. 
    Below the root, with [current_path] in normal form, the call returns a
    new [FileObject] with an empty buffer, entered in [open_files]; the file
    is in the files map with size 0 and start 0; the current directory lists
    the name once more than [create] would, for the constructor appends it a
    second time without looking; the free list, [used_size] and the data
    file are what they were.  At the root the call raises KeyError, the
    second look-up of the directory being made under the empty path: the
    name is then in the file list of the root, but the files map and
    [open_files] do not hold it. *)
Theorem open_for_writing_creates_below_the_root capacity now w name :
  reachable capacity w → 0 < capacity → files w !! name = None →
  let h := length (objects w) in
  let r := length (records w) in
  let listed := default [] (d_files <$> directories w !! current_path w) in
  (normal_path (current_path w) → current_path w ≠ "/" →
     ∃ w', open now name "w" w = (Ok h, w')
       ∧ open_files w' !! name = Some h
       ∧ objects w' !! h = Some (MkFileObject name "w" r [])
       ∧ files w' !! name = Some r
       ∧ records w' !! r = Some (FileMeta name 0 now now 0 false)
       ∧ d_files <$> directories w' !! current_path w
         = Some (append_new name listed ++ [name])
       ∧ (free_space w', used_size w', data_file w')
         = (free_space w, used_size w, data_file w))
  ∧ (current_path w = "/" →
     ∃ w', open now name "w" w = (Raise KeyError, w')
       ∧ files w' !! name = None
       ∧ open_files w' = open_files w
       ∧ d_files <$> directories w' !! "/" = Some (append_new name listed)).
Proof.
  intros Hw Hpos Hnew h r listed.
  pose proof (reachable_at_origin _ _ Hw) as Horigin.
  pose proof (reachable_max_size _ _ Hw) as Hmax.
  destruct (reachable_rooted _ _ Hw) as [Hempty _].
  assert (_allocate_space 0 w = (Ok 0, w)) as Halloc
    by (apply allocate_nothing; [done|lia]).
  pose proof (FileObject_init_new now w name Hnew Halloc) as Hinit.
  cbv zeta in Hinit.
  set (w0 := set_records (λ rs, rs ++ [FileMeta name 0 now now 0 false]) w) in *.
  set (w1 := set_directories (alter (add_file name) (current_path w))
               (with_current_directory now w0)) in *.
  pose proof (with_current_directory_fields now w0) as Hsame.
  injection Hsame as _ Hused Hfiles Hfree _ Hopen Hrecs Hobjs Hdata.
  pose proof (with_current_directory_files now w0) as Hlisted.
  change (current_path w0) with (current_path w) in Hlisted.
  change (directories w0) with (directories w) in Hlisted. fold listed in Hlisted.
  assert (d_files <$> directories w1 !! current_path w
          = Some (append_new name listed)) as Hlisted1.
  { subst w1. fields. rewrite lookup_alter_eq.
    destruct (directories (with_current_directory now w0) !! current_path w);
      [|done]. simpl in *. by injection Hlisted as ->. }
  assert (open now name "w" w
          = (FileObject_init now name "w" ≫= λ file_obj,
               modify (set_open_files <[name := file_obj]>);; mret file_obj) w)
    as Hopen_eq.
  { unfold open. by rewrite bool_decide_eq_false_2 by (by intros [_ ?]). }
  split.
  - intros Hnormal Hsub.
    assert (path_parts (current_path w) ≠ []) as Hparts.
    { destruct Hnormal as (parts & Hall & Heq). rewrite Heq, path_parts_normal by done.
      intros ->. by rewrite Heq in Hsub. }
    assert (match path_parts (current_path w) with
            | [] => ""
            | _ => "/" +:+ join (path_parts (current_path w))
            end = current_path w) as Hdir.
    { destruct (path_parts (current_path w)) eqn:Hpp; [done|].
      rewrite <- Hpp. by apply normal_path_parts. }
    rewrite Hdir in Hinit.
    destruct (directories w1 !! current_path w) as [d1|] eqn:Hd1; [|done].
    simpl in Hlisted1. injection Hlisted1 as Hfiles1.
    eexists. split.
    { rewrite Hopen_eq. step_with ltac:(exact Hinit). run_binds. reflexivity. }
    fields. subst w1. fields. rewrite Hobjs, Hrecs, Hfree, Hused, Hdata.
    subst w0. fields. split_and!; try done.
    + by rewrite lookup_insert_eq.
    + by rewrite lookup_app_r, Nat.sub_diag.
    + by rewrite lookup_insert_eq.
    + by rewrite lookup_app_r, Nat.sub_diag.
    + rewrite lookup_alter_eq. cbn [directories set_directories] in Hd1.
      rewrite Hd1. simpl.
      by rewrite Hfiles1.
  - intros Hroot. rewrite Hroot in Hinit, Hlisted1.
    change (path_parts "/") with (@nil string) in Hinit. cbv iota in Hinit.
    assert (directories w1 !! "" = None) as Hnone.
    { subst w1. fields. rewrite lookup_alter_ne by (by rewrite Hroot).
      rewrite with_current_directory_others; [done|].
      change (current_path w0) with (current_path w). by rewrite Hroot. }
    rewrite Hnone in Hinit.
    eexists. split.
    { rewrite Hopen_eq. erewrite bind_raise by exact Hinit. reflexivity. }
    split_and!.
    + subst w1. fields. by rewrite Hfiles.
    + subst w1. fields. by rewrite Hopen.
    + done.
Qed.

(** In "/docs" the file is made; at the root the call raises. *)
Lemma open_for_writing_creates_below_the_root_witness :
  let w := after 1024 [(1, Mkdir "docs"); (2, Chdir "docs")] in
  (∃ w', open 3 "a.txt" "w" w = (Ok 0%nat, w')
         ∧ d_files <$> directories w' !! "/docs" = Some ["a.txt"; "a.txt"])
  ∧ ∃ w', open 3 "a.txt" "w" (FileSystem_init 0 1024) = (Raise KeyError, w')
          ∧ files w' !! "a.txt" = None.
Proof.
  intros w. split.
  - destruct (open_for_writing_creates_below_the_root 1024 3 w "a.txt")
      as [Hbelow _]; [apply reachable_after|lia|reflexivity|].
    destruct Hbelow as (w' & Hrun & _ & _ & _ & _ & Hlist & _).
    + exists ["docs"]. split; [|reflexivity]. by repeat constructor.
    + done.
    + exists w'. split; [exact Hrun|exact Hlist].
  - destruct (open_for_writing_creates_below_the_root 1024 3
                (FileSystem_init 0 1024) "a.txt")
      as [_ Hroot]; [apply reachable_init|lia|reflexivity|].
    destruct (Hroot eq_refl) as (w' & Hrun & Hfiles & _).
    exists w'. by split.
Defined.

End open_for_writing.

(** ** Giving back what was taken *)

Section giving_back.

Implicit Types (w : FileSystem) (fs l rest : list block) (a b x cur : block).

Lemma coalesce_from_apart rest : ∀ cur,
  StronglySorted gap_lt (cur :: rest) → coalesce_from cur rest = cur :: rest.
Proof.
  induction rest as [|nxt rest IH]; intros cur Hs; [done|]. simpl.
  apply StronglySorted_cons in Hs as [Hcur Hrest].
  apply Forall_cons in Hcur as [Hnxt _]. unfold gap_lt in Hnxt.
  rewrite bool_decide_eq_false_2 by lia. by rewrite IH.
Qed.

Lemma coalesce_apart fs : StronglySorted gap_lt fs → coalesce fs = fs.
Proof. destruct fs; [done|]. apply coalesce_from_apart. Qed.

(** A block cut in two at [k] is put together again; the blocks around
    it are left as they are. *)
Lemma coalesce_from_cut l1 : ∀ cur b l2 k,
  StronglySorted gap_lt (cur :: l1 ++ b :: l2) →
  coalesce_from cur (l1 ++ (b.1, k) :: (b.1 + k, b.2 - k) :: l2)
  = cur :: l1 ++ b :: l2.
Proof.
  induction l1 as [|a l1 IH]; intros cur b l2 k Hs; simpl in *.
  - apply StronglySorted_cons in Hs as [Hcur Hrest].
    apply Forall_cons in Hcur as [Hb _]. unfold gap_lt in Hb.
    rewrite bool_decide_eq_false_2 by (simpl; lia).
    rewrite bool_decide_eq_true_2 by done. simpl.
    replace (k + (b.2 - k)) with b.2 by lia.
    rewrite <- (surjective_pairing b). by rewrite coalesce_from_apart.
  - apply StronglySorted_cons in Hs as [Hcur Hrest].
    apply Forall_cons in Hcur as [Ha _]. unfold gap_lt in Ha.
    rewrite bool_decide_eq_false_2 by lia. by rewrite IH.
Qed.

Lemma coalesce_cut l1 b l2 k :
  StronglySorted gap_lt (l1 ++ b :: l2) →
  coalesce (l1 ++ (b.1, k) :: (b.1 + k, b.2 - k) :: l2) = l1 ++ b :: l2.
Proof.
  intros Hs. destruct l1 as [|cur l1]; simpl in *.
  - rewrite bool_decide_eq_true_2 by done. simpl.
    replace (k + (b.2 - k)) with b.2 by lia.
    rewrite <- (surjective_pairing b). by rewrite coalesce_from_apart.
  - by apply coalesce_from_cut.
Qed.

(** A list in strict order of starts is in the order of the tuples. *)
Lemma starts_sorted fs :
  StronglySorted (λ a b, a.1 < b.1) fs → StronglySorted tuple_le fs.
Proof.
  induction 1 as [|a fs Hfs IH Ha]; constructor; [done|].
  eapply Forall_impl; [exact Ha|]. intros c Hc. unfold tuple_le.
  simpl in Hc. lia.
Qed.

Lemma well_formed_starts fs : well_formed fs → StronglySorted (λ a b, a.1 < b.1) fs.
Proof.
  intros [Hlen Hgap]. induction Hgap as [|a fs Hfs IH Ha]; [constructor|].
  apply Forall_cons in Hlen as [Hla Hlen]. constructor; [by apply IH|].
  eapply Forall_impl; [exact Ha|]. intros c. unfold gap_lt. simpl in *. lia.
Qed.

Lemma well_formed_cut_starts l1 b l2 k :
  well_formed (l1 ++ b :: l2) → 0 < k < b.2 →
  StronglySorted (λ a b, a.1 < b.1)
    (l1 ++ (b.1, k) :: (b.1 + k, b.2 - k) :: l2).
Proof.
  intros Hwf Hk. pose proof (well_formed_starts _ Hwf) as Hs.
  destruct Hwf as [_ Hgap].
  rewrite StronglySorted_app, StronglySorted_cons in Hs.
  rewrite StronglySorted_app, StronglySorted_cons in Hgap.
  destruct Hs as (Hcross & Hl1 & Hb & Hl2).
  destruct Hgap as (_ & _ & Hbgap & _).
  rewrite StronglySorted_app, !StronglySorted_cons. split_and!; try done.
  - intros x1 x2 Hx1 Hx2.
    apply elem_of_cons in Hx2 as [->|Hx2]; [by apply (Hcross x1 b); [|left]|].
    apply elem_of_cons in Hx2 as [->|Hx2].
    + specialize (Hcross x1 b Hx1 ltac:(left)). simpl. lia.
    + apply Hcross; [done|by right].
  - constructor; [simpl; lia|]. done.
  - eapply Forall_impl; [exact Hbgap|]. intros c. unfold gap_lt. simpl. lia.
Qed.

Lemma FileSystem_eq w w' :
  (max_size w', files w', directories w', current_path w', open_files w',
   records w', objects w', data_file w')
  = (max_size w, files w, directories w, current_path w, open_files w,
     records w, objects w, data_file w) →
  (seek_limit w', read_limit w') = (seek_limit w, read_limit w) →
  used_size w' = used_size w → free_space w' = free_space w → w' = w.
Proof.
  destruct w, w'. simpl.
  by intros [= -> -> -> -> -> -> -> ->] [= -> ->] -> ->.
Qed.

Lemma release_limits start size :
  preserves (λ w, (seek_limit w, read_limit w)) (_release_space start size).
Proof. unfold _release_space. frame. Qed.

(** X1.  Releasing what was allocated.  On a well-formed free list (no block
    of negative length, each block ending strictly before the next starts),
    when [_allocate_space] returns an offset for one byte or more,
    [_release_space] of that offset and size brings back the state as it was
    before the allocation: the same free list, block for block, and the same
    [used_size]. *)
Theorem release_undoes_allocate w size start w1 :
  well_formed (free_space w) → 0 < size →
  _allocate_space size w = (Ok start, w1) →
  _release_space start size w1 = (Ok tt, w).
Proof.
  intros Hwf Hsize Halloc.
  destruct (allocate_cases size (free_space w)) as [Hnone|(i & b & Hbest)].
  { by rewrite (allocate_fails _ _ Hnone) in Halloc. }
  rewrite (allocate_takes _ _ _ _ Hbest) in Halloc.
  injection Halloc as <- <-. destruct Hbest as (Hi & Hfit & _).
  pose proof (release_returns b.1 size (taken size i b w)) as Hret.
  pose proof (release_frame b.1 size (taken size i b w)) as Hframe.
  pose proof (release_limits b.1 size (taken size i b w)) as Hlimits.
  pose proof (release_free_space b.1 size (taken size i b w)) as Hfree.
  destruct (release_other_fields b.1 size (taken size i b w)) as (_ & _ & Hused).
  destruct (_release_space b.1 size (taken size i b w)) as [[[]|e] w2]; [|done].
  cbn [fst snd] in *. f_equal. apply FileSystem_eq.
  - exact Hframe.
  - exact Hlimits.
  - rewrite Hused, bool_decide_eq_false_2 by lia. unfold taken. fields. lia.
  - rewrite Hfree, bool_decide_eq_false_2 by lia. unfold taken. fields.
    pose proof Hwf as Hwf'.
    rewrite <- (take_drop_middle _ _ _ Hi) in Hwf' |- *.
    set (l1 := take i (free_space w)) in *.
    set (l2 := drop (S i) (free_space w)) in *.
    assert (length l1 = i) as Hl1.
    { subst l1. rewrite length_take. apply lookup_lt_Some in Hi. lia. }
    clear Hfree Hused Hframe Hlimits.
    destruct (decide (b.2 = size)) as [Hexact|Hexact];
      [rewrite bool_decide_eq_true_2 by done
      |rewrite bool_decide_eq_false_2 by done].
    + rewrite <- Hl1, delete_middle.
      rewrite <- (sort_unique ((l1 ++ l2) ++ [(b.1, size)]) (l1 ++ b :: l2)).
      * apply coalesce_apart, Hwf'.
      * rewrite <- Hexact, <- (surjective_pairing b), <- (assoc_L (++)).
        apply Permutation_app_head. by rewrite Permutation_app_comm.
      * by apply starts_sorted, well_formed_starts.
    + rewrite <- Hl1, insert_app_r_alt, Nat.sub_diag by lia. simpl.
      rewrite <- (sort_unique _ (l1 ++ (b.1, size) :: (b.1 + size, b.2 - size) :: l2)).
      * apply coalesce_cut, Hwf'.
      * rewrite <- (assoc_L (++)). apply Permutation_app_head. simpl.
        rewrite (Permutation_app_comm l2). simpl. apply perm_swap.
      * apply starts_sorted, well_formed_cut_starts; [done|lia].
Qed.

(** Four bytes are taken from the block at 20 and given back. *)
Lemma release_undoes_allocate_witness :
  let w := set_free_space (λ _, [(0, 9); (20, 6); (40, 4)]) (FileSystem_init 0 64) in
  ∃ w1, _allocate_space 5 w = (Ok 20, w1) ∧ _release_space 20 5 w1 = (Ok tt, w).
Proof.
  intros w. eexists. split; [reflexivity|].
  apply (release_undoes_allocate w 5 20); [|lia|reflexivity].
  split; [by repeat constructor|].
  repeat constructor; unfold gap_lt; simpl; lia.
Defined.

End giving_back.

(** ** What an allocation takes away *)

Section taking.

Implicit Types (w : FileSystem) (fs l : list block) (a b x : block).

(** X20.  The range handed out is free no more.  On a well-formed free
    list, when [_allocate_space] returns an offset for a size that is not
    negative, the range from that offset lay at the front of a block of the
    free list, and no block of the free list that is left shares a byte
    with it; the list is still well-formed and its blocks add up to [size]
    bytes fewer.  So the range can be released later without overlapping a
    free block. *)
Theorem allocated_range_leaves_the_free_list w size start w1 :
  well_formed (free_space w) → 0 ≤ size →
  _allocate_space size w = (Ok start, w1) →
  (∃ b, b ∈ free_space w ∧ b.1 = start ∧ size ≤ b.2)
  ∧ Forall (disjoint (start, size)) (free_space w1)
  ∧ well_formed (free_space w1)
  ∧ total_free (free_space w1) = total_free (free_space w) - size.
Proof.
  intros Hwf Hsize Halloc.
  destruct (allocate_cases size (free_space w)) as [Hnone|(i & b & Hbest)].
  { by rewrite (allocate_fails _ _ Hnone) in Halloc. }
  rewrite (allocate_takes _ _ _ _ Hbest) in Halloc.
  injection Halloc as <- <-.
  pose proof (taken_well_formed _ _ _ _ Hsize Hbest Hwf) as Hwf1.
  destruct Hbest as (Hi & Hfit & _).
  split_and!; [|  |done|].
  - exists b. split_and!; [by eapply list_elem_of_lookup_2|done|done].
  - unfold taken. fields.
    pose proof Hwf as [Hlen Hgap].
    rewrite <- (take_drop_middle _ _ _ Hi) in Hlen, Hgap |- *.
    set (l1 := take i (free_space w)) in *.
    set (l2 := drop (S i) (free_space w)) in *.
    assert (length l1 = i) as Hl1.
    { subst l1. rewrite length_take. apply lookup_lt_Some in Hi. lia. }
    rewrite Forall_app, Forall_cons in Hlen. destruct Hlen as (Hlen1 & Hb & Hlen2).
    rewrite StronglySorted_app, StronglySorted_cons in Hgap.
    destruct Hgap as (Hcross & _ & Hafter & _).
    assert (Forall (disjoint (b.1, size)) l1) as Hd1.
    { apply Forall_forall. intros x Hx. right.
      specialize (Hcross x b Hx ltac:(left)). unfold gap_lt in Hcross.
      simpl. lia. }
    assert (Forall (disjoint (b.1, size)) l2) as Hd2.
    { rewrite Forall_forall in Hafter. apply Forall_forall. intros x Hx. left.
      specialize (Hafter x Hx). unfold gap_lt in Hafter. simpl. lia. }
    case_bool_decide.
    + rewrite <- Hl1, delete_middle. by apply Forall_app.
    + rewrite <- Hl1, insert_app_r_alt, Nat.sub_diag by lia. simpl.
      apply Forall_app. split; [done|]. constructor; [|done].
      left. simpl. lia.
  - unfold taken. fields. case_bool_decide as Hexact.
    + rewrite (total_free_delete _ _ _ Hi). lia.
    + rewrite (total_free_insert _ _ _ _ Hi). simpl. lia.
Qed.

(** Five bytes are taken from the block at 20. *)
Lemma allocated_range_leaves_the_free_list_witness :
  let w := set_free_space (λ _, [(0, 9); (20, 6); (40, 4)]) (FileSystem_init 0 64) in
  ∃ w1, _allocate_space 5 w = (Ok 20, w1)
        ∧ Forall (disjoint (20, 5)) (free_space w1).
Proof.
  intros w. eexists. split; [reflexivity|].
  apply (allocated_range_leaves_the_free_list w 5 20); [|lia|reflexivity].
  split; [by repeat constructor|].
  repeat constructor; unfold gap_lt; simpl; lia.
Defined.

End taking.

(** ** What the operations leave alone *)

Section leaving_alone.

Implicit Types (w : FileSystem) (o : FileObject) (m : file_meta).

(** X17.  No operation of [FileSystem] writes to the data file, which only
    the methods of a [FileObject] do, and none but [chdir] changes
    [current_path].  [mkdir] and [move] change nothing but the directories
    map, [close] nothing but [open_files]; [create] and [delete] leave the
    objects and [open_files] alone, and [delete] the records as well.  All
    of it whether the call returns or raises. *)
Theorem only_file_objects_write_the_data_file :
  (∀ now name,
     preserves (λ w, (data_file w, max_size w, current_path w, open_files w,
                      objects w))
       (create now name))
  ∧ (∀ name,
       preserves (λ w, (data_file w, max_size w, current_path w, open_files w,
                        objects w, records w))
         (delete name))
  ∧ (∀ now dir_name, preserves but_directories (mkdir now dir_name))
  ∧ (∀ now source_fname target_dir,
       preserves but_directories (move now source_fname target_dir))
  ∧ (∀ now name md,
       preserves (λ w, (data_file w, max_size w, current_path w))
         (open now name md))
  ∧ (∀ name,
       preserves (λ w, (max_size w, used_size w, files w, directories w,
                        free_space w, current_path w, records w, objects w,
                        data_file w))
         (close name)).
Proof.
  split_and!; intros.
  - unfold create, get_current_directory_meta, _allocate_space. frame.
  - unfold delete, _release_space. frame.
  - apply mkdir_frame.
  - apply move_frame.
  - unfold open, FileObject_init, get_current_directory_meta, _allocate_space.
    frame.
  - unfold close. frame.
Qed.

End leaving_alone.

(** ** Failures of an open file *)

Section failing_methods.

Implicit Types (w : FileSystem) (o : FileObject) (m : file_meta).

(** X15.  An append that cannot be encoded.  [write_to_file] lengthens the
    buffer before it encodes it; when the buffer with the text appended has
    no UTF-8 encoding (a lone surrogate), the call raises the encoding error
    with the buffer already lengthened and nothing else changed, and from
    then on every [write_to_file] on the object raises it too, whatever the
    text. *)
Theorem failed_append_stays_in_the_buffer capacity now w name h o text :
  reachable capacity w → open_files w !! name = Some h →
  objects w !! h = Some o → mode o = "w" →
  encode (content o ++ text) = None →
  let w1 := set_objects (alter (with_content (content o ++ text)) h) w in
  write_to_file now h text w = (Raise UnicodeError, w1)
  ∧ read_from_file h w1 = (Ok (content o ++ text), w1)
  ∧ ∀ now' text', (write_to_file now' h text' w1).1 = Raise UnicodeError.
Proof.
  intros Hw Hh Ho Hmode Henc w1.
  destruct (open_handle_bound _ _ _ _ _ Hw Hh Ho)
    as (m & Hb & Hname & Hstart & Hsize & _ & _).
  pose proof Hb as (_ & Hm & Hf).
  assert (f_start_pos m = 0) as Hzero.
  { rewrite <- (list_lookup_total_correct _ _ _ Hm).
    eapply origin_lookup_total, reachable_at_origin, Hw. }
  assert (objects w1 !! h = Some (with_content (content o ++ text) o)) as Ho1.
  { subst w1. fields. by rewrite list_lookup_alter_eq, Ho. }
  split_and!.
  - unfold write_to_file. step. decide_false. do 3 step. by rewrite Henc.
  - unfold read_from_file. by step.
  - intros now' text'.
    assert (∃ w2, write_to_file now' h text' w1 = (Raise UnicodeError, w2))
      as [w2 ->]; [|done].
    eexists. unfold write_to_file. step.
    cbn [mode content file_meta_ref with_content]. decide_false.
    step. step_with ltac:(eapply get_record_ok; fields; exact Hm).
    step. rewrite encode_app, Henc. reflexivity.
Qed.

(** A lone surrogate is appended to "ab". *)
Lemma failed_append_stays_in_the_buffer_witness :
  let w := after 1024 [(1, Create "a.txt"); (2, Open "a.txt" "w");
                       (3, Append 0%nat (str_of "ab"))] in
  (write_to_file 4 0%nat [0xD800%N] w).1 = Raise UnicodeError
  ∧ (write_to_file 5 0%nat (str_of "c") (write_to_file 4 0%nat [0xD800%N] w).2).1
    = Raise UnicodeError.
Proof.
  intros w.
  destruct (failed_append_stays_in_the_buffer 1024 4 w "a.txt" 0%nat
              (MkFileObject "a.txt" "w" 0%nat (str_of "ab")) [0xD800%N])
    as (Hrun & _ & Hlater);
    [apply reachable_after|reflexivity|reflexivity|reflexivity|reflexivity|].
  rewrite Hrun. split; [done|]. apply Hlater.
Defined.

(** A file opened for reading: every write raises WrongMode. *)
Lemma handle_guards_raise_before_any_change_witness :
  let w := after 1024 [(1, Create "a.txt"); (2, Open "a.txt" "r")] in
  write_to_file 3 0%nat (str_of "abcd") w = (Raise WrongMode, w)
  ∧ truncate_file 3 0%nat 0 w = (Raise WrongMode, w)
  ∧ read_from_file_at 0%nat (-1) 4 w = (Raise InvalidArgument, w).
Proof.
  intros w.
  destruct (handle_guards_raise_before_any_change w 0%nat
              (MkFileObject "a.txt" "r" 0%nat []) eq_refl)
    as (Hread_only & _ & Hrange).
  destruct (Hread_only ltac:(done)) as (Happend & _ & _ & Hcut).
  split_and!; [apply Happend|apply Hcut|apply Hrange; lia].
Defined.

End failing_methods.

(** ** Open files *)

Section open_files_protected.

Implicit Types (w : FileSystem) (o : FileObject) (m : file_meta).

(** X11.  An open file exists and is protected.  In every state the engine
    can reach, a name in [open_files] leads to a [FileObject] of that name
    whose record is the one the files map holds for the name; so the file
    exists, [create] of the name raises AlreadyExists, and [delete] and
    [move] of it raise InUse, all three changing nothing. *)
Theorem open_files_exist_and_are_protected capacity now w name h :
  reachable capacity w → open_files w !! name = Some h →
  (∃ o m, objects w !! h = Some o ∧ file_name o = name
          ∧ files w !! name = Some (file_meta_ref o)
          ∧ records w !! file_meta_ref o = Some m)
  ∧ create now name w = (Raise AlreadyExists, w)
  ∧ delete name w = (Raise InUse, w)
  ∧ ∀ target_dir, move now name target_dir w = (Raise InUse, w).
Proof.
  intros Hw Hh.
  destruct (open_handles_are_bound _ _ _ _ Hw Hh)
    as (o & m & (Ho & Hm & Hf) & Hname & _).
  rewrite Hname in Hf. split_and!.
  - by exists o, m.
  - unfold create. run_binds. by rewrite Hf.
  - unfold delete. run_binds. rewrite Hf. run_binds. by rewrite Hh.
  - intros target_dir. unfold move. run_binds. rewrite Hf. run_binds.
    by rewrite Hh.
Qed.

(** "a.txt" is open: it cannot be deleted. *)
Lemma open_files_exist_and_are_protected_witness :
  let w := after 1024 [(1, Create "a.txt"); (2, Open "a.txt" "r")] in
  delete "a.txt" w = (Raise InUse, w).
Proof.
  intros w.
  destruct (open_files_exist_and_are_protected 1024 3 w "a.txt" 0%nat)
    as (_ & _ & Hdelete & _); [apply reachable_after|reflexivity|].
  exact Hdelete.
Defined.

(** X4.  The size of a file is never negative: in every state the engine can
    reach, every name of the files map has a record in the store, and its
    size is 0 or more. *)
Theorem file_sizes_are_never_negative capacity w name :
  reachable capacity w → is_Some (files w !! name) →
  ∃ n, size_of w name = Some n ∧ 0 ≤ n.
Proof.
  intros Hw [r Hr].
  destruct (reachable_consistent _ _ Hw) as (_ & Hrefs & Hsound & _).
  destruct (lookup_lt_is_Some_2 (records w) r) as [m Hm]; [by eapply Hrefs|].
  rewrite Forall_forall in Hsound.
  destruct (Hsound m (list_elem_of_lookup_2 _ _ _ Hm)) as [_ Hsize].
  exists (f_size m). split; [|done].
  unfold size_of. rewrite Hr. simpl.
  by rewrite (list_lookup_total_correct _ _ _ Hm).
Qed.

(** A file of ten bytes is cut to three. *)
Lemma file_sizes_are_never_negative_witness :
  let w := after 1024 [(1, Create "a.txt"); (2, Open "a.txt" "w");
                       (3, Append 0%nat (str_of "abcdefghij"));
                       (4, Truncate 0%nat 3)] in
  ∃ n, size_of w "a.txt" = Some n ∧ 0 ≤ n.
Proof.
  intros w.
  apply (file_sizes_are_never_negative 1024 w "a.txt");
    [apply reachable_after|exists 0%nat; by vm_compute].
Defined.

End open_files_protected.

(** ** The directories [move] makes *)

Section making_directories.

Implicit Types (w : FileSystem) (parts : list string)
  (ds : gmap string dir_meta).

(** ['/'.join(s.split('/')) == s] *)
Lemma join_split (s : string) : join (split s) = s.
Proof.
  induction s as [|c s IH]; [done|]. simpl.
  pose proof (split_not_nil s) as Hne.
  case_bool_decide as Hc.
  - subst c. destruct (split s) as [|p ps] eqn:Hs; [done|].
    change (join ("" :: p :: ps)) with ("" +:+ "/" +:+ join (p :: ps)).
    by rewrite IH.
  - destruct (split s) as [|p ps] eqn:Hs; [done|].
    destruct ps as [|p' ps]; simpl in *; by rewrite <- IH.
Qed.

Lemma rsplit_head_child (curr part : string) :
  no_slash part = true → rsplit_head (curr +:+ "/" +:+ part) = curr.
Proof.
  intros Hpart. unfold rsplit_head.
  rewrite split_app, (split_no_slash part) by done.
  pose proof (split_not_nil curr) as Hne. pose proof (join_split curr) as Hjoin.
  destruct (split curr) as [|p [|p' ps]]; [done|done|].
  change (join (take (length ((p :: p' :: ps) ++ [part]) - 1)
                  ((p :: p' :: ps) ++ [part])) = curr).
  replace (length ((p :: p' :: ps) ++ [part]) - 1)%nat
    with (length (p :: p' :: ps)) by (rewrite length_app; simpl; lia).
  by rewrite take_app_length.
Qed.

Lemma grows_refl ds : grows ds ds.
Proof. intros q d Hd. by exists d. Qed.

Lemma grows_trans ds1 ds2 ds3 : grows ds1 ds2 → grows ds2 ds3 → grows ds1 ds3.
Proof.
  intros H12 H23 q d1 Hd1.
  destruct (H12 q d1 Hd1) as (d2 & Hd2 & Hn2 & Ht2 & Hs2).
  destruct (H23 q d2 Hd2) as (d3 & Hd3 & Hn3 & Ht3 & Hs3).
  exists d3. split_and!; [done|congruence|congruence|set_solver].
Qed.

Lemma grows_insert ds (q : string) d : ds !! q = None → grows ds (<[q := d]> ds).
Proof.
  intros Hq q' d' Hd'. exists d'. split; [|done].
  rewrite lookup_insert_ne; [done|]. intros ->. congruence.
Qed.

Lemma grows_add_subdirectory ds (q part : string) :
  grows ds (alter (add_subdirectory part) q ds).
Proof.
  intros q' d Hd. destruct (decide (q' = q)) as [->|Hne].
  - exists (add_subdirectory part d). rewrite lookup_alter_eq, Hd.
    split_and!; try done. unfold add_subdirectory, append_new. simpl.
    case_bool_decide; set_solver.
  - exists d. by rewrite lookup_alter_ne.
Qed.

Lemma make_dirs_grows now parts : ∀ (curr : string) ds,
  grows ds (make_dirs now parts curr ds).
Proof.
  induction parts as [|part parts IH]; intros curr ds; simpl.
  { apply grows_refl. }
  set (curr' := if bool_decide (curr = "") then _ else _).
  eapply grows_trans; [|apply IH].
  destruct (ds !! curr') eqn:Hcurr; [apply grows_refl|].
  set (ds1 := <[curr' := _]> ds).
  assert (grows ds ds1) as H1 by (by apply grows_insert).
  destruct (ds1 !! _); [|done].
  eapply grows_trans; [exact H1|]. apply grows_add_subdirectory.
Qed.

Lemma string_app_not_nil (a b : string) : a ≠ "" → a +:+ b ≠ "".
Proof. by destruct a. Qed.

(** The directories made below a directory that exists. *)
Lemma make_dirs_links_from now parts : ∀ (curr : string) ds,
  Forall plain parts → curr ≠ "" → is_Some (ds !! curr) →
  ∀ k part, parts !! k = Some part →
    let anc := path_after curr (take (S k) parts) in
    let parent := path_after curr (take k parts) in
    ds !! anc = None →
    ∃ d p, make_dirs now parts curr ds !! anc = Some d
           ∧ d_name d = part ∧ d_creation_time d = now
           ∧ make_dirs now parts curr ds !! parent = Some p
           ∧ part ∈ d_subdirectories p.
Proof.
  induction parts as [|part0 rest IH];
    intros curr ds Hall Hcurr Hparent k part Hk anc parent Hnew; [done|].
  apply Forall_cons in Hall as [[Hne0 Hslash0] Hall].
  assert (curr +:+ "/" +:+ part0 ≠ "/" +:+ part0) as Hfirst.
  { intros Heq. apply (f_equal String.length) in Heq.
    rewrite !string_length_app in Heq. destruct curr; [done|]. cbn in Heq. lia. }
  assert (∀ l, path_after curr (part0 :: l)
               = path_after (curr +:+ "/" +:+ part0) l) as Hpath.
  { intros l. unfold path_after. simpl. by rewrite bool_decide_eq_false_2. }
  simpl make_dirs. rewrite (bool_decide_eq_false_2 (curr = "")) by done.
  rewrite (bool_decide_eq_false_2 (_ = "/" +:+ part0)) by done.
  rewrite !rsplit_head_child by done.
  set (curr' := curr +:+ "/" +:+ part0) in *.
  assert (curr' ≠ "") as Hcurr' by (by apply string_app_not_nil).
  set (ds' := match ds !! curr' with Some _ => ds | None => _ end).
  destruct k as [|k]; simpl in Hk.
  - injection Hk as ->.
    assert (anc = curr') as ->.
    { subst anc. change (take 1 (part :: rest)) with [part]. by rewrite Hpath. }
    assert (parent = curr) as -> by done.
    destruct Hparent as [p0 Hp0].
    assert (ds' !! curr' = Some (DirMeta part now [] [])
            ∧ ∃ p, ds' !! curr = Some p ∧ part ∈ d_subdirectories p)
      as [Hd (p & Hp & Hin)].
    { subst ds'. rewrite Hnew.
      assert (curr' ≠ curr) as Hdiff by (intros Heq; congruence).
      rewrite lookup_insert_ne, Hp0 by done. split.
      - by rewrite lookup_alter_ne, lookup_insert_eq.
      - exists (add_subdirectory part p0). split.
        + by rewrite lookup_alter_eq, lookup_insert_ne, Hp0.
        + unfold add_subdirectory, append_new. simpl.
          case_bool_decide; set_solver. }
    destruct (make_dirs_grows now rest curr' ds' _ _ Hd) as (d' & Hd' & Hn & Ht & _).
    destruct (make_dirs_grows now rest curr' ds' _ _ Hp) as (p' & Hp' & _ & _ & Hsub).
    exists d', p'. split_and!; try done. by apply Hsub.
  - assert (anc = path_after curr' (take (S k) rest)) as ->.
    { subst anc. by rewrite <- Hpath. }
    assert (parent = path_after curr' (take k rest)) as ->.
    { subst parent. by rewrite <- Hpath. }
    assert (path_after curr' (take (S k) rest) ≠ curr') as Hdeeper.
    { destruct rest as [|part1 rest]; [done|]. simpl take.
      rewrite path_after_from by done. intros Heq.
      apply (f_equal String.length) in Heq.
      rewrite !string_length_app in Heq. cbn in Heq. lia. }
    apply IH; try done.
    + subst ds'. destruct (ds !! curr') eqn:Hc; [by rewrite Hc|].
      destruct (<[curr' := _]> ds !! curr);
        [rewrite lookup_alter_is_Some|]; by rewrite lookup_insert_eq.
    + subst ds'. destruct (ds !! curr') eqn:Hc; [done|].
      destruct (<[curr' := _]> ds !! curr);
        [rewrite lookup_alter_None|]; by rewrite lookup_insert_ne.
Qed.

(** The directories made from the root. *)
Lemma make_dirs_links now parts ds :
  Forall plain parts → is_Some (ds !! "/") →
  ∀ k part, parts !! k = Some part →
    let anc := "/" +:+ join (take (S k) parts) in
    let parent := "/" +:+ join (take k parts) in
    ds !! anc = None →
    ∃ d p, make_dirs now parts "" ds !! anc = Some d
           ∧ d_name d = part ∧ d_creation_time d = now
           ∧ make_dirs now parts "" ds !! parent = Some p
           ∧ part ∈ d_subdirectories p.
Proof.
  intros Hall Hroot k part Hk anc parent Hnew.
  destruct parts as [|part0 rest]; [done|].
  pose proof Hall as Hall'. apply Forall_cons in Hall' as [[Hne0 Hslash0] Hrest].
  assert (∀ l, "/" +:+ join (part0 :: l) = path_after ("/" +:+ part0) l) as Hpath.
  { intros l. by rewrite <- path_after_join. }
  simpl make_dirs. rewrite !bool_decide_eq_true_2 by done.
  set (curr' := "/" +:+ part0) in *.
  set (ds' := match ds !! curr' with Some _ => ds | None => _ end).
  destruct k as [|k]; simpl in Hk.
  - injection Hk as ->.
    assert (anc = curr') as -> by done.
    assert (parent = "/") as -> by done.
    destruct Hroot as [p0 Hp0].
    assert ("/" ≠ curr') as Hdiff by (intros Heq; congruence).
    assert (ds' !! curr' = Some (DirMeta part now [] [])
            ∧ ∃ p, ds' !! "/" = Some p ∧ part ∈ d_subdirectories p) as [Hd (p & Hp & Hin)].
    { subst ds'. rewrite Hnew. rewrite lookup_insert_ne, Hp0 by done. split.
      - by rewrite lookup_alter_ne, lookup_insert_eq.
      - exists (add_subdirectory part p0). split.
        + by rewrite lookup_alter_eq, lookup_insert_ne, Hp0.
        + unfold add_subdirectory, append_new. simpl.
          case_bool_decide; set_solver. }
    destruct (make_dirs_grows now rest curr' ds' _ _ Hd) as (d' & Hd' & Hn & Ht & _).
    destruct (make_dirs_grows now rest curr' ds' _ _ Hp) as (p' & Hp' & _ & _ & Hsub).
    exists d', p'. split_and!; try done. by apply Hsub.
  - assert (anc = path_after curr' (take (S k) rest)) as ->
      by apply (Hpath (take (S k) rest)).
    assert (parent = path_after curr' (take k rest)) as ->
      by apply (Hpath (take k rest)).
    assert (curr' ≠ "") as Hcurr' by done.
    assert (path_after curr' (take (S k) rest) ≠ curr') as Hdeeper.
    { destruct rest as [|part1 rest]; [done|]. simpl take.
      rewrite path_after_from by done. intros Heq.
      apply (f_equal String.length) in Heq.
      rewrite !string_length_app in Heq. cbn in Heq. lia. }
    apply make_dirs_links_from; try done.
    + subst ds'. destruct (ds !! curr') eqn:Hc; [by rewrite Hc|].
      destruct (<[curr' := _]> ds !! "/");
        [rewrite lookup_alter_is_Some|]; by rewrite lookup_insert_eq.
    + subst ds'. destruct (ds !! curr') eqn:Hc; [done|].
      destruct (<[curr' := _]> ds !! "/");
        [rewrite lookup_alter_None|]; by rewrite lookup_insert_ne.
Qed.

Lemma move_runs_missing now w (source_fname target_dir : string) r :
  files w !! source_fname = Some r → open_files w !! source_fname = None →
  let tp := target_path w target_dir in
  let made := make_dirs now (path_parts tp) "" (directories w) in
  directories w !! tp = None → is_Some (made !! tp) →
  move now source_fname target_dir w
  = (Ok true,
     set_directories
       (λ _, alter (add_file source_fname) tp (drop_file source_fname <$> made))
       w).
Proof.
  intros Hfile Hclosed tp made Hmissing [d Hd].
  unfold move. run_binds. rewrite Hfile. run_binds. rewrite Hclosed.
  run_binds. fold (target_path w target_dir). fold tp. rewrite Hmissing.
  run_binds. fields. fold made. rewrite lookup_fmap, Hd. simpl.
  unfold _save_metadata. by run_binds.
Qed.

(** X21.  The directories [move] makes on the way.  For a file that
    exists and is not open, when the target path of [move] is in normal
    form and is no directory yet, and the root exists, the call returns
    True and every directory on the way to the target that was missing is
    there afterwards: it has the name of its component, the time of the
    call as its creation time, and is in the list of subdirectories of the
    directory above it. *)
Theorem move_makes_the_directories_on_the_way
    now w source_fname target_dir r parts :
  files w !! source_fname = Some r → open_files w !! source_fname = None →
  Forall plain parts → target_path w target_dir = "/" +:+ join parts →
  directories w !! target_path w target_dir = None →
  is_Some (directories w !! "/") →
  let w' := (move now source_fname target_dir w).2 in
  (move now source_fname target_dir w).1 = Ok true
  ∧ ∀ k part, parts !! k = Some part →
      directories w !! ("/" +:+ join (take (S k) parts)) = None →
      ∃ d above,
        directories w' !! ("/" +:+ join (take (S k) parts)) = Some d
        ∧ d_name d = part ∧ d_creation_time d = now
        ∧ directories w' !! ("/" +:+ join (take k parts)) = Some above
        ∧ part ∈ d_subdirectories above.
Proof.
  intros Hfile Hclosed Hall Htarget Hmissing Hroot w'.
  assert (parts ≠ []) as Hne.
  { intros ->. rewrite Htarget in Hmissing. destruct Hroot as [? Hroot].
    change ("/" +:+ join []) with "/" in Hmissing. congruence. }
  assert (path_parts (target_path w target_dir) = parts) as Hparts
    by (by rewrite Htarget, path_parts_normal).
  assert (is_Some (make_dirs now parts "" (directories w)
                   !! target_path w target_dir)) as Hmade.
  { rewrite Htarget, <- path_after_join by done. by apply make_dirs_creates. }
  subst w'.
  rewrite (move_runs_missing now w source_fname target_dir r); try done;
    rewrite Hparts; [|done].
  split; [done|]. intros k part Hk Hnew. cbn [snd]. fields.
  destruct (make_dirs_links now parts (directories w) Hall Hroot k part Hk Hnew)
    as (d & above & Hd & Hname & Htime & Habove & Hin).
  set (made := make_dirs now parts "" (directories w)) in *.
  assert (∀ q x, made !! q = Some x →
            ∃ x', alter (add_file source_fname) (target_path w target_dir)
                    (drop_file source_fname <$> made) !! q = Some x'
                  ∧ d_name x' = d_name x
                  ∧ d_creation_time x' = d_creation_time x
                  ∧ d_subdirectories x' = d_subdirectories x) as Hkeep.
  { intros q x Hx.
    destruct (decide (q = target_path w target_dir)) as [->|Hq].
    - exists (add_file source_fname (drop_file source_fname x)).
      by rewrite lookup_alter_eq, lookup_fmap, Hx.
    - exists (drop_file source_fname x).
      by rewrite lookup_alter_ne, lookup_fmap, Hx. }
  destruct (Hkeep _ _ Hd) as (d' & Hd' & Hn' & Ht' & _).
  destruct (Hkeep _ _ Habove) as (above' & Habove' & _ & _ & Hs').
  exists d', above'. split_and!; try done; congruence.
Qed.

(** A file is moved from the root to "docs/old". *)
Lemma move_makes_the_directories_on_the_way_witness :
  let w := after 1024 [(1, Create "a.txt")] in
  let w' := (move 2 "a.txt" "docs/old" w).2 in
  (∃ d above, directories w' !! "/docs" = Some d ∧ d_name d = "docs"
              ∧ directories w' !! "/" = Some above
              ∧ "docs" ∈ d_subdirectories above)
  ∧ (∃ d above, directories w' !! "/docs/old" = Some d ∧ d_name d = "old"
                ∧ directories w' !! "/docs" = Some above
                ∧ "old" ∈ d_subdirectories above).
Proof.
  intros w w'.
  destruct (move_makes_the_directories_on_the_way 2 w "a.txt" "docs/old"
              0%nat ["docs"; "old"]) as [_ Hmade].
  - reflexivity.
  - reflexivity.
  - by repeat constructor.
  - reflexivity.
  - reflexivity.
  - by eexists.
  - split.
    + destruct (Hmade 0%nat "docs" eq_refl eq_refl)
        as (d & above & Hd & Hname & _ & Habove & Hin).
      by exists d, above.
    + destruct (Hmade 1%nat "old" eq_refl eq_refl)
        as (d & above & Hd & Hname & _ & Habove & Hin).
      by exists d, above.
Defined.

End making_directories.

(** ** What stays in the maps *)

Section staying.

Implicit Types (w : FileSystem) (ds : gmap string dir_meta).

Lemma make_dirs_keeps now parts (curr q : string) ds :
  is_Some (ds !! q) → is_Some (make_dirs now parts curr ds !! q).
Proof.
  intros [d Hd]. pose proof (make_dirs_extends now parts curr ds q) as Hext.
  rewrite Hd in Hext. destruct Hext as (d' & Hd' & _). by exists d'.
Qed.

Lemma keeps_frame {A T} (I : FileSystem → Prop) (f : FileSystem → T) (c : M A) :
  (∀ w w', f w' = f w → I w → I w') → preserves f c →
  ensures I c (λ _, True).
Proof. intros HI Hc w Hw. split; [|done]. eapply HI; [apply Hc|done]. Qed.

End staying.

(** Walks through a method, keeping a directory in the map. *)
Ltac directory_step :=
  lazymatch goal with
  | |- ensures _ _save_metadata _ => by apply (ensures_ret _ _ (λ _, True))
  | |- ensures _ (mret _) _ => by apply (ensures_ret _ _ (λ _, True))
  | |- ensures _ (raise _) _ => apply ensures_raise
  | |- ensures _ (void _) _ => eapply ensures_void
  | |- ensures _ (gets _) _ => by apply (ensures_gets _ _ (λ _, True))
  | |- ensures _ (modify _) _ =>
      apply ensures_modify; intros ? ?; fields;
      first [ assumption
            | by rewrite lookup_alter_is_Some
            | by rewrite lookup_fmap, fmap_is_Some
            | by apply make_dirs_keeps
            | by (rewrite lookup_insert_is_Some'; right) ]
  | |- ensures _ (_ ≫= _) _ => eapply ensures_bind; [|intros ? ?]
  | |- ensures _ (if ?b then _ else _) _ => destruct b
  | |- ensures _ (match ?x with _ => _ end) _ => destruct x
  | |- ensures _ _ _ =>
      apply (keeps_frame _ directories); [by intros ? ? ->|];
      unfold _allocate_space, _release_space, close, write_to_file,
        write_to_file_at, read_from_file, read_from_file_at,
        move_within_file, truncate_file, chdir;
      frame
  end.

(** Walks through a method, keeping a name in the files map. *)
Ltac file_step :=
  lazymatch goal with
  | |- ensures _ _save_metadata _ => by apply (ensures_ret _ _ (λ _, True))
  | |- ensures _ (mret _) _ => by apply (ensures_ret _ _ (λ _, True))
  | |- ensures _ (raise _) _ => apply ensures_raise
  | |- ensures _ (void _) _ => eapply ensures_void
  | |- ensures (λ w0, files w0 !! ?n = Some ?x) (gets files) _ =>
      by apply (ensures_gets _ files (λ fs, fs !! n = Some x))
  | |- ensures _ (gets _) _ => by apply (ensures_gets _ _ (λ _, True))
  | |- ensures _ (modify _) _ =>
      apply ensures_modify; intros ? ?; fields; cbv beta in *;
      first [ assumption
            | by (rewrite lookup_insert_ne; [|congruence])
            | by (rewrite lookup_delete_ne; [|congruence]) ]
  | |- ensures _ (_ ≫= _) _ => eapply ensures_bind; [|intros ? ?]
  | |- ensures _ (if ?b then _ else _) _ => destruct b eqn:?
  | |- ensures _ (match ?x with _ => _ end) _ => destruct x eqn:?
  | |- ensures _ _ _ =>
      apply (keeps_frame _ files); [by intros ? ? ->|];
      unfold mkdir, move, chdir, close, write_to_file, write_to_file_at,
        read_from_file, read_from_file_at, move_within_file, truncate_file,
        _allocate_space, _release_space, get_current_directory_meta,
        new_record, get_record;
      frame
  end.

Section staying_in_the_maps.

Implicit Types (w : FileSystem).

(** X22.  No operation of the engine removes a directory: a path that is
    in the directories map before a call is in it after the call,
    whether the call returns or raises.  So the root directory, which a
    new volume has, is there in every state the engine can reach. *)
Theorem directories_are_never_removed :
  (∀ now c w q, is_Some (directories w !! q) →
     is_Some (directories (run now c w).2 !! q))
  ∧ (∀ capacity w, reachable capacity w → is_Some (directories w !! "/")).
Proof.
  assert (∀ now c q,
            ensures (λ w, is_Some (directories w !! q)) (run now c) (λ _, True))
    as Hrun.
  { intros now c q. destruct c; simpl;
      unfold create, delete, mkdir, move, open, FileObject_init,
        get_current_directory_meta;
      repeat directory_step. }
  split.
  - intros now c w q Hq. by apply (Hrun now c q w).
  - intros capacity w Hw. induction Hw as [now|w now c Hw IH|w s r Hw IH].
    + simpl. by rewrite lookup_singleton_eq.
    + by apply (Hrun now c "/" w).
    + exact IH.
Qed.

(** X23.  A file leaves the files map only by [delete]: after any other
    call, whether it returns or raises, and after [delete] of another
    name, a name that was in the files map is still there, with the same
    record. *)
Theorem files_leave_only_by_delete now c w name r :
  files w !! name = Some r → c ≠ Delete name →
  files (run now c w).2 !! name = Some r.
Proof.
  intros Hfile Hc.
  assert (ensures (λ w, files w !! name = Some r) (run now c) (λ _, True))
    as Hrun; [|by apply (Hrun w)].
  destruct c; simpl; try (by repeat file_step).
  - unfold create. repeat file_step.
  - unfold delete.
    assert (name0 ≠ name) by congruence.
    repeat file_step.
  - unfold open, FileObject_init. repeat file_step.
Qed.

(** "a.txt" is still there after "b.txt" is deleted. *)
Lemma files_leave_only_by_delete_witness :
  let w := after 1024 [(1, Create "a.txt"); (2, Create "b.txt")] in
  files (run 3 (Delete "b.txt") w).2 !! "a.txt" = Some 0%nat.
Proof.
  intros w.
  by apply (files_leave_only_by_delete 3 (Delete "b.txt") w "a.txt" 0%nat).
Defined.

End staying_in_the_maps.
